(** * ralph-tui: the permission-denial detector and the Droid agent plugin

    A shallow embedding of
    - [src/engine/permission-denial-detector.ts] (the classifier of agent
      output: [PERMISSION_PATTERNS], [BLOCKED_INDICATORS], [detect],
      [extractMessage], [extractCommand], [isClaudeAgent]), and
    - [src/plugins/agents/droid/index.ts] ([DroidAgentPlugin.meta] and
      [DroidAgentPlugin.initialize]).

    JavaScript strings are sequences of UTF-16 code units, modelled as
    [list N].  The regular expressions of the detector are kept as syntax
    trees and run by a backtracking matcher that follows the matcher of the
    ECMAScript specification (continuations, priority order of
    alternatives, greedy and lazy quantifiers, look-behind read backwards).
    The [lastIndex] slot of every RegExp object lives in an explicit store
    that [exec], [test] and [match] thread through. *)

From Stdlib Require Import NArith ZArith List String Ascii Bool Lia.
From stdpp Require Import gmap list.
Import ListNotations.

Set Default Proof Using "Type".
Local Open Scope N_scope.

(** ** Strings *)

(** A string literal of the source, as code units. *)
Definition js (s : string) : list N :=
  List.map N_of_ascii (list_ascii_of_string s).

(** The single code unit of a one-character literal. *)
Definition chr (s : string) : N := List.hd 0 (js s).

(** The double quote, [U+0022]. *)
Definition dquote : N := 34.

(** ECMAScript [LineTerminator]: LF, CR, LS, PS. *)
Definition is_line_terminator (c : N) : bool :=
  (c =? 10) || (c =? 13) || (c =? 8232) || (c =? 8233).

(** ECMAScript [WhiteSpace]: TAB, VT, FF, SP, NBSP, ZWNBSP and the
    Unicode space separators. *)
Definition is_white_space (c : N) : bool :=
  (c =? 9) || (c =? 11) || (c =? 12) || (c =? 32) || (c =? 160)
  || (c =? 5760) || ((8192 <=? c) && (c <=? 8202))
  || (c =? 8239) || (c =? 8287) || (c =? 12288) || (c =? 65279).

(** What [\s] matches and what [String.prototype.trim] strips. *)
Definition is_space (c : N) : bool := is_white_space c || is_line_terminator c.

(** What [\w] matches (without the [u] flag): [[A-Za-z0-9_]]. *)
Definition is_word (c : N) : bool :=
  ((97 <=? c) && (c <=? 122)) || ((65 <=? c) && (c <=? 90))
  || ((48 <=? c) && (c <=? 57)) || (c =? 95).

(** Case mapping on the ASCII letters.  The patterns and the family token
    of this file are ASCII; a code unit outside ASCII never maps to an
    ASCII one (the matcher's Canonicalize refuses it, and Unicode
    lower-casing yields none of the letters of the token), so code units
    outside ASCII are left as they are. *)
Definition to_upper (c : N) : N :=
  if (97 <=? c) && (c <=? 122) then c - 32 else c.

Definition to_lower (c : N) : N :=
  if (65 <=? c) && (c <=? 90) then c + 32 else c.

(** [String.prototype.toLowerCase]. *)
Definition toLowerCase (s : list N) : list N := List.map to_lower s.

(** [s.startsWith(p)]. *)
Fixpoint starts_with (p s : list N) : bool :=
  match p, s with
  | [], _ => true
  | _ :: _, [] => false
  | a :: p', b :: s' => (a =? b) && starts_with p' s'
  end.

(** [s.includes(p)]. *)
Fixpoint includes (s p : list N) : bool :=
  starts_with p s ||
  match s with
  | [] => false
  | _ :: s' => includes s' p
  end.

(** [String.prototype.trim]. *)
Fixpoint trim_start (s : list N) : list N :=
  match s with
  | c :: s' => if is_space c then trim_start s' else s
  | [] => []
  end.

Definition trim_end (s : list N) : list N := rev (trim_start (rev s)).

Definition trim (s : list N) : list N := trim_end (trim_start s).

(** [s.slice(start, end)] with the relative indices of the specification:
    a negative index counts from the end, and both are clamped. *)
Definition rel_index (len k : Z) : Z :=
  if (k <? 0)%Z then Z.max (len + k) 0 else Z.min k len.

Definition slice (s : list N) (from to : Z) : list N :=
  let len := Z.of_nat (length s) in
  let a := rel_index len from in
  let b := rel_index len to in
  take (Z.to_nat (b - a)) (drop (Z.to_nat a) s).

(** ** Regular expressions *)

Inductive class_item : Type :=
| CChar (c : N)        (* a character of the class *)
| CSpace               (* \s *)
| CNonSpace.           (* \S *)

Inductive regex : Type :=
| Eps
| Lit (c : N)                                   (* a pattern character *)
| Dot                                           (* . *)
| Class (invert : bool) (items : list class_item)  (* [...] and [^...] *)
| Seq (a b : regex)
| Alt (a b : regex)                             (* a|b *)
| Quant (min : nat) (max : option nat) (greedy : bool) (a : regex)
| Cap (n : nat) (a : regex)                     (* capturing group number n *)
| LineStart                                     (* ^ *)
| WordBoundary                                  (* \b *)
| NotBehind (a : regex).                        (* (?<!a) *)

Record reflags : Type := {
  ignoreCase : bool;   (* i *)
  multiline : bool;    (* m *)
  global : bool;       (* g *)
  sticky : bool        (* y *)
}.

(** The matcher state: the subject split at the current position (the
    part before it reversed), and the captures. *)
Record mstate : Type := {
  before : list N;
  after : list N;
  caps : gmap nat (list N)
}.

Definition pos (x : mstate) : nat := length (before x).

Definition subject (x : mstate) : list N := rev (before x) ++ after x.

Inductive direction : Type := Forward | Backward.

(** Read one character in the direction of the match and move over it. *)
Definition advance (d : direction) (x : mstate) : option (N * mstate) :=
  match d with
  | Forward =>
      match after x with
      | c :: r => Some (c, {| before := c :: before x; after := r; caps := caps x |})
      | [] => None
      end
  | Backward =>
      match before x with
      | c :: l => Some (c, {| before := l; after := c :: after x; caps := caps x |})
      | [] => None
      end
  end.

Definition canonicalize (fl : reflags) (c : N) : N :=
  if ignoreCase fl then to_upper c else c.

Definition in_item (fl : reflags) (ch : N) (it : class_item) : bool :=
  match it with
  | CChar c => canonicalize fl c =? canonicalize fl ch
  | CSpace => is_space ch
  | CNonSpace => negb (is_space ch)
  end.

Definition in_class (fl : reflags) (invert : bool) (items : list class_item) (ch : N) : bool :=
  xorb invert (existsb (in_item fl ch) items).

(** One character accepted by [ok]. *)
Definition match_char (ok : N → bool) (d : direction) (x : mstate)
    (k : mstate → option mstate) : option mstate :=
  match advance d x with
  | Some (ch, y) => if ok ch then k y else None
  | None => None
  end.

Definition at_line_start (fl : reflags) (x : mstate) : bool :=
  match before x with
  | [] => true
  | c :: _ => multiline fl && is_line_terminator c
  end.

Definition at_word_boundary (x : mstate) : bool :=
  let a := match before x with c :: _ => is_word c | [] => false end in
  let b := match after x with c :: _ => is_word c | [] => false end in
  xorb a b.

(** The text between two states of one match. *)
Definition text_between (x y : mstate) : list N :=
  if (pos x <=? pos y)%nat
  then rev (take (pos y - pos x) (before y))
  else take (pos x - pos y) (after y).

(** The numbers of the capturing groups inside a pattern. *)
Fixpoint groups (r : regex) : list nat :=
  match r with
  | Seq a b | Alt a b => groups a ++ groups b
  | Quant _ _ _ a | NotBehind a => groups a
  | Cap n a => n :: groups a
  | _ => []
  end.

Definition clear_caps (ns : list nat) (x : mstate) : mstate :=
  {| before := before x; after := after x;
     caps := foldr (λ n c, delete n c) (caps x) ns |}.

Definition set_cap (n : nat) (t : list N) (x : mstate) : mstate :=
  {| before := before x; after := after x; caps := <[n := t]> (caps x) |}.

Definition or_else {A} (a b : option A) : option A :=
  match a with Some _ => a | None => b end.

(** RepeatMatcher, for a quantified atom whose matcher is [ma]: an
    iteration that matched the empty string once [min] is reached fails,
    so every further iteration moves, and [fuel] bounds the number of
    iterations by what the subject allows ([repeat_fuel_irrelevant]). *)
Fixpoint repeat_matcher (ma : mstate → (mstate → option mstate) → option mstate)
    (inner : list nat) (greedy : bool) (k : mstate → option mstate)
    (fuel min : nat) (max : option nat) (x : mstate) {struct fuel}
    : option mstate :=
  match fuel with
  | O => None
  | S fuel' =>
      match max with
      | Some O => k x
      | _ =>
          let again (y : mstate) :=
            if (min =? 0)%nat && (pos y =? pos x)%nat then None
            else repeat_matcher ma inner greedy k fuel' (Nat.pred min) (Nat.pred <$> max) y in
          let xr := clear_caps inner x in
          if negb (min =? 0)%nat then ma xr again
          else if greedy
               then or_else (ma xr again) (k x)
               else or_else (k x) (ma xr again)
      end
  end.

(** The matcher of a pattern: [matcher fl r d x k] runs [r] from state [x]
    in direction [d] and hands every candidate end state to the
    continuation [k], in priority order; the first success wins. *)
Fixpoint matcher (fl : reflags) (r : regex) (d : direction) (x : mstate)
    (k : mstate → option mstate) {struct r} : option mstate :=
  match r with
  | Eps => k x
  | Lit c => match_char (λ ch, canonicalize fl ch =? canonicalize fl c) d x k
  | Dot => match_char (λ ch, negb (is_line_terminator ch)) d x k
  | Class invert items => match_char (in_class fl invert items) d x k
  | Seq a b =>
      match d with
      | Forward => matcher fl a d x (λ y, matcher fl b d y k)
      | Backward => matcher fl b d x (λ y, matcher fl a d y k)
      end
  | Alt a b => or_else (matcher fl a d x k) (matcher fl b d x k)
  | Quant min max greedy a =>
      repeat_matcher (matcher fl a d) (groups a) greedy k
        (min + length (subject x) + 1) min max x
  | Cap n a => matcher fl a d x (λ y, k (set_cap n (text_between x y) y))
  | LineStart => if at_line_start fl x then k x else None
  | WordBoundary => if at_word_boundary x then k x else None
  | NotBehind a =>
      match matcher fl a Backward x Some with
      | Some _ => None
      | None => k x
      end
  end.

(** The pattern matched with its start at the current position. *)
Definition match_at (fl : reflags) (r : regex) (x : mstate) : option mstate :=
  matcher fl r Forward x Some.

(** The leftmost match at or after the current position: the start and
    the end state. *)
Fixpoint search (fl : reflags) (r : regex) (bef aft : list N) {struct aft}
    : option (nat * mstate) :=
  match match_at fl r {| before := bef; after := aft; caps := ∅ |} with
  | Some e => Some (length bef, e)
  | None =>
      match aft with
      | [] => None
      | c :: aft' => search fl r (c :: bef) aft'
      end
  end.

(** ** RegExp objects and the store of their [lastIndex] slots *)

(** A RegExp object: its identity (every literal of the source evaluates
    to an object of its own), the pattern and the flags. *)
Record RegExp : Type := {
  re_id : nat;
  re_source : regex;
  re_flags : reflags
}.

(** [lastIndex] of every RegExp object; an object not in the map has
    [lastIndex = 0], the value it is created with. *)
Abbreviation store := (gmap nat nat).

Definition M (A : Type) : Type := store → A * store.

Definition ret {A} (a : A) : M A := λ σ, (a, σ).

Definition bind {A B} (c : M A) (f : A → M B) : M B :=
  λ σ, let '(a, σ') := c σ in f a σ'.

Notation "'let*' x ':=' c 'in' k" := (bind c (λ x, k))
  (at level 10, x name, c at level 200, k at level 200, only parsing).

Definition get_lastIndex (R : RegExp) : M nat :=
  λ σ, (default 0%nat (σ !! re_id R), σ).

Definition set_lastIndex (R : RegExp) (n : nat) : M unit :=
  λ σ, (tt, <[re_id R := n]> σ).

(** The array a successful match returns: element 0 is the matched text,
    element [n] the capture of group [n] ([None] is [undefined]), and
    [index] is where the match starts.  The array that a global [match]
    returns holds the matched texts only and has no [index]. *)
Record MatchArray : Type := {
  m_items : list (option (list N));
  m_index : option nat
}.

Definition m_item (m : MatchArray) (n : nat) : option (list N) :=
  mjoin (m_items m !! n).

Definition match_array (r : regex) (start : nat) (e : mstate) : MatchArray :=
  {| m_items :=
       Some (rev (take (pos e - start) (before e)))
       :: List.map (λ n, caps e !! n) (seq 1 (length (groups r)));
     m_index := Some start |}.

(** The match that starts at [lastIndex] or, unless the object is sticky,
    at the first later position that has one. *)
Definition run_matcher (R : RegExp) (str : list N) (lastIndex : nat)
    : option (nat * mstate) :=
  let bef := rev (take lastIndex str) in
  let aft := drop lastIndex str in
  if sticky (re_flags R)
  then (λ e, (lastIndex, e)) <$>
       match_at (re_flags R) (re_source R) {| before := bef; after := aft; caps := ∅ |}
  else search (re_flags R) (re_source R) bef aft.

(** RegExpBuiltinExec: [lastIndex] is read and written only by a global
    or sticky object. *)
Definition exec (R : RegExp) (str : list N) : M (option MatchArray) :=
  let fl := re_flags R in
  let stateful := global fl || sticky fl in
  let* li := get_lastIndex R in
  let lastIndex := if stateful then li else 0%nat in
  if (length str <? lastIndex)%nat
  then
    let* _ := (if stateful then set_lastIndex R 0 else ret tt) in
    ret None
  else
    match run_matcher R str lastIndex with
    | None =>
        let* _ := (if stateful then set_lastIndex R 0 else ret tt) in
        ret None
    | Some (start, e) =>
        let* _ := (if stateful then set_lastIndex R (pos e) else ret tt) in
        ret (Some (match_array (re_source R) start e))
    end.

(** [R.test(str)]. *)
Definition test (R : RegExp) (str : list N) : M bool :=
  let* m := exec R str in ret (bool_decide (is_Some m)).

(** The loop of a global [str.match(R)]: every match in turn, an empty
    match moving [lastIndex] on by one. *)
Fixpoint match_all (fuel : nat) (R : RegExp) (str : list N) (acc : list (list N))
    : M (list (list N)) :=
  match fuel with
  | O => ret acc
  | S fuel' =>
      let* m := exec R str in
      match m with
      | None => ret acc
      | Some a =>
          let text := default [] (m_item a 0) in
          let* _ := (if bool_decide (text = [])
                     then (let* li := get_lastIndex R in set_lastIndex R (li + 1))
                     else ret tt) in
          match_all fuel' R str (acc ++ [text])
      end
  end.

(** [str.match(R)]. *)
Definition string_match (str : list N) (R : RegExp) : M (option MatchArray) :=
  if global (re_flags R)
  then
    let* _ := set_lastIndex R 0 in
    let* texts := match_all (length str + 2) R str [] in
    ret (match texts with
         | [] => None
         | _ => Some {| m_items := Some <$> texts; m_index := None |}
         end)
  else exec R str.

(** [str.replace(/r/flags, repl)] for a regular-expression literal written
    at the call and a replacement text without [$]: the literal is a new
    object at every evaluation, so its [lastIndex] is local to the call.
    [next] is the end of the previous match, [acc] the text built so far. *)
Fixpoint replace_loop (fl : reflags) (r : regex) (repl : list N) (fuel : nat)
    (str : list N) (lastIndex next : nat) (acc : list N) : list N :=
  match fuel with
  | O => acc ++ drop next str
  | S fuel' =>
      if (length str <? lastIndex)%nat then acc ++ drop next str
      else
        match search fl r (rev (take lastIndex str)) (drop lastIndex str) with
        | None => acc ++ drop next str
        | Some (start, e) =>
            let acc' := acc ++ take (start - next) (drop next str) ++ repl in
            if global fl
            then replace_loop fl r repl fuel' str
                   (if (pos e =? start)%nat then pos e + 1 else pos e)%nat
                   (pos e) acc'
            else acc' ++ drop (pos e) str
        end
  end.

Definition replace_literal (fl : reflags) (r : regex) (repl str : list N) : list N :=
  replace_loop fl r repl (length str + 2) str 0 0 [].

(** ** The pattern tables *)

Definition lit (s : string) : regex := foldr Seq Eps (Lit <$> js s).
Definition plus (a : regex) : regex := Quant 1 None true a.
Definition star (a : regex) : regex := Quant 0 None true a.
Definition star_lazy (a : regex) : regex := Quant 0 None false a.
Definition opt (a : regex) : regex := Quant 0 (Some 1%nat) true a.
Definition space : regex := Class false [CSpace].

Infix "+++" := Seq (at level 60, right associativity).
Infix "|+|" := Alt (at level 65, right associativity).

Definition flags_i : reflags :=
  {| ignoreCase := true; multiline := false; global := false; sticky := false |}.
Definition flags_im : reflags :=
  {| ignoreCase := true; multiline := true; global := false; sticky := false |}.
Definition flags_g : reflags :=
  {| ignoreCase := false; multiline := false; global := true; sticky := false |}.

(** [[:\s]+] *)
Definition colon_or_space : regex := plus (Class false [CChar (chr ":"); CSpace]).

(** [/^Claude wants to (?:run|execute)[:\s]+(.+)/im] *)
Definition re_run : regex :=
  LineStart +++ lit "Claude wants to " +++ (lit "run" |+| lit "execute")
  +++ colon_or_space +++ Cap 1 (plus Dot).

(** [/^Claude wants to (?:write|create|modify)(?: to)?[:\s]+(.+)/im] *)
Definition re_write : regex :=
  LineStart +++ lit "Claude wants to "
  +++ (lit "write" |+| lit "create" |+| lit "modify") +++ opt (lit " to")
  +++ colon_or_space +++ Cap 1 (plus Dot).

(** [/^Claude wants to edit[:\s]+(.+)/im] *)
Definition re_edit : regex :=
  LineStart +++ lit "Claude wants to edit" +++ colon_or_space +++ Cap 1 (plus Dot).

(** [(?<!was\s)(?<!were\s)(?<!been\s)], the past-tense exclusion. *)
Definition not_past : regex :=
  NotBehind (lit "was" +++ space) +++ NotBehind (lit "were" +++ space)
  +++ NotBehind (lit "been" +++ space).

(** [/(?<!was\s)(?<!were\s)(?<!been\s)\bwaiting for (?:user )?(?:permission|approval)\b/i] *)
Definition re_waiting : regex :=
  not_past +++ WordBoundary +++ lit "waiting for " +++ opt (lit "user ")
  +++ (lit "permission" |+| lit "approval") +++ WordBoundary.

(** [/"type"\s*:\s*"permission"/i] *)
Definition re_json_permission : regex :=
  Lit dquote +++ lit "type" +++ Lit dquote +++ star space +++ lit ":"
  +++ star space +++ Lit dquote +++ lit "permission" +++ Lit dquote.

(** [/(?<!previously\s)(?<!already\s)\brequires? (?:user )?(?:input|confirmation|approval)\b/i] *)
Definition re_requires : regex :=
  NotBehind (lit "previously" +++ space) +++ NotBehind (lit "already" +++ space)
  +++ WordBoundary +++ lit "require" +++ opt (lit "s") +++ lit " "
  +++ opt (lit "user ")
  +++ (lit "input" |+| lit "confirmation" |+| lit "approval") +++ WordBoundary.

(** [/(?:git (?:commit|push|pull|merge|rebase).*?\brequires?\b|permission.*?git)/i] *)
Definition re_git : regex :=
  (lit "git "
   +++ (lit "commit" |+| lit "push" |+| lit "pull" |+| lit "merge" |+| lit "rebase")
   +++ star_lazy Dot +++ WordBoundary +++ lit "require" +++ opt (lit "s")
   +++ WordBoundary)
  |+| (lit "permission" +++ star_lazy Dot +++ lit "git").

(** [/(?:press|hit|type)\s+(?:\[?[yYnN]\]?|enter|return)\s+to\s+(?:continue|confirm|proceed)/i] *)
Definition re_prompt : regex :=
  (lit "press" |+| lit "hit" |+| lit "type") +++ plus space
  +++ ((opt (lit "[")
        +++ Class false [CChar (chr "y"); CChar (chr "Y"); CChar (chr "n"); CChar (chr "N")]
        +++ opt (lit "]"))
       |+| lit "enter" |+| lit "return")
  +++ plus space +++ lit "to" +++ plus space
  +++ (lit "continue" |+| lit "confirm" |+| lit "proceed").

(** [/(?<!was\s)(?<!were\s)(?<!been\s)\bwaiting for input\b/i] and its two
    siblings. *)
Definition re_stalled (phrase : string) : regex :=
  not_past +++ WordBoundary +++ lit phrase +++ WordBoundary.

(** [/"tool"\s*:\s*"(?:Bash|Write|Edit)"[\s\S]*?"blocked"\s*:\s*true/i] *)
Definition re_tool_blocked : regex :=
  Lit dquote +++ lit "tool" +++ Lit dquote +++ star space +++ lit ":"
  +++ star space +++ Lit dquote +++ (lit "Bash" |+| lit "Write" |+| lit "Edit")
  +++ Lit dquote +++ star_lazy (Class false [CSpace; CNonSpace])
  +++ Lit dquote +++ lit "blocked" +++ Lit dquote +++ star space +++ lit ":"
  +++ star space +++ lit "true".

Record PermissionPattern : Type := {
  pattern : RegExp;
  operationName : list N;
  commandPattern : option RegExp
}.

Definition mkRegExp (id : nat) (r : regex) (fl : reflags) : RegExp :=
  {| re_id := id; re_source := r; re_flags := fl |}.

Definition PERMISSION_PATTERNS : list PermissionPattern := [
  {| pattern := mkRegExp 0 re_run flags_im;
     operationName := js "bash command";
     commandPattern := Some (mkRegExp 1 re_run flags_im) |};
  {| pattern := mkRegExp 2 re_write flags_im;
     operationName := js "file modification";
     commandPattern := Some (mkRegExp 3 re_write flags_im) |};
  {| pattern := mkRegExp 4 re_edit flags_im;
     operationName := js "file edit";
     commandPattern := Some (mkRegExp 5 re_edit flags_im) |};
  {| pattern := mkRegExp 6 re_waiting flags_i;
     operationName := js "operation";
     commandPattern := None |};
  {| pattern := mkRegExp 7 re_json_permission flags_i;
     operationName := js "permission request";
     commandPattern := None |};
  {| pattern := mkRegExp 8 re_requires flags_i;
     operationName := js "user confirmation";
     commandPattern := None |};
  {| pattern := mkRegExp 9 re_git flags_i;
     operationName := js "git operation";
     commandPattern := None |};
  {| pattern := mkRegExp 10 re_prompt flags_i;
     operationName := js "interactive prompt";
     commandPattern := None |}
].

Definition BLOCKED_INDICATORS : list RegExp := [
  mkRegExp 11 (re_stalled "waiting for input") flags_i;
  mkRegExp 12 (re_stalled "awaiting response") flags_i;
  mkRegExp 13 (re_stalled "paused for confirmation") flags_i;
  mkRegExp 14 re_tool_blocked flags_i
].

(** ** The detector *)

Record PermissionDenialResult : Type := {
  isBlocked : bool;
  operation : option (list N);
  message : option (list N);
  blockedCommand : option (list N)
}.

Record PermissionDenialInput : Type := {
  stdout : list N;
  stderr : option (list N);
  exitCode : option Z;
  agentId : option (list N)
}.

Definition not_blocked : PermissionDenialResult :=
  {| isBlocked := false; operation := None; message := None; blockedCommand := None |}.

(** [isClaudeAgent]. *)
Definition isClaudeAgent (agentId : list N) : bool :=
  includes (toLowerCase agentId) (js "claude").

(** The tail of [extractMessage], from the slice on. *)
Definition clean_message (output : list N) (matchIndex matchLength : Z) : list N :=
  let start := Z.max 0 (matchIndex - 20) in
  let end_ := Z.min (Z.of_nat (length output)) (matchIndex + matchLength + 80) in
  let message := trim (slice output start end_) in
  let message := replace_literal flags_g (plus space) (js " ") message in
  if (150 <? length message)%nat
  then slice message 0 150 ++ js "..."
  else message.

(** [extractMessage], after the call of [match]. *)
Definition message_of_match (output : list N) (m : option MatchArray) : list N :=
  match m with
  | None => js "Permission required"
  | Some a =>
      let matchIndex := Z.of_nat (default 0%nat (m_index a)) in
      let matchLength := Z.of_nat (length (default [] (m_item a 0))) in
      clean_message output matchIndex matchLength
  end.

(** [extractMessage]. *)
Definition extractMessage (output : list N) (pattern : RegExp) : M (list N) :=
  let* m := string_match output pattern in
  ret (message_of_match output m).

(** [extractCommand], after the call of [match]; [match[1]] counts when
    it is a non-empty text. *)
Definition command_of_match (m : option MatchArray) : option (list N) :=
  match m with
  | Some a =>
      match m_item a 1 with
      | Some (c :: t) =>
          let command := trim (c :: t) in
          Some (if (100 <? length command)%nat
                then slice command 0 100 ++ js "..."
                else command)
      | _ => None
      end
  | None => None
  end.

(** [extractCommand]. *)
Definition extractCommand (output : list N) (pattern : RegExp) : M (option (list N)) :=
  let* m := string_match output pattern in
  ret (command_of_match m).

(** The first loop of [detect]: the first rule whose pattern matches
    returns. *)
Fixpoint check_patterns (rules : list PermissionPattern) (combinedOutput : list N)
    : M (option PermissionDenialResult) :=
  match rules with
  | [] => ret None
  | rule :: rest =>
      let* hit := test (pattern rule) combinedOutput in
      if hit
      then
        let* msg := extractMessage combinedOutput (pattern rule) in
        let* cmd := match commandPattern rule with
               | Some cp => extractCommand combinedOutput cp
               | None => ret None
               end in
        ret (Some {| isBlocked := true;
                     operation := Some (operationName rule);
                     message := Some msg;
                     blockedCommand := cmd |})
      else check_patterns rest combinedOutput
  end.

(** The second loop of [detect]. *)
Fixpoint check_indicators (indicators : list RegExp) (combinedOutput : list N)
    : M (option PermissionDenialResult) :=
  match indicators with
  | [] => ret None
  | ind :: rest =>
      let* hit := test ind combinedOutput in
      if hit
      then
        let* msg := extractMessage combinedOutput ind in
        ret (Some {| isBlocked := true;
                     operation := Some (js "blocked operation");
                     message := Some msg;
                     blockedCommand := None |})
      else check_indicators rest combinedOutput
  end.

(** [`${stdout}\n${stderr || ''}`]. *)
Definition combined (input : PermissionDenialInput) : list N :=
  stdout input ++ [10] ++ default [] (stderr input).

(** [agentId && !this.isClaudeAgent(agentId)]: an absent and an empty
    identifier are both falsy. *)
Definition other_agent (agentId : option (list N)) : bool :=
  match agentId with
  | Some (c :: t) => negb (isClaudeAgent (c :: t))
  | _ => false
  end.

(** [detect], from the combined output on. *)
Definition classify (combinedOutput : list N) : M PermissionDenialResult :=
  let* r := check_patterns PERMISSION_PATTERNS combinedOutput in
  match r with
  | Some res => ret res
  | None =>
      let* r := check_indicators BLOCKED_INDICATORS combinedOutput in
      match r with
      | Some res => ret res
      | None => ret not_blocked
      end
  end.

(** [detect]. *)
Definition detect (input : PermissionDenialInput) : M PermissionDenialResult :=
  if other_agent (agentId input) then ret not_blocked
  else classify (combined input).

(** The input of a call that passes [stdout] only. *)
Definition on_stdout (s : list N) : PermissionDenialInput :=
  {| stdout := s; stderr := None; exitCode := None; agentId := None |}.

(** ** Notions used by the statements *)

(** [reach d x y]: [y] is [x] moved over some characters in direction
    [d]; the captures are free. *)
Definition reach (d : direction) (x y : mstate) : Prop :=
  match d with
  | Forward => ∃ l, after x = l ++ after y ∧ before y = rev l ++ before x
  | Backward => ∃ l, before x = l ++ before y ∧ after y = rev l ++ after x
  end.

(** What is left to read in direction [d]. *)
Definition remaining (d : direction) (x : mstate) : nat :=
  match d with
  | Forward => length (after x)
  | Backward => length (before x)
  end.

(** A matcher [ma] looks at its continuation only on the states it can
    reach. *)
Definition local_matcher (d : direction)
    (ma : mstate → (mstate → option mstate) → option mstate) : Prop :=
  ∀ x k k', (∀ y, reach d x y → k y = k' y) → ma x k = ma x k'.

(** An object with neither [g] nor [y] never reads or writes [lastIndex]. *)
Definition stateless (R : RegExp) : bool :=
  negb (global (re_flags R) || sticky (re_flags R)).

(** The leftmost match of [R] in [S], as [exec] returns it from the start
    of the subject. *)
Definition find_match (R : RegExp) (S : list N) : option MatchArray :=
  (λ se, match_array (re_source R) se.1 se.2)
    <$> search (re_flags R) (re_source R) [] S.

Definition matches (R : RegExp) (S : list N) : bool :=
  bool_decide (is_Some (find_match R S)).

Definition rule_stateless (rule : PermissionPattern) : bool :=
  stateless (pattern rule) && from_option stateless true (commandPattern rule).

(** What a rule that fired returns. *)
Definition rule_result (rule : PermissionPattern) (out : list N) : PermissionDenialResult :=
  {| isBlocked := true;
     operation := Some (operationName rule);
     message := Some (message_of_match out (find_match (pattern rule) out));
     blockedCommand :=
       cp ← commandPattern rule; command_of_match (find_match cp out) |}.

Definition indicator_result (ind : RegExp) (out : list N) : PermissionDenialResult :=
  {| isBlocked := true;
     operation := Some (js "blocked operation");
     message := Some (message_of_match out (find_match ind out));
     blockedCommand := None |}.

(** The result of the two loops of [detect], read off the tables: the
    first primary rule that matches, else the first indicator. *)
Definition first_match_result (out : list N) : PermissionDenialResult :=
  match List.find (λ rule, matches (pattern rule) out) PERMISSION_PATTERNS with
  | Some rule => rule_result rule out
  | None =>
      match List.find (λ ind, matches ind out) BLOCKED_INDICATORS with
      | Some ind => indicator_result ind out
      | None => not_blocked
      end
  end.

(** Two code units that are the same letter up to case. *)
Definition eq_ci (a b : N) : Prop := to_lower a = to_lower b.

(** [s] contains [token] as a substring, in any letter case. *)
Definition contains_ci (token s : list N) : Prop :=
  ∃ pre mid post, s = pre ++ mid ++ post ∧ Forall2 eq_ci mid token.

(** The inputs of the scenarios. *)
Definition scenario_A : PermissionDenialInput :=
  on_stdout (js "Claude wants to run: git commit -m " ++ [dquote] ++ js "test" ++ [dquote]).

Definition scenario_B : PermissionDenialInput :=
  on_stdout (js "The agent was waiting for permission earlier").

(** The command of the truncation tests: [`Claude wants to run: ${'a'.repeat(150)}`]. *)
Definition long_command_input : PermissionDenialInput :=
  on_stdout (js "Claude wants to run: " ++ repeat (chr "a") 150).

(** An empty identifier and a prompt. *)
Definition empty_agent_input : PermissionDenialInput :=
  {| stdout := js "Claude wants to run: git push"; stderr := None;
     exitCode := None; agentId := Some [] |}.

(** An output that matches the first and the sixth primary rule. *)
Definition two_rules_input : PermissionDenialInput :=
  on_stdout (js "Claude wants to run: deploy, which requires approval").

(** Every match of the pattern reads at least one character that is not
    white space: a sufficient syntactic test. *)
Fixpoint needs_ink (r : regex) : bool :=
  match r with
  | Lit c => negb (is_space c)
  | Seq a b => needs_ink a || needs_ink b
  | Alt a b => needs_ink a && needs_ink b
  | Quant min max _ a =>
      negb (min =? 0)%nat && negb (bool_decide (max = Some 0%nat)) && needs_ink a
  | Cap _ a => needs_ink a
  | _ => false
  end.

(** A text of white space only. *)
Definition blank (s : list N) : Prop := Forall (λ c, is_space c = true) s.

(** The example of the false-positive tests, and the same function with a
    parameter called [digit]. *)
Definition code_example : PermissionDenialInput :=
  on_stdout (js "function checkPermission() { return true; }").

Definition code_with_digit : PermissionDenialInput :=
  on_stdout (js "function checkPermission(digit) { return true; }").

(** Position [i] of [out] comes right after 'was', 'were' or 'been', in
    any letter case, and one white-space character. *)
Definition past_tense_before (out : list N) (i : nat) : Prop :=
  ∃ pre aux ws,
    take i out = pre ++ aux ++ [ws]
    ∧ is_space ws = true
    ∧ (Forall2 eq_ci aux (js "was") ∨ Forall2 eq_ci aux (js "were")
       ∨ Forall2 eq_ci aux (js "been")).

(** The phrases of the rules that exclude the past tense. *)
Definition waiting_phrases : list (list N) :=
  [js "waiting for permission"; js "waiting for user permission";
   js "waiting for approval"; js "waiting for user approval";
   js "waiting for input"; js "awaiting response"; js "paused for confirmation"].

(** [out] has a phrase right after a past-tense auxiliary. *)
Definition past_tense_phrase (out : list N) : Prop :=
  ∃ i phrase, past_tense_before out i ∧ phrase ∈ waiting_phrases
              ∧ starts_with phrase (drop i out) = true.

(** The rules with the past-tense exclusion: the fourth primary rule and
    the first three indicators. *)
Definition waiting_rules : list RegExp :=
  (pattern <$> take 1 (drop 3 PERMISSION_PATTERNS)) ++ take 3 BLOCKED_INDICATORS.

(** A narration of the past followed by a present wait. *)
Definition past_then_present : PermissionDenialInput :=
  on_stdout (js "The agent was waiting for permission earlier and is waiting for permission now").

(** Every run of white space made one space. *)
Fixpoint squeeze_from (in_run : bool) (s : list N) : list N :=
  match s with
  | [] => []
  | c :: s' =>
      if is_space c
      then if in_run then squeeze_from true s' else 32 :: squeeze_from true s'
      else c :: squeeze_from false s'
  end.

Definition squeeze (s : list N) : list N := squeeze_from false s.

(** The text is empty or starts with a character that is not white space. *)
Abbreviation ink_first s :=
  (match s with ch :: _ => is_space ch = false | [] => True end).

(** The context of a match [m0] between [pre] and [post]: the last 20
    characters before it, the match, the first 80 after it. *)
Definition context_window (pre m0 post : list N) : list N :=
  drop (length pre - 20) pre ++ m0 ++ take 80 post.

(** A text cut to [n] characters, with the ellipsis when it was longer. *)
Definition ellipsis_at (n : nat) (s : list N) : list N :=
  if (n <? length s)%nat then take n s ++ js "..." else s.

(** The patterns that [detect] tries. *)
Definition all_patterns : list RegExp :=
  (pattern <$> PERMISSION_PATTERNS) ++ BLOCKED_INDICATORS.

(** No white-space character next to another one. *)
Fixpoint single_spaced (s : list N) : bool :=
  match s with
  | a :: (b :: _) as t => negb (is_space a && is_space b) && single_spaced t
  | _ => true
  end.

(** An output with a prompt on its second line, as in the message tests. *)
Definition prompt_in_context : PermissionDenialInput :=
  on_stdout (js "Some prefix." ++ [10] ++ js "Claude wants to run: git push"
             ++ [10] ++ js "Some suffix.").

(** * The Droid agent plugin *)

(** A value of type [unknown] in a configuration record. *)
Inductive JsVal : Type :=
| JUndefined
| JNull
| JBool (b : bool)
| JNumber (z : Z)
| JString (s : list N)
| JObject.

(** How an [async] method ends. *)
Inductive outcome (A : Type) : Type :=
| Resolved (a : A)
| Rejected (reason : JsVal).
Arguments Resolved {A} a.
Arguments Rejected {A} reason.

(** [AgentPluginMeta], the capability descriptor. *)
Record AgentPluginMeta : Type := {
  id : list N;
  name : list N;
  description : list N;
  version : list N;
  author : list N;
  defaultCommand : list N;
  supportsStreaming : bool;
  supportsInterrupt : bool;
  supportsFileContext : bool;
  supportsSubagentTracing : bool;
  structuredOutputFormat : option (list N)
}.

(** The object handed to [DroidAgentConfigSchema.safeParse]. *)
Record DroidRawConfig : Type := {
  raw_model : JsVal;
  raw_reasoningEffort : JsVal;
  raw_skipPermissions : JsVal;
  raw_enableTracing : JsVal
}.

(** [parsed.data], with the types [initialize] reads its fields at: the
    model a string or undefined, the reasoning effort one of the strings
    of [DroidReasoningEffort] or undefined, the two flags booleans. *)
Record DroidConfigData : Type := {
  data_model : option (list N);
  data_reasoningEffort : option (list N);
  data_skipPermissions : bool;
  data_enableTracing : bool
}.

(** A [DroidAgentPlugin] object: the part [BaseAgentPlugin] owns, the
    descriptor and the four private fields; [warnings] are the lines
    written with [console.warn]. *)
Record DroidAgentPlugin (B : Type) : Type := {
  base : B;
  meta : AgentPluginMeta;
  model : option (list N);
  reasoningEffort : option (list N);
  skipPermissions : bool;
  enableTracing : bool;
  warnings : list (list N)
}.
Arguments base {B} _.
Arguments meta {B} _.
Arguments model {B} _.
Arguments reasoningEffort {B} _.
Arguments skipPermissions {B} _.
Arguments enableTracing {B} _.
Arguments warnings {B} _.

(** [this.meta.supportsSubagentTracing = b]. *)
Definition set_supportsSubagentTracing (b : bool) (m : AgentPluginMeta) : AgentPluginMeta :=
  {| id := id m; name := name m; description := description m;
     version := version m; author := author m;
     defaultCommand := defaultCommand m;
     supportsStreaming := supportsStreaming m;
     supportsInterrupt := supportsInterrupt m;
     supportsFileContext := supportsFileContext m;
     supportsSubagentTracing := b;
     structuredOutputFormat := structuredOutputFormat m |}.

(** [config.key], [undefined] for a key the record does not have. *)
Definition prop (config : gmap (list N) JsVal) (key : string) : JsVal :=
  default JUndefined (config !! js key).

(** The fields of [AgentExecuteOptions] that [buildArgs] reads. *)
Record AgentExecuteOptions : Type := {
  cwd : option (list N);
  subagentTracing : option bool
}.

(** The argument of [buildDroidCommandArgs]. *)
Record DroidCommandArgs : Type := {
  arg_prompt : list N;
  arg_cwd : list N;
  arg_model : option (list N);
  arg_reasoningEffort : option (list N);
  arg_skipPermissions : bool;
  arg_enableTracing : bool
}.

(** A non-empty string is the only truthy [string | undefined]. *)
Definition nonempty (s : option (list N)) : bool :=
  match s with
  | Some (_ :: _) => true
  | _ => false
  end.

Section DroidPlugin.

(** What [index.ts] imports and the sources do not hold: the state and the
    [initialize] of [BaseAgentPlugin] (on the state of the base class
    alone), the validation of [DroidAgentConfigSchema], the default
    command, the command builder, and the working directory of the
    process. *)
Context {B : Type}.
Variable base_initialize : gmap (list N) JsVal → B → outcome B.
Variable safeParse : DroidRawConfig → option DroidConfigData.
Variable DROID_DEFAULT_COMMAND : list N.
Variable buildDroidCommandArgs : DroidCommandArgs → list (list N).
Variable process_cwd : list N.

(** The field initialisers of the class. *)
Definition droid_meta : AgentPluginMeta :=
  {| id := js "droid";
     name := js "Factory Droid";
     description := js "Factory Droid AI coding assistant CLI";
     version := js "1.0.0";
     author := js "Factory";
     defaultCommand := DROID_DEFAULT_COMMAND;
     supportsStreaming := true;
     supportsInterrupt := true;
     supportsFileContext := false;
     supportsSubagentTracing := true;
     structuredOutputFormat := Some (js "jsonl") |}.

(** [new DroidAgentPlugin()], over a base-class state [b]. *)
Definition new_plugin (b : B) : DroidAgentPlugin B :=
  {| base := b; meta := droid_meta; model := None; reasoningEffort := None;
     skipPermissions := false; enableTracing := true; warnings := [] |}.

(** [initialize], after the validation succeeded with [data]. *)
Definition apply_config (data : DroidConfigData) (self : DroidAgentPlugin B)
    : DroidAgentPlugin B :=
  {| base := base self;
     meta := if negb (data_enableTracing data)
             then set_supportsSubagentTracing false (meta self)
             else meta self;
     model := if nonempty (data_model data) then data_model data else model self;
     reasoningEffort :=
       if nonempty (data_reasoningEffort data)
       then data_reasoningEffort data else reasoningEffort self;
     skipPermissions := data_skipPermissions data;
     enableTracing := data_enableTracing data;
     warnings :=
       if data_skipPermissions data
       then warnings self
            ++ [js "[droid] Skip permissions mode enabled; running with --skip-permissions-unsafe"]
       else warnings self |}.

(** [DroidAgentPlugin.initialize]. *)
Definition initialize (config : gmap (list N) JsVal) (self : DroidAgentPlugin B)
    : outcome (DroidAgentPlugin B) :=
  match base_initialize config (base self) with
  | Rejected reason => Rejected reason
  | Resolved b =>
      let self :=
        {| base := b; meta := meta self; model := model self;
           reasoningEffort := reasoningEffort self;
           skipPermissions := skipPermissions self;
           enableTracing := enableTracing self; warnings := warnings self |} in
      match safeParse {| raw_model := prop config "model";
                         raw_reasoningEffort := prop config "reasoningEffort";
                         raw_skipPermissions := prop config "skipPermissions";
                         raw_enableTracing := prop config "enableTracing" |} with
      | None => Resolved self
      | Some data => Resolved (apply_config data self)
      end
  end.

(** [DroidAgentPlugin.buildArgs]; the file context is not used, and the
    object is only read. *)
Definition buildArgs (prompt : list N) (options : option AgentExecuteOptions)
    (self : DroidAgentPlugin B) : list (list N) :=
  buildDroidCommandArgs
    {| arg_prompt := prompt;
       arg_cwd := default process_cwd (options ≫= cwd);
       arg_model := model self;
       arg_reasoningEffort := reasoningEffort self;
       arg_skipPermissions := skipPermissions self;
       arg_enableTracing :=
         enableTracing self
         && bool_decide (options ≫= subagentTracing = Some true) |}.

End DroidPlugin.

(** The fields of [config] that [initialize] validates. *)
Definition config_fields (config : gmap (list N) JsVal) : DroidRawConfig :=
  {| raw_model := prop config "model";
     raw_reasoningEffort := prop config "reasoningEffort";
     raw_skipPermissions := prop config "skipPermissions";
     raw_enableTracing := prop config "enableTracing" |}.

(** Two descriptors that differ at most in [supportsSubagentTracing]. *)
Definition same_but_tracing (m m' : AgentPluginMeta) : Prop :=
  set_supportsSubagentTracing true m' = set_supportsSubagentTracing true m.

(** An instance for the examples: a base class whose [initialize] keeps the
    configuration, and a schema with an optional string, an optional
    effort among 'low', 'medium' and 'high', and two optional booleans
    that default to [false] and [true]. *)
Definition example_base_initialize (config : gmap (list N) JsVal)
    (b : gmap (list N) JsVal) : outcome (gmap (list N) JsVal) :=
  Resolved config.

Definition example_safeParse (raw : DroidRawConfig) : option DroidConfigData :=
  m ← match raw_model raw with
      | JUndefined => Some None
      | JString s => Some (Some s)
      | _ => None
      end;
  r ← match raw_reasoningEffort raw with
      | JUndefined => Some None
      | JString s =>
          if bool_decide (s ∈ [js "low"; js "medium"; js "high"])
          then Some (Some s) else None
      | _ => None
      end;
  s ← match raw_skipPermissions raw with
      | JUndefined => Some false
      | JBool b => Some b
      | _ => None
      end;
  t ← match raw_enableTracing raw with
      | JUndefined => Some true
      | JBool b => Some b
      | _ => None
      end;
  Some {| data_model := m; data_reasoningEffort := r;
          data_skipPermissions := s; data_enableTracing := t |}.

Definition example_plugin : DroidAgentPlugin (gmap (list N) JsVal) :=
  new_plugin (js "droid") ∅.

(** [{ enableTracing: false }] and [{ model: 42 }]. *)
Definition tracing_off : gmap (list N) JsVal := {[ js "enableTracing" := JBool false ]}.
Definition model_42 : gmap (list N) JsVal := {[ js "model" := JNumber 42 ]}.

(** The prompt of the agent-filtering tests, from a given agent. *)
Definition prompt_from (agent : string) : PermissionDenialInput :=
  {| stdout := js "Claude wants to run: git push"; stderr := None;
     exitCode := None; agentId := Some (js agent) |}.

(** The cases of [tests/engine/permission-denial-detector.test.ts] that
    give stdout only: the output, and the expected [isBlocked] and, where
    the test checks it, [operation]. *)
Definition test_cases : list (list N * bool * option (list N)) := [
  (js "Claude wants to run: git commit -m " ++ [dquote] ++ js "test" ++ [dquote],
   true, Some (js "bash command"));
  (js "Claude wants to execute: npm install lodash", true, Some (js "bash command"));
  (js "Claude wants to write to: /path/to/file.ts", true, Some (js "file modification"));
  (js "Claude wants to create: /path/to/new-file.ts", true, Some (js "file modification"));
  (js "Claude wants to modify: /path/to/existing.ts", true, Some (js "file modification"));
  (js "Claude wants to edit: /path/to/file.ts", true, Some (js "file edit"));
  (js "waiting for permission before executing", true, Some (js "operation"));
  (js "waiting for user permission", true, None);
  (js "waiting for approval from user", true, None);
  (js "This operation requires user confirmation", true, Some (js "user confirmation"));
  (js "This action requires input from the user", true, None);
  (js "Press [Y] to continue or [N] to cancel", true, Some (js "interactive prompt"));
  (js "Type enter to proceed", true, Some (js "interactive prompt"));
  (js "press y to confirm", true, None);
  ([123; dquote] ++ js "type" ++ [dquote] ++ js ": " ++ [dquote] ++ js "permission"
   ++ [dquote] ++ js ", " ++ [dquote] ++ js "action" ++ [dquote] ++ js ": "
   ++ [dquote] ++ js "write" ++ [dquote; 125],
   true, Some (js "permission request"));
  (js "Running tests... All tests passed.", false, None);
  (js "function checkPermission() { return true; }", false, None);
  ([], false, None);
  (js "git status: On branch main, nothing to commit", false, None);
  (js "The agent was waiting for permission earlier", false, None);
  (js "The processes were waiting for permission to proceed", false, None);
  (js "It had been waiting for approval before timing out", false, None);
  (js "The process was waiting for input when it crashed", false, None);
  (js "I noticed that Claude wants to run commands often", false, None);
  (js "The user said " ++ [dquote] ++ js "Claude wants to run" ++ [dquote]
   ++ js " but that was just an example", false, None);
  (js "Process is waiting for input", true, Some (js "blocked operation"));
  (js "awaiting response from user", true, None);
  (js "Execution paused for confirmation", true, None)
].

Definition passes (case : list N * bool * option (list N)) : bool :=
  let '(out, blocked, op) := case in
  let res := (detect (on_stdout out) ∅).1 in
  bool_decide (isBlocked res = blocked)
  && match op with
     | Some name => bool_decide (operation res = Some name)
     | None => true
     end.

(** * More of the detector: notions for further properties *)

(** The text is empty or starts with a line terminator. *)
Abbreviation line_end s :=
  (match s with ch :: _ => is_line_terminator ch = true | [] => True end).

(** The text is empty or ends with a line terminator: what follows it is
    at the start of a line. *)
Definition line_start_after (pre : list N) : Prop :=
  match rev pre with
  | ch :: _ => is_line_terminator ch = true
  | [] => True
  end.

(** What [[:\s]] accepts. *)
Definition colon_or_white (c : N) : bool := (c =? chr ":") || is_space c.

(** The operations of the rules that capture a command or a path. *)
Definition command_operations : list (list N) :=
  [js "bash command"; js "file modification"; js "file edit"].

(** An output whose second line asks to write a file, after a log line. *)
Definition write_prompt_input : PermissionDenialInput :=
  {| stdout := js "Working on it...";
     stderr := Some (js "claude WANTS to create:   src/new file.ts  " ++ [10]
                     ++ js "(waiting)");
     exitCode := Some 0%Z; agentId := Some (js "claude-code") |}.

(** A prompt on the last line of stderr, in capitals, after other output. *)
Definition stderr_prompt_input : PermissionDenialInput :=
  {| stdout := js "Compiling..." ++ [10] ++ js "done";
     stderr := Some (js "warning: x" ++ [13; 10] ++ js "CLAUDE WANTS TO RUN :: rm -rf build");
     exitCode := Some 1%Z; agentId := None |}.

(** The text has a character that is not white space. *)
Definition has_ink (l : list N) : Prop := ∃ c, c ∈ l ∧ is_space c = false.

(** [reach] over a text that has such a character. *)
Definition reach_ink (d : direction) (x y : mstate) : Prop :=
  match d with
  | Forward => ∃ l, after x = l ++ after y ∧ before y = rev l ++ before x ∧ has_ink l
  | Backward => ∃ l, before x = l ++ before y ∧ after y = rev l ++ after x ∧ has_ink l
  end.

(** A blocked output of many lines and tabs. *)
Definition ragged_input : PermissionDenialInput :=
  on_stdout (js "step 1" ++ [9; 9] ++ js "ok" ++ [13; 10; 10]
             ++ js "   Process   is" ++ [9] ++ js "awaiting response" ++ [10; 10]
             ++ js "  ...").

(** Every match of the pattern starts by reading a word character
    (forwards): a sufficient syntactic test. *)
Fixpoint starts_word (r : regex) : bool :=
  match r with
  | Lit c => is_word c
  | Seq a _ => starts_word a
  | Alt a b => starts_word a && starts_word b
  | Cap _ a => starts_word a
  | _ => false
  end.

(** The pattern is made of negative look-behinds only. *)
Fixpoint only_lookbehinds (r : regex) : bool :=
  match r with
  | NotBehind _ => true
  | Seq a b => only_lookbehinds a && only_lookbehinds b
  | _ => false
  end.

(** The pattern is look-behinds, then [\b], then a pattern that starts
    with a word character: a match cannot start inside a word. *)
Fixpoint starts_at_boundary (r : regex) : bool :=
  match r with
  | Seq WordBoundary rest => starts_word rest
  | Seq a rest => only_lookbehinds a && starts_at_boundary rest
  | _ => false
  end.

(** Every match of the pattern ends by reading a word character. *)
Fixpoint ends_word (r : regex) : bool :=
  match r with
  | Lit c => is_word c
  | Seq a Eps => ends_word a
  | Seq _ b => ends_word b
  | Alt a b => ends_word a && ends_word b
  | Cap _ a => ends_word a
  | _ => false
  end.

(** The pattern ends with a pattern that reads a word character last,
    then [\b]: a match cannot end inside a word. *)
Fixpoint ends_at_boundary (r : regex) : bool :=
  match r with
  | Seq a WordBoundary => ends_word a
  | Seq _ rest => ends_at_boundary rest
  | _ => false
  end.

(** The rules written with [\b] on both sides: the waiting rules and the
    sixth primary rule ('requires ... input/confirmation/approval'). *)
Definition whole_word_rules : list RegExp :=
  waiting_rules ++ (pattern <$> take 1 (drop 5 PERMISSION_PATTERNS)).

(** The text does not end, or does not start, with a word character. *)
Abbreviation no_word_last pre :=
  (match rev pre with c :: _ => is_word c = false | [] => True end).
Abbreviation no_word_first post :=
  (match post with c :: _ => is_word c = false | [] => True end).

(** Position [i] of [out] comes right after 'previously' or 'already', in
    any letter case, and one white-space character. *)
Definition previously_before (out : list N) (i : nat) : Prop :=
  ∃ pre aux ws,
    take i out = pre ++ aux ++ [ws]
    ∧ is_space ws = true
    ∧ (Forall2 eq_ci aux (js "previously") ∨ Forall2 eq_ci aux (js "already")).

(** An output with a requirement told as past, then a present one. *)
Definition requires_input : PermissionDenialInput :=
  on_stdout (js "It already requires approval, and now step 2 requires approval.").

(** ** Letter case *)

(** Two texts that are the same up to the case of their ASCII letters. *)
Abbreviation same_ci := (Forall2 eq_ci).

(** Two matcher states over such texts, at the same position. *)
Definition sim (x x' : mstate) : Prop :=
  same_ci (before x) (before x') ∧ same_ci (after x) (after x')
  ∧ ∀ n, option_Forall2 same_ci (caps x !! n) (caps x' !! n).

Definition osim : option mstate → option mstate → Prop := option_Forall2 sim.

Definition ksim (k k' : mstate → option mstate) : Prop :=
  ∀ y y', sim y y' → osim (k y) (k' y').

(** Two match arrays with the same index and the same texts up to case. *)
Definition array_ci (a a' : MatchArray) : Prop :=
  m_index a = m_index a'
  ∧ Forall2 (option_Forall2 same_ci) (m_items a) (m_items a').

(** Two results that agree up to the case of the texts they quote. *)
Definition result_ci (r r' : PermissionDenialResult) : Prop :=
  isBlocked r = isBlocked r' ∧ operation r = operation r'
  ∧ option_Forall2 same_ci (message r) (message r')
  ∧ option_Forall2 same_ci (blockedCommand r) (blockedCommand r').

(** The prompt of the agent-filtering tests in another letter case. *)
Definition shouted_prompt : PermissionDenialInput :=
  {| stdout := js "CLAUDE WANTS TO RUN: Git Push"; stderr := Some [];
     exitCode := Some 1%Z; agentId := Some (js "Claude-Code") |}.

(** ** Prompts and waits that are always detected *)

(** The verbs of the three prompt rules, each with the index of its rule
    in [PERMISSION_PATTERNS], which is the index of its operation in
    [command_operations]. *)
Definition prompt_verbs : list (list N * nat) :=
  [(js "run", 0%nat); (js "execute", 0%nat);
   (js "write", 1%nat); (js "create", 1%nat); (js "modify", 1%nat);
   (js "write to", 1%nat); (js "create to", 1%nat); (js "modify to", 1%nat);
   (js "edit", 2%nat)].

(** The phrases of the sixth primary rule:
    [requires? (?:user )?(?:input|confirmation|approval)]. *)
Definition requirement_phrases : list (list N) :=
  verb ← [js "require"; js "requires"];
  user ← [[]; js "user "];
  what ← [js "input"; js "confirmation"; js "approval"];
  [verb ++ js " " ++ user ++ what].

(** A requirement told in the present, after one told as past. *)
Definition present_requirement_input : PermissionDenialInput :=
  {| stdout := js "done";
     stderr := Some (js "Step 1 previously required approval; step 2 REQUIRES USER INPUT!");
     exitCode := Some 0%Z; agentId := None |}.

(** A wait told in the present, in capitals, between other lines. *)
Definition present_wait_input : PermissionDenialInput :=
  {| stdout := js "step 3/7" ++ [10] ++ js "[agent] WAITING FOR USER APPROVAL..."
               ++ [10] ++ js "idle";
     stderr := None; exitCode := None; agentId := Some (js "claude") |}.

(** ** Keywords *)

(** The pattern starts with literal characters that spell [kw], in any
    letter case. *)
Fixpoint spells (kw : list N) (r : regex) : bool :=
  match kw with
  | [] => true
  | c :: kw' =>
      match r with
      | Seq (Lit c') rest => (to_lower c' =? to_lower c) && spells kw' rest
      | _ => false
      end
  end.

(** Every match of the pattern reads one of the keywords: a sufficient
    syntactic test. *)
Fixpoint mentions (kws : list (list N)) (r : regex) : bool :=
  existsb (λ kw, spells kw r) kws
  || match r with
     | Seq a b => mentions kws a || mentions kws b
     | Alt a b => mentions kws a && mentions kws b
     | Cap _ a => mentions kws a
     | _ => false
     end.

(** Words of which every rule and every indicator needs one. *)
Definition blocking_keywords : list (list N) :=
  [js "claude wants to "; js "waiting for "; js "require"; js "type"; js "git";
   js "press"; js "hit"; js "awaiting response"; js "paused for confirmation";
   js "tool"].

(** An output of a build that mentions none of them. *)
Definition build_log_input : PermissionDenialInput :=
  {| stdout := js "Compiling 14 modules" ++ [10] ++ js "warning: unused variable x"
               ++ [10] ++ js "Permission denied (publickey), approval needed?";
     stderr := Some (js "exit 1");
     exitCode := Some 1%Z; agentId := None |}.

(** ** Inputs with the match in stderr, in a long output *)

(** A prompt that only stderr holds, and that the sixth primary rule
    matches too. *)
Definition stderr_two_rules_input : PermissionDenialInput :=
  {| stdout := js "Build finished with 2 warnings";
     stderr := Some (js "Claude wants to run: deploy, which requires approval");
     exitCode := Some 1%Z; agentId := Some (js "claude-code") |}.

(** A wait in the middle of a long output: more than 20 characters before
    it and more than 80 after it, with tabs and line breaks around. *)
Definition wait_in_long_output : PermissionDenialInput :=
  {| stdout := js "[12:00:01] compiling module alpha" ++ [10]
               ++ js "[12:00:02]" ++ [9] ++ js "linking";
     stderr := Some (js "agent:   waiting for permission" ++ [9; 9]
                     ++ js "(tool=deploy)" ++ [13; 10]
                     ++ js "hint: answer in the terminal that started the run, "
                     ++ js "or stop the run and start it again with other options");
     exitCode := None; agentId := None |}.

(** A prompt with a command of 70 characters on the second line. *)
Definition long_prompt_in_output : PermissionDenialInput :=
  on_stdout (js "Reading the repository, 214 files found." ++ [10]
             ++ js "Claude wants to run: " ++ repeat (chr "x") 70 ++ [10]
             ++ js "The command above was proposed by the planning step of the task."
             ++ [10] ++ js "Nothing has been executed yet.").

(** ** Outputs whose waits are all in the past tense *)

(** The phrase occurs in [out] at position [i], in any letter case. *)
Definition occurs_ci (phrase out : list N) (i : nat) : Prop :=
  ∃ pre m0 post, out = pre ++ m0 ++ post ∧ length pre = i ∧ Forall2 eq_ci m0 phrase.

(** The patterns of the two tables without the past-tense exclusion: the
    primary rules but the fourth, and the last indicator. *)
Definition other_rules : list RegExp :=
  (pattern <$> (take 3 PERMISSION_PATTERNS ++ drop 4 PERMISSION_PATTERNS))
  ++ drop 3 BLOCKED_INDICATORS.

(** The same notions as tests: the phrase at position [i], a past-tense
    auxiliary and one white-space character right before position [i], and
    an output in which every occurrence of a waiting phrase has one. *)
Definition occurs_b (phrase out : list N) (i : nat) : bool :=
  starts_with (toLowerCase phrase) (toLowerCase (drop i out)).

Definition past_b (out : list N) (i : nat) : bool :=
  match rev (take i out) with
  | ws :: rest =>
      is_space ws
      && existsb (λ w, starts_with (rev (toLowerCase w)) (toLowerCase rest))
           [js "was"; js "were"; js "been"]
  | [] => false
  end.

Definition only_past_waits (out : list N) : bool :=
  forallb (λ phrase,
             forallb (λ i, implb (occurs_b phrase out i) (past_b out i))
                     (seq 0 (S (length out))))
          waiting_phrases.

(** The past-tense sentences of the tests, one on each line of stderr. *)
Definition past_narration_input : PermissionDenialInput :=
  {| stdout := js "Summary of the last run";
     stderr := Some (js "The agent was waiting for permission earlier" ++ [10]
                     ++ js "The processes WERE waiting for permission to proceed" ++ [10]
                     ++ js "It had been" ++ [9] ++ js "waiting for approval before timing out"
                     ++ [10] ++ js "The process was waiting for input when it crashed");
     exitCode := Some 0%Z; agentId := None |}.

(** ** Runs of the Droid plugin *)

Section DroidRuns.

Context {B : Type}.
Variable base_initialize : gmap (list N) JsVal → B → outcome B.
Variable safeParse : DroidRawConfig → option DroidConfigData.

(** [initialize] awaited with each configuration of a list in turn, on
    the same object; the first rejection ends the run. *)
Fixpoint initialize_all (configs : list (gmap (list N) JsVal))
    (self : DroidAgentPlugin B) : outcome (DroidAgentPlugin B) :=
  match configs with
  | [] => Resolved self
  | config :: rest =>
      match initialize base_initialize safeParse config self with
      | Rejected reason => Rejected reason
      | Resolved self' => initialize_all rest self'
      end
  end.

End DroidRuns.

(** The line that [initialize] writes with [console.warn]. *)
Definition skip_permissions_warning : list N :=
  js "[droid] Skip permissions mode enabled; running with --skip-permissions-unsafe".

(** Configurations for the examples. *)
Definition tracing_on : gmap (list N) JsVal := {[ js "enableTracing" := JBool true ]}.
Definition skip_on : gmap (list N) JsVal := {[ js "skipPermissions" := JBool true ]}.
Definition model_opus : gmap (list N) JsVal :=
  {[ js "model" := JString (js "opus"); js "reasoningEffort" := JString (js "high") ]}.
Definition model_empty : gmap (list N) JsVal := {[ js "model" := JString [] ]}.

(** The example plugin after [initialize] with [tracing_off], and after
    [initialize] with [model_opus]. *)
Definition untraced_plugin : DroidAgentPlugin (gmap (list N) JsVal) :=
  {| base := tracing_off;
     meta := set_supportsSubagentTracing false (droid_meta (js "droid"));
     model := None; reasoningEffort := None; skipPermissions := false;
     enableTracing := false; warnings := [] |}.

Definition opus_plugin : DroidAgentPlugin (gmap (list N) JsVal) :=
  {| base := model_opus; meta := droid_meta (js "droid");
     model := Some (js "opus"); reasoningEffort := Some (js "high");
     skipPermissions := false; enableTracing := true; warnings := [] |}.

(** A command builder for the examples: the options the argument sets,
    then the prompt. *)
Definition example_builder (args : DroidCommandArgs) : list (list N) :=
  [js "exec"; js "--cwd"; arg_cwd args]
  ++ from_option (λ m, [js "--model"; m]) [] (arg_model args)
  ++ from_option (λ r, [js "--reasoning-effort"; r]) [] (arg_reasoningEffort args)
  ++ (if arg_skipPermissions args then [js "--skip-permissions-unsafe"] else [])
  ++ (if arg_enableTracing args then [js "--output-format"; js "stream-json"] else [])
  ++ [arg_prompt args].

(** Options that ask for subagent tracing. *)
Definition tracing_options : AgentExecuteOptions :=
  {| cwd := Some (js "/work"); subagentTracing := Some true |}.

(** * The dialogs of the interface *)

(** ** BlockedTaskDialog *)

Record OperationContext : Type := {
  why : list N;
  affects : list N
}.

(** [getOperationContext].  The labels of the [switch] are ASCII and hold
    no [k], the only ASCII letter that a code unit outside ASCII
    lower-cases to, so the ASCII [toLowerCase] decides every comparison as
    the source does. *)
Definition getOperationContext (operation : list N) : OperationContext :=
  let op := toLowerCase operation in
  if bool_decide (op = js "bash command") then
    {| why := js "Claude Code needs to run a shell command to complete this task.";
       affects := js "This command will execute in your terminal with your permissions." |}
  else if bool_decide (op = js "file modification") then
    {| why := js "Claude Code needs to create or modify a file to complete this task.";
       affects := js "This will write changes to your filesystem." |}
  else if bool_decide (op = js "file edit") then
    {| why := js "Claude Code needs to edit an existing file to complete this task.";
       affects := js "This will modify the contents of the specified file." |}
  else if bool_decide (op = js "git operation") then
    {| why := js "Claude Code needs to perform a git operation to complete this task.";
       affects := js "This may modify your git history or push changes to a remote." |}
  else if bool_decide (op = js "permission request")
          || bool_decide (op = js "user confirmation") then
    {| why := js "Claude Code needs your approval before proceeding.";
       affects := js "Review the operation details before allowing it to continue." |}
  else if bool_decide (op = js "interactive prompt") then
    {| why := js "Claude Code encountered an interactive prompt requiring input.";
       affects := js "The operation is waiting for user input to proceed." |}
  else
    {| why := js "Claude Code needs permission to perform an operation.";
       affects := js "Review the details below before proceeding." |}.

(** The [default] branch of the [switch]. *)
Definition default_context : OperationContext :=
  {| why := js "Claude Code needs permission to perform an operation.";
     affects := js "Review the details below before proceeding." |}.

(** ** AlternativeApproachInput *)

(** The argument of the keyboard handler. *)
Record KeyEvent : Type := {
  key_name : list N;
  sequence : option (list N)
}.

(** The arguments [handleKeypress] gives to [setInputValue]: a value, or
    one of its two updater functions. *)
Inductive StateUpdate : Type :=
| SetTo (v : list N)          (* setInputValue(v) *)
| DropLast                    (* setInputValue((prev) => prev.slice(0, -1)) *)
| Append (s : list N).        (* setInputValue((prev) => prev + s) *)

(** What [handleKeypress] calls. *)
Inductive Call : Type :=
| SetInputValue (u : StateUpdate)
| OnSubmit (alternative : list N)
| OnCancel.

(** [handleKeypress], as the closure over [visible] and [inputValue] of
    one render: the calls it makes, in order. *)
Definition handleKeypress (visible : bool) (inputValue : list N) (key : KeyEvent)
    : list Call :=
  if negb visible then []
  else if bool_decide (key_name key = js "escape") then
    [SetInputValue (SetTo []); OnCancel]
  else if bool_decide (key_name key = js "return")
          || bool_decide (key_name key = js "enter") then
    let trimmed := trim inputValue in
    if (0 <? length trimmed)%nat
    then [OnSubmit trimmed; SetInputValue (SetTo [])]
    else []
  else if bool_decide (key_name key = js "backspace") then
    [SetInputValue DropLast]
  else
    match sequence key with
    | Some (c :: t) =>
        if (length (c :: t) =? 1)%nat
           && negb (bool_decide (key_name key = js "backspace"))
        then [SetInputValue (Append (c :: t))]
        else []
    | _ => []
    end.

(** The state after an update, as React computes it. *)
Definition apply_update (u : StateUpdate) (prev : list N) : list N :=
  match u with
  | SetTo v => v
  | DropLast => slice prev 0 (-1)
  | Append s => prev ++ s
  end.

Definition next_state (calls : list Call) (state : list N) : list N :=
  foldl (λ st c, match c with SetInputValue u => apply_update u st | _ => st end)
        state calls.

Definition callbacks (calls : list Call) : list Call :=
  List.filter (λ c, match c with SetInputValue _ => false | _ => true end) calls.

(** A key that types one code unit: a sequence of length one under a name
    that is none of the keys the handler treats apart. *)
Definition char_key (key : KeyEvent) : bool :=
  bool_decide (key_name key ∉ [js "escape"; js "return"; js "enter"; js "backspace"])
  && match sequence key with
     | Some [_] => true
     | _ => false
     end.

(** What a list of keys types. *)
Definition typed (keys : list KeyEvent) : list N :=
  concat ((λ key, default [] (sequence key)) <$> keys).

(** The text ends with a character that is not white space, or is empty. *)
Abbreviation ink_last s := (ink_first (rev s)).

(** The keys of the examples. *)
Definition key_of (name : string) (c : string) : KeyEvent :=
  {| key_name := js name; sequence := Some (js c) |}.

Definition return_key : KeyEvent := {| key_name := js "return"; sequence := Some [13] |}.

Definition keys_ls : list KeyEvent :=
  [key_of "space" " "; key_of "l" "l"; key_of "s" "s"; key_of "space" " ";
   key_of "-" "-"; key_of "a" "a"; {| key_name := js "tab"; sequence := Some [9] |}].

(** The component between two events: the [inputValue] of the last
    committed render, which is what the closure of the registered handler
    holds (the dependencies of [useCallback]); the state as the updates
    queued since then leave it; and the calls of [onSubmit] and [onCancel]
    so far. *)
Record InputState : Type := {
  rendered : list N;
  state : list N;
  called : list Call
}.

(** What happens to the component: a key reaches the handler, or the
    component renders again with the current state. *)
Inductive Event : Type :=
| Key (key : KeyEvent)
| Render.

(** A key handled by the handler of the last render: its calls of
    [setInputValue] update the state in order, its other calls are
    recorded. *)
Definition press (visible : bool) (st : InputState) (key : KeyEvent) : InputState :=
  let calls := handleKeypress visible (rendered st) key in
  {| rendered := rendered st;
     state := next_state calls (state st);
     called := called st ++ callbacks calls |}.

Definition render (st : InputState) : InputState :=
  {| rendered := state st; state := state st; called := called st |}.

Definition step (visible : bool) (st : InputState) (ev : Event) : InputState :=
  match ev with
  | Key key => press visible st key
  | Render => render st
  end.

Definition play (visible : bool) (st : InputState) (evs : list Event) : InputState :=
  foldl (step visible) st evs.

(** The keys among the events, in order. *)
Definition keys_of (evs : list Event) : list KeyEvent :=
  omap (λ ev, match ev with Key key => Some key | Render => None end) evs.

(** A component that has just rendered with the value [v]. *)
Definition showing (v : list N) : InputState :=
  {| rendered := v; state := v; called := [] |}.

(** The keys of the examples, with a render after the second. *)
Definition typing_ls : list Event :=
  (Key <$> take 2 keys_ls) ++ [Render] ++ (Key <$> drop 2 keys_ls).

(** ** LeftPanel *)

(** What the scroll box of the panel holds: the placeholder, or one row
    for each task with its [isSelected]. *)
Inductive PanelBody (T : Type) : Type :=
| NoTasks
| TaskRows (rows : list (T * bool)).
Arguments NoTasks {T}.
Arguments TaskRows {T} rows.

(** The body of [LeftPanel]; [selectedIndex] is an integer (any other
    number is equal to no index, like an integer out of range). *)
Definition LeftPanel {T : Type} (tasks : list T) (selectedIndex : Z) : PanelBody T :=
  if (length tasks =? 0)%nat then NoTasks
  else TaskRows (imap (λ index task, (task, bool_decide (Z.of_nat index = selectedIndex)))
                      tasks).

Definition panel_rows {T : Type} (body : PanelBody T) : list (T * bool) :=
  match body with
  | NoTasks => []
  | TaskRows rows => rows
  end.

(** * Properties of the matcher *)

Section Matcher.

Variable fl : reflags.

Lemma reach_refl d x : reach d x x.
Proof. destruct d; exists []; auto. Qed.

Lemma reach_trans d x y z : reach d x y → reach d y z → reach d x z.
Proof.
  destruct d; intros [l [H1 H2]] [l' [H3 H4]]; exists (l ++ l');
    rewrite H1, H3, H4, H2, rev_app_distr, <- !app_assoc; auto.
Qed.

Lemma reach_advance d x c y : advance d x = Some (c, y) → reach d x y.
Proof.
  destruct d; unfold advance; intros H.
  - destruct (after x) as [|c' r] eqn:E; [discriminate|].
    inversion H; subst; clear H. exists [c]. simpl. rewrite E. auto.
  - destruct (before x) as [|c' r] eqn:E; [discriminate|].
    inversion H; subst; clear H. exists [c]. simpl. rewrite E. auto.
Qed.

Lemma reach_subject d x y : reach d x y → subject y = subject x.
Proof.
  unfold subject.
  destruct d; intros [l [H1 H2]]; rewrite H1, H2.
  - rewrite rev_app_distr, rev_involutive, <- app_assoc. reflexivity.
  - rewrite rev_app_distr, <- app_assoc. reflexivity.
Qed.

Lemma reach_remaining d x y : reach d x y → (remaining d y ≤ remaining d x)%nat.
Proof.
  destruct d; intros [l [H1 H2]]; simpl; rewrite H1, length_app; lia.
Qed.

Lemma reach_moved d x y :
  reach d x y → pos y ≠ pos x → (remaining d y < remaining d x)%nat.
Proof.
  unfold pos.
  destruct d; intros [l [H1 H2]] Hne; simpl; rewrite H1, length_app.
  - rewrite H2, length_app, length_rev in Hne. lia.
  - rewrite H1, length_app in Hne. lia.
Qed.

Lemma remaining_subject d x : (remaining d x ≤ length (subject x))%nat.
Proof.
  unfold subject. rewrite length_app, length_rev. destruct d; simpl; lia.
Qed.

Lemma match_char_local ok d : local_matcher d (match_char ok d).
Proof.
  intros x k k' H. unfold match_char.
  destruct (advance d x) as [[c y]|] eqn:E; [|reflexivity].
  destruct (ok c); [|reflexivity]. apply H. eapply reach_advance; eauto.
Qed.

Lemma repeat_matcher_local d ma inner greedy fuel :
  local_matcher d ma →
  ∀ min max x k k', (∀ y, reach d x y → k y = k' y) →
    repeat_matcher ma inner greedy k fuel min max x
    = repeat_matcher ma inner greedy k' fuel min max x.
Proof.
  intros Hma. induction fuel as [|fuel IH]; intros min max x k k' H; [reflexivity|].
  simpl.
  assert (Hx : k x = k' x) by (apply H, reach_refl).
  assert (Hbody :
    ma (clear_caps inner x)
      (λ y, if (min =? 0)%nat && (pos y =? pos x)%nat then None
            else repeat_matcher ma inner greedy k fuel (Nat.pred min) (Nat.pred <$> max) y)
    = ma (clear_caps inner x)
      (λ y, if (min =? 0)%nat && (pos y =? pos x)%nat then None
            else repeat_matcher ma inner greedy k' fuel (Nat.pred min) (Nat.pred <$> max) y)).
  { apply Hma. intros y Hy.
    destruct ((min =? 0)%nat && (pos y =? pos x)%nat); [reflexivity|].
    apply IH. intros z Hz. apply H. eapply reach_trans; [exact Hy | exact Hz]. }
  destruct max as [[|m]|]; [exact Hx | |]; rewrite Hbody, Hx; reflexivity.
Qed.

Lemma matcher_local r : ∀ d, local_matcher d (matcher fl r d).
Proof.
  induction r as [ | c | | inv items | a IHa b IHb | a IHa b IHb
                 | min max greedy a IHa | n a IHa | | | a IHa ];
    intros d x k k' H; simpl.
  - apply H, reach_refl.
  - apply match_char_local, H.
  - apply match_char_local, H.
  - apply match_char_local, H.
  - destruct d.
    + apply IHa. intros y Hy. apply IHb. intros z Hz. apply H.
      eapply reach_trans; eauto.
    + apply IHb. intros y Hy. apply IHa. intros z Hz. apply H.
      eapply reach_trans; eauto.
  - rewrite (IHa d x k k' H), (IHb d x k k' H). reflexivity.
  - apply repeat_matcher_local with (d := d); [apply IHa | exact H].
  - apply IHa. intros y Hy. apply H. exact Hy.
  - destruct (at_line_start fl x); [apply H, reach_refl | reflexivity].
  - destruct (at_word_boundary x); [apply H, reach_refl | reflexivity].
  - destruct (matcher fl a Backward x Some); [reflexivity | apply H, reach_refl].
Qed.

(** The fuel of RepeatMatcher never runs out: any amount from
    [min + remaining + 1] on gives the same result. *)
Lemma repeat_fuel_irrelevant d ma inner greedy k :
  local_matcher d ma →
  ∀ fuel fuel' min max x,
    (min + remaining d x + 1 ≤ fuel)%nat →
    (min + remaining d x + 1 ≤ fuel')%nat →
    repeat_matcher ma inner greedy k fuel min max x
    = repeat_matcher ma inner greedy k fuel' min max x.
Proof.
  intros Hma. induction fuel as [|fuel IH]; intros fuel' min max x Hf Hf'; [lia|].
  destruct fuel' as [|fuel']; [lia|]. simpl.
  assert (Hbody :
    ma (clear_caps inner x)
      (λ y, if (min =? 0)%nat && (pos y =? pos x)%nat then None
            else repeat_matcher ma inner greedy k fuel (Nat.pred min) (Nat.pred <$> max) y)
    = ma (clear_caps inner x)
      (λ y, if (min =? 0)%nat && (pos y =? pos x)%nat then None
            else repeat_matcher ma inner greedy k fuel' (Nat.pred min) (Nat.pred <$> max) y)).
  { apply Hma. intros y Hy.
    destruct (min =? 0)%nat eqn:Emin; simpl.
    - apply Nat.eqb_eq in Emin. subst min.
      destruct (pos y =? pos x)%nat eqn:Epos; [reflexivity|].
      apply Nat.eqb_neq in Epos.
      pose proof (reach_moved d _ _ Hy Epos) as Hlt. simpl in Hlt.
      apply IH; simpl; change (remaining d (clear_caps inner x)) with (remaining d x) in Hlt; lia.
    - apply Nat.eqb_neq in Emin.
      pose proof (reach_remaining d _ _ Hy) as Hle.
      change (remaining d (clear_caps inner x)) with (remaining d x) in Hle.
      apply IH; lia. }
  destruct max as [[|m]|]; [reflexivity | |]; rewrite Hbody; reflexivity.
Qed.

Lemma matcher_quant_fuel min max greedy a d x k fuel :
  (min + remaining d x + 1 ≤ fuel)%nat →
  matcher fl (Quant min max greedy a) d x k
  = repeat_matcher (matcher fl a d) (groups a) greedy k fuel min max x.
Proof.
  intros Hf. simpl. apply repeat_fuel_irrelevant with (d := d).
  - apply matcher_local.
  - pose proof (remaining_subject d x). lia.
  - exact Hf.
Qed.

(** A continuation that always fails makes the match fail. *)
Lemma repeat_matcher_fails d ma inner greedy fuel :
  local_matcher d ma → (∀ x, ma x (λ _, None) = None) →
  ∀ min max x, repeat_matcher ma inner greedy (λ _, None) fuel min max x = None.
Proof.
  intros Hma Hnone. induction fuel as [|fuel IH]; intros min max x; [reflexivity|].
  simpl.
  assert (Hbody :
    ma (clear_caps inner x)
      (λ y, if (min =? 0)%nat && (pos y =? pos x)%nat then None
            else repeat_matcher ma inner greedy (λ _, None) fuel (Nat.pred min)
                   (Nat.pred <$> max) y) = None).
  { transitivity (ma (clear_caps inner x) (λ _, None)); [|apply Hnone].
    apply Hma. intros y _.
    destruct ((min =? 0)%nat && (pos y =? pos x)%nat); [reflexivity | apply IH]. }
  destruct max as [[|m]|]; [reflexivity | |]; rewrite Hbody;
    destruct (negb (min =? 0)%nat), greedy; reflexivity.
Qed.

Lemma match_char_fails ok d x : match_char ok d x (λ _, None) = None.
Proof.
  unfold match_char. destruct (advance d x) as [[c y]|]; [destruct (ok c)|]; reflexivity.
Qed.

Lemma matcher_fails_const r : ∀ d x, matcher fl r d x (λ _, None) = None.
Proof.
  induction r as [ | c | | inv items | a IHa b IHb | a IHa b IHb
                 | min max greedy a IHa | n a IHa | | | a IHa ];
    intros d x; simpl.
  - reflexivity.
  - apply match_char_fails.
  - apply match_char_fails.
  - apply match_char_fails.
  - destruct d.
    + transitivity (matcher fl a Forward x (λ _, None)); [|apply IHa].
      apply matcher_local. intros y _. apply IHb.
    + transitivity (matcher fl b Backward x (λ _, None)); [|apply IHb].
      apply matcher_local. intros y _. apply IHa.
  - rewrite IHa, IHb. reflexivity.
  - apply repeat_matcher_fails with (d := d); [apply matcher_local | apply IHa].
  - apply IHa.
  - destruct (at_line_start fl x); reflexivity.
  - destruct (at_word_boundary x); reflexivity.
  - destruct (matcher fl a Backward x Some); reflexivity.
Qed.

Lemma matcher_fails r d x k :
  (∀ y, reach d x y → k y = None) → matcher fl r d x k = None.
Proof.
  intros H. transitivity (matcher fl r d x (λ _, None));
    [apply matcher_local; exact H | apply matcher_fails_const].
Qed.

End Matcher.

(** * Where a match is *)

Lemma search_found fl r :
  ∀ aft bef i e, search fl r bef aft = Some (i, e) →
    ∃ skipped rest, aft = skipped ++ rest ∧ i = (length bef + length skipped)%nat
      ∧ match_at fl r {| before := rev skipped ++ bef; after := rest; caps := ∅ |} = Some e.
Proof.
  induction aft as [|c aft IH]; intros bef i e; simpl.
  - destruct (match_at fl r _) as [e'|] eqn:E; [|discriminate].
    intros H. inversion H; subst. exists [], []. simpl. rewrite Nat.add_0_r. auto.
  - destruct (match_at fl r _) as [e'|] eqn:E.
    + intros H. inversion H; subst. exists [], (c :: aft). simpl. rewrite Nat.add_0_r. auto.
    + intros H. apply IH in H as [skipped [rest [-> [-> H]]]].
      exists (c :: skipped), rest. simpl. rewrite <- app_assoc. simpl.
      split; [reflexivity|]. split; [lia | exact H].
Qed.

Lemma or_else_some {A} (a b : option A) e :
  or_else a b = Some e → a = Some e ∨ b = Some e.
Proof. destruct a; simpl; auto. Qed.

(** The end of a match is ahead of its start. *)
Lemma repeat_matcher_reaches d ma inner greedy k fuel :
  (∀ x k e, ma x k = Some e → ∃ y, reach d x y ∧ k y = Some e) →
  ∀ min max x e,
    repeat_matcher ma inner greedy k fuel min max x = Some e →
    ∃ y, reach d x y ∧ k y = Some e.
Proof.
  intros Hma. induction fuel as [|fuel IH]; intros min max x e; [discriminate|].
  cbn [repeat_matcher].
  assert (Hhere : k x = Some e → ∃ y, reach d x y ∧ k y = Some e).
  { intros H. exists x. split; [apply reach_refl | exact H]. }
  assert (Hbody : ∀ max',
    ma (clear_caps inner x)
      (λ y, if (min =? 0)%nat && (pos y =? pos x)%nat then None
            else repeat_matcher ma inner greedy k fuel (Nat.pred min) max' y) = Some e →
    ∃ y, reach d x y ∧ k y = Some e).
  { intros max' H. apply Hma in H as [y [Hy H]].
    destruct ((min =? 0)%nat && (pos y =? pos x)%nat); [discriminate|].
    apply IH in H as [z [Hz H]]. exists z. split; [|exact H].
    eapply reach_trans; [exact Hy | exact Hz]. }
  destruct max as [[|m]|]; [exact Hhere | |];
    (destruct (negb (min =? 0)%nat); [apply Hbody|]);
    destruct greedy; intros H; apply or_else_some in H as [H | H];
    first [exact (Hbody _ H) | exact (Hhere H)].
Qed.

Lemma matcher_reaches fl r :
  ∀ d x k e, matcher fl r d x k = Some e → ∃ y, reach d x y ∧ k y = Some e.
Proof.
  induction r as [ | c | | inv items | a IHa b IHb | a IHa b IHb
                 | min max greedy a IHa | n a IHa | | | a IHa ];
    intros d x k e; cbn [matcher];
    try (unfold match_char; destruct (advance d x) as [[ch y]|] eqn:E; [|discriminate];
         match goal with |- context [if ?b then _ else _] => destruct b end;
         [|discriminate]; intros H; exists y; split;
         [eapply reach_advance; eauto | exact H]).
  - intros H. exists x. split; [apply reach_refl | exact H].
  - destruct d; intros H.
    + apply IHa in H as [y [Hy H]]. apply IHb in H as [z [Hz H]].
      exists z. split; [eapply reach_trans; eauto | exact H].
    + apply IHb in H as [y [Hy H]]. apply IHa in H as [z [Hz H]].
      exists z. split; [eapply reach_trans; eauto | exact H].
  - unfold or_else. destruct (matcher fl a d x k) eqn:E.
    + intros H. inversion H; subst. apply IHa. exact E.
    + apply IHb.
  - apply repeat_matcher_reaches. apply IHa.
  - intros H. apply IHa in H as [y [Hy H]].
    exists (set_cap n (text_between x y) y). split; [exact Hy | exact H].
  - destruct (at_line_start fl x); [|discriminate].
    intros H. exists x. split; [apply reach_refl | exact H].
  - destruct (at_word_boundary x); [|discriminate].
    intros H. exists x. split; [apply reach_refl | exact H].
  - destruct (matcher fl a Backward x Some); [discriminate|].
    intros H. exists x. split; [apply reach_refl | exact H].
Qed.

(** A match found by [find_match]: where it starts and what it covers. *)
Lemma find_match_text R out a :
  find_match R out = Some a →
  ∃ pre m0 post, out = pre ++ m0 ++ post
    ∧ m_index a = Some (length pre) ∧ m_item a 0 = Some m0
    ∧ is_Some (match_at (re_flags R) (re_source R)
                 {| before := rev pre; after := m0 ++ post; caps := ∅ |}).
Proof.
  unfold find_match. intros H.
  destruct (search (re_flags R) (re_source R) [] out) as [[start e]|] eqn:E;
    [|discriminate].
  cbn in H. inversion H; subst a; clear H.
  apply search_found in E as [pre [rest [-> [-> Hm]]]].
  rewrite app_nil_r in Hm. cbn [length Nat.add].
  pose proof Hm as Hreach. unfold match_at in Hreach.
  apply matcher_reaches in Hreach as [y [[l [Hafter Hbefore]] Hy]].
  inversion Hy; subst y; clear Hy. cbn [before after] in *.
  exists pre, l, (after e). subst rest.
  split; [reflexivity|]. split; [reflexivity|]. split.
  - unfold m_item, match_array, pos. cbn. rewrite Hbefore.
    rewrite length_app, !length_rev.
    replace (length l + length pre - length pre)%nat with (length l) by lia.
    rewrite <- (length_rev l) at 1. rewrite take_app_length, rev_involutive.
    reflexivity.
  - rewrite Hm. eexists. reflexivity.
Qed.

(** * Matching without state *)

Lemma exec_stateless R S σ :
  stateless R = true → exec R S σ = (find_match R S, σ).
Proof.
  unfold stateless, exec, find_match, run_matcher, bind, get_lastIndex, ret.
  intros H. apply negb_true_iff in H. rewrite H.
  apply orb_false_iff in H as [_ Hy]. rewrite Hy. simpl.
  rewrite drop_0.
  destruct (search (re_flags R) (re_source R) [] S) as [[start e]|]; reflexivity.
Qed.

Lemma test_stateless R S σ :
  stateless R = true → test R S σ = (matches R S, σ).
Proof.
  intros H. unfold test, bind. rewrite (exec_stateless _ _ _ H). reflexivity.
Qed.

Lemma string_match_stateless R S σ :
  stateless R = true → string_match S R σ = (find_match R S, σ).
Proof.
  intros H. unfold string_match.
  assert (Hg : global (re_flags R) = false).
  { unfold stateless in H. apply negb_true_iff, orb_false_iff in H. tauto. }
  rewrite Hg. apply exec_stateless, H.
Qed.

Lemma extractMessage_stateless R S σ :
  stateless R = true →
  extractMessage S R σ = (message_of_match S (find_match R S), σ).
Proof.
  intros H. unfold extractMessage, bind. rewrite (string_match_stateless _ _ _ H).
  reflexivity.
Qed.

Lemma extractCommand_stateless R S σ :
  stateless R = true →
  extractCommand S R σ = (command_of_match (find_match R S), σ).
Proof.
  intros H. unfold extractCommand, bind. rewrite (string_match_stateless _ _ _ H).
  reflexivity.
Qed.

Lemma check_patterns_hit rule rest out σ :
  rule_stateless rule = true → matches (pattern rule) out = true →
  check_patterns (rule :: rest) out σ = (Some (rule_result rule out), σ).
Proof.
  intros Hs Hm. apply andb_true_iff in Hs as [Hp Hc].
  simpl. unfold bind. rewrite (test_stateless _ _ _ Hp), Hm.
  rewrite (extractMessage_stateless _ _ _ Hp).
  unfold rule_result. destruct (commandPattern rule) as [cp|]; simpl in *.
  - rewrite (extractCommand_stateless _ _ _ Hc). reflexivity.
  - reflexivity.
Qed.

Lemma check_patterns_miss rule rest out σ :
  rule_stateless rule = true → matches (pattern rule) out = false →
  check_patterns (rule :: rest) out σ = check_patterns rest out σ.
Proof.
  intros Hs Hm. apply andb_true_iff in Hs as [Hp Hc].
  simpl. unfold bind. rewrite (test_stateless _ _ _ Hp), Hm. reflexivity.
Qed.

Lemma check_indicators_hit ind rest out σ :
  stateless ind = true → matches ind out = true →
  check_indicators (ind :: rest) out σ = (Some (indicator_result ind out), σ).
Proof.
  intros Hs Hm. simpl. unfold bind. rewrite (test_stateless _ _ _ Hs), Hm.
  rewrite (extractMessage_stateless _ _ _ Hs). reflexivity.
Qed.

Lemma check_indicators_miss ind rest out σ :
  stateless ind = true → matches ind out = false →
  check_indicators (ind :: rest) out σ = check_indicators rest out σ.
Proof.
  intros Hs Hm. simpl. unfold bind. rewrite (test_stateless _ _ _ Hs), Hm. reflexivity.
Qed.

(** The first rule of a list that matches. *)
Lemma check_patterns_first rules out σ :
  forallb rule_stateless rules = true →
  check_patterns rules out σ
  = ((λ rule, rule_result rule out) <$> List.find (λ rule, matches (pattern rule) out) rules, σ).
Proof.
  induction rules as [|rule rest IH]; intros Hs; [reflexivity|].
  simpl in Hs. apply andb_true_iff in Hs as [Hr Hrest].
  destruct (matches (pattern rule) out) eqn:Hm.
  - rewrite (check_patterns_hit _ _ _ _ Hr Hm). simpl. rewrite Hm. reflexivity.
  - rewrite (check_patterns_miss _ _ _ _ Hr Hm), (IH Hrest). simpl. rewrite Hm.
    reflexivity.
Qed.

Lemma check_indicators_first inds out σ :
  forallb stateless inds = true →
  check_indicators inds out σ
  = ((λ ind, indicator_result ind out) <$> List.find (λ ind, matches ind out) inds, σ).
Proof.
  induction inds as [|ind rest IH]; intros Hs; [reflexivity|].
  simpl in Hs. apply andb_true_iff in Hs as [Hr Hrest].
  destruct (matches ind out) eqn:Hm.
  - rewrite (check_indicators_hit _ _ _ _ Hr Hm). simpl. rewrite Hm. reflexivity.
  - rewrite (check_indicators_miss _ _ _ _ Hr Hm), (IH Hrest). simpl. rewrite Hm.
    reflexivity.
Qed.

Lemma tables_stateless :
  forallb rule_stateless PERMISSION_PATTERNS = true
  ∧ forallb stateless BLOCKED_INDICATORS = true.
Proof. split; reflexivity. Qed.

Lemma classify_first_match out σ : classify out σ = (first_match_result out, σ).
Proof.
  destruct tables_stateless as [Hp Hi].
  unfold classify, bind, first_match_result.
  rewrite (check_patterns_first _ _ _ Hp).
  destruct (List.find _ PERMISSION_PATTERNS); [reflexivity|].
  cbn -[check_indicators BLOCKED_INDICATORS].
  rewrite (check_indicators_first _ _ _ Hi).
  destruct (List.find _ BLOCKED_INDICATORS); reflexivity.
Qed.

Lemma detect_run input σ : detect input σ = ((detect input ∅).1, σ).
Proof.
  unfold detect. destruct (other_agent (agentId input)); [reflexivity|].
  rewrite !classify_first_match. reflexivity.
Qed.

Lemma find_first_index {A} (f : A → bool) (l : list A) :
  ∀ i a, l !! i = Some a → f a = true →
    (∀ j b, (j < i)%nat → l !! j = Some b → f b = false) →
    List.find f l = Some a.
Proof.
  induction l as [|x l IH]; intros i a Hi Ha Hbefore; [destruct i; discriminate|].
  destruct i as [|i]; simpl in *.
  - inversion Hi; subst. rewrite Ha. reflexivity.
  - rewrite (Hbefore 0%nat x) by (lia || reflexivity).
    apply (IH i a Hi Ha). intros j b Hj Hb. apply (Hbefore (S j) b); [lia | exact Hb].
Qed.

Lemma find_none_all {A} (f : A → bool) (l : list A) :
  (∀ a, a ∈ l → f a = false) → List.find f l = None.
Proof.
  induction l as [|x l IH]; intros H; [reflexivity|]. simpl.
  rewrite (H x) by constructor. apply IH. intros a Ha. apply H. constructor. exact Ha.
Qed.

Lemma find_some_elem {A} (f : A → bool) (l : list A) a :
  a ∈ l → f a = true → ∃ b, List.find f l = Some b ∧ b ∈ l ∧ f b = true.
Proof.
  induction l as [|x l IH]; intros Hin Ha; [inversion Hin|]. simpl.
  destruct (f x) eqn:Hx.
  - exists x. split; [reflexivity|]. split; [constructor | exact Hx].
  - inversion Hin; subst; [congruence|].
    destruct (IH ltac:(assumption) Ha) as [b [Hb [Hbl Hfb]]].
    exists b. split; [exact Hb|]. split; [constructor; exact Hbl | exact Hfb].
Qed.

(** [slice] on indices that are not negative. *)
Lemma slice_nat s (a b : nat) :
  slice s (Z.of_nat a) (Z.of_nat b)
  = take (Nat.min b (length s) - Nat.min a (length s)) (drop (Nat.min a (length s)) s).
Proof.
  unfold slice, rel_index.
  replace (Z.of_nat a <? 0)%Z with false by (symmetry; apply Z.ltb_ge; lia).
  replace (Z.of_nat b <? 0)%Z with false by (symmetry; apply Z.ltb_ge; lia).
  f_equal; [|f_equal]; lia.
Qed.

Lemma slice_prefix s (n : nat) :
  (n ≤ length s)%nat → slice s 0 (Z.of_nat n) = take n s.
Proof.
  intros H. change 0%Z with (Z.of_nat 0).
  rewrite (slice_nat s 0 n). rewrite Nat.min_0_l, Nat.sub_0_r.
  rewrite (Nat.min_l n) by exact H. reflexivity.
Qed.

(** * Properties of [detect] *)

(** The model agrees with the expectations of the repository's tests. *)
Lemma test_cases_pass : forallb passes test_cases = true.
Proof. vm_compute. reflexivity. Qed.


(** C3: for the stdout [Claude wants to run: git commit -m "test"] and no
    agentId, [detect] returns isBlocked = true, operation = 'bash command'
    and blockedCommand = [git commit -m "test"]. *)
Theorem scenario_A_blocked σ :
  let res := (detect scenario_A σ).1 in
  isBlocked res = true
  ∧ operation res = Some (js "bash command")
  ∧ blockedCommand res = Some (js "git commit -m " ++ [dquote] ++ js "test" ++ [dquote]).
Proof.
  rewrite detect_run. cbv zeta. cbn [fst].
  repeat split; vm_compute; reflexivity.
Qed.

(** C1 (the code at the input of the repository's truncation tests): a
    captured command of 150 characters comes back as its first 100
    characters followed by the ellipsis, 103 characters in all. *)
Theorem long_command_is_103 σ :
  blockedCommand (detect long_command_input σ).1
  = Some (repeat (chr "a") 100 ++ js "...")
  ∧ length <$> blockedCommand (detect long_command_input σ).1 = Some 103%nat.
Proof.
  rewrite detect_run. cbn [fst]. split; vm_compute; reflexivity.
Qed.

(** Whatever the input, a returned command has at most 103 characters. *)
Lemma command_of_match_length m cmd :
  command_of_match m = Some cmd → (length cmd ≤ 103)%nat.
Proof.
  unfold command_of_match. destruct m as [a|]; [|discriminate].
  destruct (m_item a 1) as [[|c t]|]; try discriminate.
  intros H. inversion H; subst; clear H.
  destruct (100 <? length (trim (c :: t)))%nat eqn:E.
  - apply Nat.ltb_lt in E. rewrite length_app.
    change 100%Z with (Z.of_nat 100). rewrite slice_prefix by lia.
    rewrite length_take. change (length (js "...")) with 3%nat. lia.
  - apply Nat.ltb_ge in E. lia.
Qed.

(** C7: [detect] is a function of its input alone: the store of the
    [lastIndex] slots has no influence on the result, a call leaves it as
    it was, and so a call changes no later call. *)
Theorem detect_stateless input σ σ' :
  (detect input σ).1 = (detect input σ').1
  ∧ (detect input σ).2 = σ
  ∧ ∀ later, (detect later (detect input σ).2).1 = (detect later σ).1.
Proof.
  rewrite (detect_run input σ), (detect_run input σ'). cbn [fst snd].
  repeat split; reflexivity.
Qed.

(** C5, as the code has it: the rules are tried on stdout, a line feed,
    and stderr (nothing for an absent or empty stderr).  For an agent that
    is filtered out no rule is consulted and the result is not blocked.
    Otherwise the first primary rule that matches, in the order of the
    table, gives the operation; the indicators count only when no primary
    rule matched, and then the result is blocked with the operation
    'blocked operation' and no blockedCommand; with no match at all the
    result is not blocked. *)
Theorem first_matching_rule_decides input σ :
  let out := stdout input ++ [10] ++ default [] (stderr input) in
  let res := (detect input σ).1 in
  (other_agent (agentId input) = true → res = not_blocked)
  ∧ (other_agent (agentId input) = false →
     (∀ i rule, PERMISSION_PATTERNS !! i = Some rule →
        matches (pattern rule) out = true →
        (∀ j earlier, (j < i)%nat → PERMISSION_PATTERNS !! j = Some earlier →
           matches (pattern earlier) out = false) →
        isBlocked res = true ∧ operation res = Some (operationName rule))
     ∧ ((∀ rule, rule ∈ PERMISSION_PATTERNS → matches (pattern rule) out = false) →
        (∀ ind, ind ∈ BLOCKED_INDICATORS → matches ind out = true →
           isBlocked res = true
           ∧ operation res = Some (js "blocked operation")
           ∧ blockedCommand res = None)
        ∧ ((∀ ind, ind ∈ BLOCKED_INDICATORS → matches ind out = false) →
           res = not_blocked))).
Proof.
  intros out res. subst res. unfold detect.
  split; intros Hagent; rewrite Hagent; [reflexivity|].
  rewrite classify_first_match. cbn [fst].
  change (combined input) with out. unfold first_match_result.
  split.
  - intros i rule Hi Hm Hearlier.
    rewrite (find_first_index _ _ i rule Hi Hm Hearlier). split; reflexivity.
  - intros Hnone. rewrite (find_none_all _ _ Hnone). split.
    + intros ind Hin Hm.
      destruct (find_some_elem (λ ind, matches ind out) _ ind Hin Hm) as [b [Hb _]].
      rewrite Hb. repeat split; reflexivity.
    + intros Hnone'. rewrite (find_none_all _ _ Hnone'). reflexivity.
Qed.

Lemma first_matching_rule_decides_witness :
  (isBlocked (detect stderr_two_rules_input ∅).1 = true
   ∧ operation (detect stderr_two_rules_input ∅).1 = Some (js "bash command"))
  ∧ (∀ rule, rule ∈ PERMISSION_PATTERNS →
       matches (pattern rule) (stdout stderr_two_rules_input) = false)
  ∧ (∃ later, PERMISSION_PATTERNS !! 5%nat = Some later
              ∧ matches (pattern later)
                  (stdout stderr_two_rules_input ++ [10]
                   ++ default [] (stderr stderr_two_rules_input)) = true).
Proof.
  split; [|split].
  - destruct (first_matching_rule_decides stderr_two_rules_input ∅) as [_ H].
    destruct (H eq_refl) as [Hfirst _].
    apply (Hfirst 0%nat _ eq_refl); [vm_compute; reflexivity | intros j earlier Hj; lia].
  - intros rule Hin. unfold PERMISSION_PATTERNS in Hin.
    rewrite list_elem_of_In in Hin. simpl in Hin.
    repeat (destruct Hin as [<- | Hin]; [vm_compute; reflexivity|]). contradiction.
  - eexists. split; [reflexivity | vm_compute; reflexivity].
Defined.

(** C5 as stated fails, with or without the line feed between stdout and
    stderr: for an agent that is filtered out the first primary rule that
    matches does not give the operation. *)
Lemma first_matching_rule_counterexample :
  ¬ (∀ input σ i rule,
       let out := stdout input ++ default [] (stderr input) in
       PERMISSION_PATTERNS !! i = Some rule →
       matches (pattern rule) out = true →
       (∀ j earlier, (j < i)%nat → PERMISSION_PATTERNS !! j = Some earlier →
          matches (pattern earlier) out = false) →
       operation (detect input σ).1 = Some (operationName rule))
  ∧ ¬ (∀ input σ i rule,
         let out := stdout input ++ [10] ++ default [] (stderr input) in
         PERMISSION_PATTERNS !! i = Some rule →
         matches (pattern rule) out = true →
         (∀ j earlier, (j < i)%nat → PERMISSION_PATTERNS !! j = Some earlier →
            matches (pattern earlier) out = false) →
         operation (detect input σ).1 = Some (operationName rule)).
Proof.
  split; intros H;
    specialize (H (prompt_from "opencode") ∅ 0%nat _ eq_refl);
    cbv zeta in H;
    assert (Hop : operation (detect (prompt_from "opencode") ∅).1 = Some (js "bash command"))
      by (apply H; [vm_compute; reflexivity | intros j earlier Hj; lia]);
    vm_compute in Hop; discriminate.
Qed.

(** ** The agent filter *)

Lemma starts_with_spec p : ∀ s, starts_with p s = true ↔ ∃ post, s = p ++ post.
Proof.
  induction p as [|a p IH]; intros s; simpl.
  - split; [intros _; exists s; reflexivity | reflexivity].
  - destruct s as [|b s].
    + split; [discriminate | intros [post H]; discriminate].
    + rewrite andb_true_iff, N.eqb_eq, IH. split.
      * intros [-> [post ->]]. exists post. reflexivity.
      * intros [post H]. inversion H; subst. split; [reflexivity | exists post; reflexivity].
Qed.

Lemma includes_spec p : ∀ s, includes s p = true ↔ ∃ pre post, s = pre ++ p ++ post.
Proof.
  induction s as [|c s IH].
  - simpl. rewrite orb_false_r, starts_with_spec. split.
    + intros [post H]. exists [], post. exact H.
    + intros [pre [post H]]. destruct pre; [|discriminate]. exists post. exact H.
  - cbn [includes]. rewrite orb_true_iff, starts_with_spec, IH. split.
    + intros [[post H] | [pre [post H]]].
      * exists [], post. exact H.
      * exists (c :: pre), post. rewrite H. reflexivity.
    + intros [pre [post H]]. destruct pre as [|c' pre]; simpl in H.
      * left. exists post. exact H.
      * right. inversion H; subst. exists pre, post. reflexivity.
Qed.

Lemma Forall2_eq_ci_lower mid token :
  Forall2 eq_ci mid token ↔ toLowerCase mid = toLowerCase token.
Proof.
  unfold toLowerCase. split.
  - induction 1 as [|a b mid token Hab _ IH]; [reflexivity|]. simpl. rewrite Hab, IH. reflexivity.
  - revert token. induction mid as [|a mid IH]; intros [|b token] H; try discriminate.
    + constructor.
    + simpl in H. inversion H. constructor; [assumption | apply IH; assumption].
Qed.

Lemma isClaudeAgent_spec a : isClaudeAgent a = true ↔ contains_ci (js "claude") a.
Proof.
  unfold isClaudeAgent, contains_ci. rewrite includes_spec. split.
  - intros [pre' [post' H]]. unfold toLowerCase in H.
    change (List.map to_lower a) with (to_lower <$> a) in H.
    apply fmap_app_inv in H as [pre [rest [_ [H ->]]]]. symmetry in H.
    apply fmap_app_inv in H as [mid [post [Hmid [_ ->]]]].
    exists pre, mid, post. split; [reflexivity|].
    apply Forall2_eq_ci_lower. unfold toLowerCase. symmetry. exact Hmid.
  - intros [pre [mid [post [-> Hmid]]]].
    apply Forall2_eq_ci_lower in Hmid.
    exists (toLowerCase pre), (toLowerCase post).
    unfold toLowerCase in *. rewrite !map_app, Hmid. reflexivity.
Qed.

(** C4, as the code has it: the rules are evaluated when agentId is absent
    or the empty string, and when it contains 'claude' in any letter case;
    a non-empty agentId without it gives the not-blocked result whatever
    the output is. *)
Theorem agent_filter input σ :
  (agentId input = None ∨ agentId input = Some [] →
   detect input σ = classify (combined input) σ)
  ∧ (∀ a, agentId input = Some a → a ≠ [] → ¬ contains_ci (js "claude") a →
     detect input σ = (not_blocked, σ))
  ∧ (∀ a, agentId input = Some a → contains_ci (js "claude") a →
     detect input σ = classify (combined input) σ).
Proof.
  unfold detect, other_agent. repeat split.
  - intros [H | H]; rewrite H; reflexivity.
  - intros a Ha Hne Hno. rewrite Ha. destruct a as [|c t]; [congruence|].
    destruct (isClaudeAgent (c :: t)) eqn:E; [|reflexivity].
    apply isClaudeAgent_spec in E. contradiction.
  - intros a Ha Hyes. rewrite Ha. apply isClaudeAgent_spec in Hyes.
    destruct a as [|c t]; [reflexivity|]. rewrite Hyes. reflexivity.
Qed.

Lemma agent_filter_witness :
  detect (prompt_from "opencode") ∅ = (not_blocked, ∅)
  ∧ detect (prompt_from "CLAUDE_AGENT") ∅
    = classify (combined (prompt_from "CLAUDE_AGENT")) ∅
  ∧ isBlocked (detect (prompt_from "CLAUDE_AGENT") ∅).1 = true.
Proof.
  split; [|split].
  - apply (proj1 (proj2 (agent_filter (prompt_from "opencode") ∅)) (js "opencode")).
    + reflexivity.
    + discriminate.
    + intros H. apply isClaudeAgent_spec in H. vm_compute in H. discriminate.
  - apply (proj2 (proj2 (agent_filter (prompt_from "CLAUDE_AGENT") ∅)) (js "CLAUDE_AGENT")).
    + reflexivity.
    + apply isClaudeAgent_spec. vm_compute. reflexivity.
  - vm_compute. reflexivity.
Defined.

(** C4 as stated fails for the empty identifier: it is present and does
    not contain 'claude', and the rules are evaluated all the same. *)
Lemma agent_filter_counterexample :
  ¬ (∀ input a σ, agentId input = Some a → ¬ contains_ci (js "claude") a →
       isBlocked (detect input σ).1 = false).
Proof.
  intros H. specialize (H empty_agent_input [] ∅ eq_refl).
  assert (Hno : ¬ contains_ci (js "claude") []).
  { intros [pre [mid [post [Happ Hmid]]]].
    destruct pre; [|discriminate]. destruct mid; [|discriminate]. inversion Hmid. }
  specialize (H Hno). vm_compute in H. discriminate.
Qed.

(** ** Output without a phrase *)

Lemma is_space_cases c :
  is_space c = true →
  c = 9 ∨ c = 10 ∨ c = 11 ∨ c = 12 ∨ c = 13 ∨ c = 32 ∨ c = 160 ∨ c = 5760
  ∨ (8192 ≤ c ≤ 8202) ∨ c = 8232 ∨ c = 8233 ∨ c = 8239 ∨ c = 8287
  ∨ c = 12288 ∨ c = 65279.
Proof.
  unfold is_space, is_white_space, is_line_terminator.
  rewrite !orb_true_iff, !andb_true_iff, !N.eqb_eq, !N.leb_le. lia.
Qed.

Lemma to_upper_space c : is_space c = true → to_upper c = c.
Proof.
  intros H. apply is_space_cases in H. unfold to_upper.
  destruct ((97 <=? c) && (c <=? 122)) eqn:E; [|reflexivity].
  apply andb_true_iff in E as [E1 E2]. apply N.leb_le in E1, E2. lia.
Qed.

Lemma to_upper_not_space c : is_space c = false → is_space (to_upper c) = false.
Proof.
  intros H. unfold to_upper.
  destruct ((97 <=? c) && (c <=? 122)) eqn:E; [|exact H].
  apply andb_true_iff in E as [E1 E2]. apply N.leb_le in E1, E2.
  destruct (is_space (c - 32)) eqn:E3; [|reflexivity].
  apply is_space_cases in E3. lia.
Qed.

Lemma canonicalize_space_ink fl ch c :
  is_space ch = true → is_space c = false →
  (canonicalize fl ch =? canonicalize fl c) = false.
Proof.
  intros Hch Hc. apply N.eqb_neq. unfold canonicalize.
  destruct (ignoreCase fl).
  - rewrite (to_upper_space _ Hch). intros E.
    apply to_upper_not_space in Hc. rewrite <- E in Hc. congruence.
  - intros E. congruence.
Qed.

Lemma advance_subject d x c y :
  advance d x = Some (c, y) → c ∈ subject x.
Proof.
  unfold advance, subject. destruct d.
  - destruct (after x) as [|c' r] eqn:E; [discriminate|]. intros H. inversion H; subst.
    apply elem_of_app. right. constructor.
  - destruct (before x) as [|c' r] eqn:E; [discriminate|]. intros H. inversion H; subst.
    apply elem_of_app. left. simpl. apply elem_of_app. right. constructor.
Qed.

Lemma needs_ink_fails fl r :
  ∀ d x k, blank (subject x) → needs_ink r = true → matcher fl r d x k = None.
Proof.
  induction r as [ | c | | inv items | a IHa b IHb | a IHa b IHb
                 | min max greedy a IHa | n a IHa | | | a IHa ];
    intros d x k Hblank Hink; simpl in Hink; try discriminate; simpl.
  - unfold match_char. destruct (advance d x) as [[ch y]|] eqn:E; [|reflexivity].
    apply advance_subject in E. unfold blank in Hblank.
    rewrite Forall_forall in Hblank. specialize (Hblank _ E).
    apply negb_true_iff in Hink.
    rewrite (canonicalize_space_ink fl _ _ Hblank Hink). reflexivity.
  - assert (Hb : ∀ y k', reach d x y → needs_ink b = true → matcher fl b d y k' = None).
    { intros y k' Hy Hb. apply IHb; [|exact Hb].
      rewrite (reach_subject _ _ _ Hy). exact Hblank. }
    assert (Ha : ∀ y k', reach d x y → needs_ink a = true → matcher fl a d y k' = None).
    { intros y k' Hy Ha. apply IHa; [|exact Ha].
      rewrite (reach_subject _ _ _ Hy). exact Hblank. }
    apply orb_true_iff in Hink. destruct d.
    + destruct (needs_ink a) eqn:Ea.
      * apply Ha; [apply reach_refl | reflexivity].
      * destruct Hink as [|Hink]; [discriminate|].
        apply matcher_fails. intros y Hy. apply Hb; assumption.
    + destruct (needs_ink b) eqn:Eb.
      * apply Hb; [apply reach_refl | reflexivity].
      * destruct Hink as [Hink|]; [|discriminate].
        apply matcher_fails. intros y Hy. apply Ha; assumption.
  - apply andb_true_iff in Hink as [Ha Hb].
    rewrite (IHa d x k Hblank Ha), (IHb d x k Hblank Hb). reflexivity.
  - apply andb_true_iff in Hink as [Hink Ha].
    apply andb_true_iff in Hink as [Hmin Hmax].
    rewrite Nat.add_1_r. simpl.
    apply negb_true_iff, bool_decide_eq_false in Hmax.
    rewrite Hmin.
    destruct max as [[|m]|]; [congruence | |]; apply IHa; assumption.
  - apply IHa; assumption.
Qed.

Lemma search_blank fl r :
  needs_ink r = true →
  ∀ aft bef, blank (rev bef ++ aft) → search fl r bef aft = None.
Proof.
  intros Hink. induction aft as [|c aft IH]; intros bef Hblank; simpl.
  - unfold match_at. rewrite needs_ink_fails; [reflexivity | exact Hblank | exact Hink].
  - unfold match_at. rewrite needs_ink_fails; [| exact Hblank | exact Hink].
    apply IH. simpl. rewrite <- app_assoc. exact Hblank.
Qed.

Lemma matches_blank R S :
  needs_ink (re_source R) = true → blank S → matches R S = false.
Proof.
  intros Hink Hblank. unfold matches, find_match.
  rewrite (search_blank _ _ Hink S [] Hblank). reflexivity.
Qed.

Lemma tables_need_ink :
  forallb (λ rule, needs_ink (re_source (pattern rule))) PERMISSION_PATTERNS = true
  ∧ forallb (λ ind, needs_ink (re_source ind)) BLOCKED_INDICATORS = true.
Proof. split; reflexivity. Qed.

(** The part of C8 on empty and white-space-only output: with stdout and
    stderr empty or of white space only, [detect] returns the not-blocked
    result, whatever agentId is. *)
Lemma blank_output_not_blocked input σ :
  blank (stdout input) → blank (default [] (stderr input)) →
  (detect input σ).1 = not_blocked.
Proof.
  intros Hout Herr. unfold detect.
  destruct (other_agent (agentId input)); [reflexivity|].
  rewrite classify_first_match. cbn [fst].
  assert (Hblank : blank (combined input)).
  { unfold combined, blank. rewrite !Forall_app. repeat split; try assumption.
    repeat constructor. }
  destruct tables_need_ink as [Hp Hi].
  rewrite forallb_forall in Hp, Hi.
  unfold first_match_result.
  rewrite find_none_all.
  - rewrite find_none_all; [reflexivity|].
    intros ind Hin. apply matches_blank; [|exact Hblank].
    apply Hi. apply list_elem_of_In. exact Hin.
  - intros rule Hin. apply matches_blank; [|exact Hblank].
    apply (Hp rule). apply list_elem_of_In. exact Hin.
Qed.

(** The example of the tests, a function named [checkPermission], is not
    blocked. *)
Lemma code_example_not_blocked σ : (detect code_example σ).1 = not_blocked.
Proof. rewrite detect_run. cbn [fst]. vm_compute. reflexivity. Qed.

(** C8 (the code on identifiers that contain the words): the same function
    with a parameter called [digit] is classified as blocked, by the git
    rule, whose second alternative [permission.*?git] has no word
    boundaries. *)
Theorem identifiers_trigger_git_rule σ :
  let res := (detect code_with_digit σ).1 in
  isBlocked res = true ∧ operation res = Some (js "git operation").
Proof.
  rewrite detect_run. cbv zeta. cbn [fst]. split; vm_compute; reflexivity.
Qed.

(** ** The past tense *)

Lemma eq_ci_upper a b : eq_ci a b → to_upper a = to_upper b.
Proof.
  unfold eq_ci, to_lower, to_upper.
  destruct ((65 <=? a) && (a <=? 90)) eqn:Ea, ((65 <=? b) && (b <=? 90)) eqn:Eb,
           ((97 <=? a) && (a <=? 122)) eqn:Fa, ((97 <=? b) && (b <=? 122)) eqn:Fb;
    rewrite ?andb_true_iff, ?andb_false_iff, ?N.leb_le, ?N.leb_gt in *; lia.
Qed.

(** A literal read backwards over a text that spells it in any case. *)
Lemma literal_backward cs : ∀ aux rest aft c k,
  Forall2 eq_ci aux cs →
  matcher flags_i (foldr Seq Eps (Lit <$> cs)) Backward
    {| before := rev aux ++ rest; after := aft; caps := c |} k
  = k {| before := rest; after := aux ++ aft; caps := c |}.
Proof.
  induction cs as [|ch cs IH]; intros aux rest aft c k H; inversion H; subst.
  - reflexivity.
  - cbn [fmap list_fmap foldr matcher]. simpl rev. rewrite <- app_assoc. simpl.
    rewrite IH by assumption.
    unfold match_char, advance. cbn [before after caps].
    unfold canonicalize. cbn [ignoreCase flags_i].
    match goal with Hci : eq_ci _ ch |- _ => rewrite (eq_ci_upper _ _ Hci) end.
    rewrite N.eqb_refl. reflexivity.
Qed.

Lemma lookbehind_hit (w : string) x aux ws rest k :
  before x = ws :: rev aux ++ rest → is_space ws = true →
  Forall2 eq_ci aux (js w) →
  matcher flags_i (NotBehind (lit w +++ space)) Forward x k = None.
Proof.
  destruct x as [bef aft c]. cbn [before]. intros -> Hws Haux.
  cbn [matcher]. unfold space at 1.
  cbn [matcher]. unfold match_char at 1, advance. cbn [before after caps].
  unfold in_class. cbn [existsb in_item]. rewrite Hws. cbn [orb xorb].
  unfold lit. rewrite (literal_backward _ _ _ _ _ _ Haux). reflexivity.
Qed.

Lemma notbehind_cases fl a d x k :
  matcher fl (NotBehind a) d x k = None ∨ matcher fl (NotBehind a) d x k = k x.
Proof. simpl. destruct (matcher fl a Backward x Some); auto. Qed.

Lemma not_past_excludes tail x k bef :
  before x = bef → (∃ pre aux ws,
    bef = ws :: rev aux ++ pre ∧ is_space ws = true
    ∧ (Forall2 eq_ci aux (js "was") ∨ Forall2 eq_ci aux (js "were")
       ∨ Forall2 eq_ci aux (js "been"))) →
  matcher flags_i (not_past +++ tail) Forward x k = None.
Proof.
  intros Hbef [pre [aux [ws [Hpre [Hws Haux]]]]]. subst bef.
  unfold not_past.
  change (matcher flags_i ((?a +++ ?b +++ ?c) +++ tail) Forward x k)
    with (matcher flags_i a Forward x
            (λ y, matcher flags_i b Forward y
               (λ z, matcher flags_i c Forward z
                  (λ u, matcher flags_i tail Forward u k)))).
  destruct Haux as [H | [H | H]].
  - apply (lookbehind_hit "was" _ _ _ _ _ Hpre Hws H).
  - destruct (notbehind_cases flags_i (lit "was" +++ space) Forward x) with (k :=
      λ y, matcher flags_i (NotBehind (lit "were" +++ space)) Forward y
             (λ z, matcher flags_i (NotBehind (lit "been" +++ space)) Forward z
                (λ u, matcher flags_i tail Forward u k))) as [E | E];
      rewrite E; [reflexivity|].
    apply (lookbehind_hit "were" _ _ _ _ _ Hpre Hws H).
  - destruct (notbehind_cases flags_i (lit "was" +++ space) Forward x) with (k :=
      λ y, matcher flags_i (NotBehind (lit "were" +++ space)) Forward y
             (λ z, matcher flags_i (NotBehind (lit "been" +++ space)) Forward z
                (λ u, matcher flags_i tail Forward u k))) as [E | E];
      rewrite E; [reflexivity|].
    destruct (notbehind_cases flags_i (lit "were" +++ space) Forward x) with (k :=
      λ z, matcher flags_i (NotBehind (lit "been" +++ space)) Forward z
             (λ u, matcher flags_i tail Forward u k)) as [E' | E'];
      rewrite E'; [reflexivity|].
    apply (lookbehind_hit "been" _ _ _ _ _ Hpre Hws H).
Qed.

Lemma waiting_rules_shape R :
  R ∈ waiting_rules →
  re_flags R = flags_i ∧ ∃ tail, re_source R = not_past +++ tail.
Proof.
  unfold waiting_rules. cbn. rewrite !elem_of_cons, elem_of_nil.
  intros [-> | [-> | [-> | [-> | []]]]]; (split; [reflexivity | eexists; reflexivity]).
Qed.

Lemma scenario_B_not_blocked σ : (detect scenario_B σ).1 = not_blocked.
Proof. rewrite detect_run. cbn [fst]. vm_compute. reflexivity. Qed.

Lemma operation_names_waiting rule :
  rule ∈ PERMISSION_PATTERNS → operationName rule = js "operation" →
  pattern rule ∈ waiting_rules.
Proof.
  unfold PERMISSION_PATTERNS. rewrite !elem_of_cons, elem_of_nil.
  intros [-> | [-> | [-> | [-> | [-> | [-> | [-> | [-> | []]]]]]]]] H;
    try (vm_compute in H; discriminate).
  unfold waiting_rules. cbn. rewrite !elem_of_cons. auto.
Qed.

(** C2 as stated fails: an output with a phrase in the past tense and the
    same phrase in the present is blocked. *)
Lemma past_tense_counterexample :
  ¬ (∀ input σ, past_tense_phrase (stdout input) →
       isBlocked (detect input σ).1 = false).
Proof.
  intros H. specialize (H past_then_present ∅).
  assert (Hp : past_tense_phrase (stdout past_then_present)).
  { exists 14%nat, (js "waiting for permission"). split; [|split].
    - exists (js "The agent "), (js "was"), 32. split; [reflexivity|].
      split; [reflexivity|]. left. repeat constructor.
    - unfold waiting_phrases. rewrite !elem_of_cons. auto.
    - reflexivity. }
  specialize (H Hp). vm_compute in H. discriminate.
Qed.

(** ** The message *)

Lemma space_fails_on_ink fl x k :
  match after x with ch :: _ => is_space ch = false | [] => True end →
  matcher fl space Forward x k = None.
Proof.
  intros H. simpl. unfold match_char, advance.
  destruct (after x) as [|ch r]; [reflexivity|].
  unfold in_class. simpl. rewrite H. reflexivity.
Qed.

Lemma space_steps fl bef ch r c k :
  is_space ch = true →
  matcher fl space Forward {| before := bef; after := ch :: r; caps := c |} k
  = k {| before := ch :: bef; after := r; caps := c |}.
Proof.
  intros H. simpl. unfold match_char, advance. cbn [before after caps].
  unfold in_class. simpl. rewrite H. reflexivity.
Qed.

(** The iterations of [\s+] after the first, on a run of white space
    followed by something else. *)
Lemma space_star_run fl : ∀ run bef rest c fuel,
  (length run + 1 ≤ fuel)%nat →
  Forall (λ ch, is_space ch = true) run →
  match rest with ch :: _ => is_space ch = false | [] => True end →
  repeat_matcher (matcher fl space Forward) [] true Some fuel 0 None
    {| before := bef; after := run ++ rest; caps := c |}
  = Some {| before := rev run ++ bef; after := rest; caps := c |}.
Proof.
  induction run as [|ch run IH]; intros bef rest c fuel Hfuel Hrun Hrest;
    (destruct fuel as [|fuel]; [simpl in Hfuel; lia|]).
  - cbn [repeat_matcher app]. cbn [Nat.eqb negb].
    unfold clear_caps. cbn [before after caps foldr].
    rewrite space_fails_on_ink by exact Hrest. reflexivity.
  - inversion Hrun as [|? ? Hch Hrun']; subst.
    cbn [repeat_matcher app]. cbn [Nat.eqb negb].
    unfold clear_caps. cbn [before after caps foldr].
    rewrite space_steps by exact Hch.
    unfold pos. cbn [before length].
    replace (S (length bef) =? length bef)%nat with false
      by (symmetry; apply Nat.eqb_neq; lia).
    cbn [andb].
    rewrite IH; [| simpl in Hfuel; lia | exact Hrun' | exact Hrest].
    simpl. rewrite <- app_assoc. reflexivity.
Qed.

Lemma match_at_space_run fl run bef rest :
  run ≠ [] → Forall (λ ch, is_space ch = true) run →
  match rest with ch :: _ => is_space ch = false | [] => True end →
  match_at fl (plus space) {| before := bef; after := run ++ rest; caps := ∅ |}
  = Some {| before := rev run ++ bef; after := rest; caps := ∅ |}.
Proof.
  intros Hne Hrun Hrest. destruct run as [|ch run]; [congruence|].
  inversion Hrun as [|? ? Hch Hrun']; subst.
  unfold match_at, plus.
  rewrite (matcher_quant_fuel fl 1 None true space Forward _ Some
             (S (length run + length rest + 2))).
  2:{ simpl. rewrite length_app. lia. }
  cbn [repeat_matcher app]. cbn [Nat.eqb negb].
  unfold clear_caps. cbn [before after caps foldr groups space].
  rewrite space_steps by exact Hch.
  cbn [andb Nat.pred fmap option_fmap option_map].
  rewrite space_star_run; [| lia | exact Hrun' | exact Hrest].
  simpl. rewrite <- app_assoc. reflexivity.
Qed.

Lemma match_at_space_ink fl bef aft :
  match aft with ch :: _ => is_space ch = false | [] => True end →
  match_at fl (plus space) {| before := bef; after := aft; caps := ∅ |} = None.
Proof.
  intros H. unfold match_at, plus.
  rewrite (matcher_quant_fuel fl 1 None true space Forward _ Some (S (S (length aft))))
    by (simpl; lia).
  cbn [repeat_matcher]. cbn [Nat.eqb negb].
  apply space_fails_on_ink. exact H.
Qed.

Lemma search_space_none fl : ∀ aft bef,
  Forall (λ ch, is_space ch = false) aft → search fl (plus space) bef aft = None.
Proof.
  induction aft as [|c aft IH]; intros bef H; cbn [search].
  - rewrite match_at_space_ink by exact I. reflexivity.
  - inversion H; subst. rewrite match_at_space_ink by assumption. apply IH. assumption.
Qed.

Lemma search_space_found fl : ∀ skipped bef run rest,
  Forall (λ ch, is_space ch = false) skipped →
  run ≠ [] → Forall (λ ch, is_space ch = true) run → ink_first rest →
  search fl (plus space) bef (skipped ++ run ++ rest)
  = Some ((length bef + length skipped)%nat,
          {| before := rev run ++ rev skipped ++ bef; after := rest; caps := ∅ |}).
Proof.
  induction skipped as [|c skipped IH]; intros bef run rest Hsk Hne Hrun Hrest.
  - cbn [app length]. rewrite Nat.add_0_r.
    pose proof (match_at_space_run fl run bef rest Hne Hrun Hrest) as Hm.
    destruct run as [|ch run]; [congruence|].
    cbn [app search] in *. rewrite Hm. reflexivity.
  - inversion Hsk; subst. cbn [app search].
    rewrite match_at_space_ink by assumption.
    rewrite IH by assumption. cbn [length rev].
    rewrite <- !app_assoc. cbn [app].
    f_equal. f_equal. lia.
Qed.

Lemma split_at_space : ∀ aft,
  Forall (λ ch, is_space ch = false) aft
  ∨ ∃ skipped run rest, aft = skipped ++ run ++ rest
      ∧ Forall (λ ch, is_space ch = false) skipped
      ∧ run ≠ [] ∧ Forall (λ ch, is_space ch = true) run ∧ ink_first rest.
Proof.
  induction aft as [|c aft IH]; [left; constructor|].
  destruct (is_space c) eqn:Ec.
  - right. destruct IH as [Hall | [skipped [run [rest [-> [Hsk [Hne [Hrun Hrest]]]]]]]].
    + exists [], [c], aft. repeat split; try (constructor; auto); try congruence.
      destruct aft; [exact I | inversion Hall; assumption].
    + destruct skipped as [|s skipped].
      * exists [], (c :: run), rest. repeat split; try (constructor; auto); congruence.
      * exists [], [c], ((s :: skipped) ++ run ++ rest).
        repeat split; try (constructor; auto); try congruence.
        inversion Hsk; assumption.
  - destruct IH as [Hall | [skipped [run [rest [-> [Hsk [Hne [Hrun Hrest]]]]]]]].
    + left. constructor; assumption.
    + right. exists (c :: skipped), run, rest. repeat split; try assumption.
      constructor; assumption.
Qed.

Lemma squeeze_ink : ∀ s b t,
  Forall (λ ch, is_space ch = false) s → s ≠ [] ∨ b = false →
  squeeze_from b (s ++ t) = s ++ squeeze_from false t.
Proof.
  induction s as [|c s IH]; intros b t Hs Hb.
  - destruct Hb as [? | ->]; [congruence | reflexivity].
  - inversion Hs; subst. cbn [app squeeze_from].
    match goal with H : is_space c = false |- _ => rewrite H end.
    rewrite IH by auto. reflexivity.
Qed.

Lemma squeeze_all_ink s :
  Forall (λ ch, is_space ch = false) s → squeeze s = s.
Proof.
  intros H. unfold squeeze.
  rewrite <- (app_nil_r s) at 1. rewrite squeeze_ink by auto.
  simpl. apply app_nil_r.
Qed.

Lemma squeeze_true_run : ∀ run rest,
  Forall (λ ch, is_space ch = true) run → ink_first rest →
  squeeze_from true (run ++ rest) = squeeze_from false rest.
Proof.
  induction run as [|c run IH]; intros rest Hrun Hrest.
  - destruct rest as [|ch rest]; [reflexivity|]. simpl. rewrite Hrest. reflexivity.
  - inversion Hrun; subst. cbn [app squeeze_from].
    match goal with H : is_space c = true |- _ => rewrite H end.
    apply IH; assumption.
Qed.

Lemma squeeze_split skipped run rest :
  Forall (λ ch, is_space ch = false) skipped →
  run ≠ [] → Forall (λ ch, is_space ch = true) run → ink_first rest →
  squeeze (skipped ++ run ++ rest) = skipped ++ [32] ++ squeeze rest.
Proof.
  intros Hsk Hne Hrun Hrest. unfold squeeze.
  rewrite squeeze_ink by auto. f_equal.
  destruct run as [|c run]; [congruence|]. inversion Hrun; subst.
  cbn [app squeeze_from].
  match goal with H : is_space c = true |- _ => rewrite H end.
  rewrite squeeze_true_run by assumption. reflexivity.
Qed.

(** The loop of [replace(/\s+/g, ' ')] from a position on. *)
Lemma replace_loop_squeeze : ∀ fuel aft bef acc,
  (length aft + 1 ≤ fuel)%nat →
  replace_loop flags_g (plus space) [32] fuel (rev bef ++ aft)
    (length bef) (length bef) acc
  = acc ++ squeeze aft.
Proof.
  induction fuel as [|fuel IH]; intros aft bef acc Hfuel; [lia|].
  cbn [replace_loop].
  assert (Hlen : (length (rev bef ++ aft) <? length bef)%nat = false).
  { apply Nat.ltb_ge. rewrite length_app, length_rev. lia. }
  rewrite Hlen.
  assert (Htake : take (length bef) (rev bef ++ aft) = rev bef).
  { rewrite <- (length_rev bef). apply take_app_length. }
  assert (Hdrop : drop (length bef) (rev bef ++ aft) = aft).
  { rewrite <- (length_rev bef). apply drop_app_length. }
  rewrite Htake, Hdrop, rev_involutive.
  destruct (split_at_space aft)
    as [Hall | [skipped [run [rest [-> [Hsk [Hne [Hrun Hrest]]]]]]]].
  - rewrite search_space_none by exact Hall.
    rewrite squeeze_all_ink by exact Hall. reflexivity.
  - rewrite search_space_found by assumption.
    cbn [global flags_g]. unfold pos. cbn [before].
    rewrite !length_app, !length_rev.
    assert (Hrunlen : (0 < length run)%nat) by (destruct run; [congruence | simpl; lia]).
    replace (length run + (length skipped + length bef) =? length bef + length skipped)%nat
      with false by (symmetry; apply Nat.eqb_neq; lia).
    replace (length bef + length skipped - length bef)%nat with (length skipped) by lia.
    rewrite take_app_length.
    pose proof (IH rest (rev run ++ rev skipped ++ bef) (acc ++ skipped ++ [32])) as IH'.
    rewrite !rev_app_distr, !rev_involutive, !length_app, !length_rev in IH'.
    rewrite <- !app_assoc in IH'.
    rewrite IH'.
    + rewrite squeeze_split by assumption. reflexivity.
    + rewrite !length_app in Hfuel. lia.
Qed.

Lemma replace_spaces_squeeze s :
  replace_literal flags_g (plus space) (js " ") s = squeeze s.
Proof.
  unfold replace_literal.
  apply (replace_loop_squeeze (length s + 2) s [] []). lia.
Qed.

(** The squeezed text has single spaces as its only white space. *)
Lemma squeeze_from_space_is_blank b s c :
  c ∈ squeeze_from b s → is_space c = true → c = 32.
Proof.
  revert b. induction s as [|ch s IH]; intros b Hin Hc; [inversion Hin|].
  cbn [squeeze_from] in Hin. destruct (is_space ch) eqn:E.
  - destruct b.
    + eapply IH; eauto.
    + apply elem_of_cons in Hin as [-> | Hin]; [reflexivity | eapply IH; eauto].
  - apply elem_of_cons in Hin as [-> | Hin]; [congruence | eapply IH; eauto].
Qed.

Lemma squeeze_from_true_head s : ink_first (squeeze_from true s).
Proof.
  induction s as [|ch s IH]; [exact I|].
  cbn [squeeze_from]. destruct (is_space ch) eqn:E; [exact IH | exact E].
Qed.

Lemma squeeze_from_single_spaced b s : single_spaced (squeeze_from b s) = true.
Proof.
  revert b. induction s as [|ch s IH]; intros b; [reflexivity|].
  cbn [squeeze_from]. destruct (is_space ch) eqn:E.
  - destruct b; [apply IH|].
    pose proof (squeeze_from_true_head s) as Hh. pose proof (IH true) as Ht.
    destruct (squeeze_from true s) as [|h t]; [reflexivity|].
    change (single_spaced (32 :: h :: t))
      with (negb (is_space 32 && is_space h) && single_spaced (h :: t)).
    rewrite Hh, Ht, andb_false_r. reflexivity.
  - pose proof (IH false) as Ht.
    destruct (squeeze_from false s) as [|h t]; [reflexivity|].
    change (single_spaced (ch :: h :: t))
      with (negb (is_space ch && is_space h) && single_spaced (h :: t)).
    rewrite E, Ht. reflexivity.
Qed.

Lemma squeeze_keeps_ink b s :
  List.filter (λ c, negb (is_space c)) (squeeze_from b s)
  = List.filter (λ c, negb (is_space c)) s.
Proof.
  revert b. induction s as [|ch s IH]; intros b; [reflexivity|].
  cbn [squeeze_from List.filter]. destruct (is_space ch) eqn:E; cbn [negb].
  - destruct b; [apply IH|]. cbn [List.filter]. change (is_space 32) with true.
    cbn [negb]. apply IH.
  - cbn [List.filter]. rewrite E. cbn [negb]. f_equal. apply IH.
Qed.

Lemma slice_window pre m0 post :
  slice (pre ++ m0 ++ post)
    (Z.max 0 (Z.of_nat (length pre) - 20))
    (Z.min (Z.of_nat (length (pre ++ m0 ++ post)))
       (Z.of_nat (length pre) + Z.of_nat (length m0) + 80))
  = context_window pre m0 post.
Proof.
  replace (Z.max 0 (Z.of_nat (length pre) - 20))
    with (Z.of_nat (length pre - 20)) by lia.
  replace (Z.min (Z.of_nat (length (pre ++ m0 ++ post)))
             (Z.of_nat (length pre) + Z.of_nat (length m0) + 80))
    with (Z.of_nat (Nat.min (length (pre ++ m0 ++ post))
                      (length pre + length m0 + 80))) by lia.
  rewrite slice_nat. unfold context_window. rewrite !length_app.
  rewrite (Nat.min_l (length pre - 20)) by lia.
  rewrite drop_app_le by lia.
  replace (Nat.min (Nat.min (length pre + (length m0 + length post))
                      (length pre + length m0 + 80))
             (length pre + (length m0 + length post)) - (length pre - 20))%nat
    with (length (drop (length pre - 20) pre)
          + (length m0 + Nat.min 80 (length post)))%nat
    by (rewrite length_drop; lia).
  rewrite take_app_add, take_app_add. f_equal. f_equal.
  destruct (Nat.le_ge_cases 80 (length post)) as [H | H].
  - rewrite Nat.min_l by exact H. reflexivity.
  - rewrite Nat.min_r by exact H. rewrite !take_ge by lia. reflexivity.
Qed.

Lemma ellipsis_at_length n s : (length (ellipsis_at n s) ≤ n + 3)%nat.
Proof.
  unfold ellipsis_at. destruct (n <? length s)%nat eqn:E.
  - rewrite length_app, length_take. simpl. lia.
  - apply Nat.ltb_ge in E. lia.
Qed.

(** [extractMessage] on a match [m0] found between [pre] and [post]. *)
Lemma message_of_match_window pre m0 post a :
  m_index a = Some (length pre) → m_item a 0 = Some m0 →
  message_of_match (pre ++ m0 ++ post) (Some a)
  = ellipsis_at 150 (squeeze (trim (context_window pre m0 post))).
Proof.
  intros Hi Hm. unfold message_of_match, clean_message. rewrite Hi, Hm.
  cbn [from_option Datatypes.id]. rewrite slice_window, replace_spaces_squeeze.
  unfold ellipsis_at.
  destruct (150 <? length (squeeze (trim (context_window pre m0 post))))%nat eqn:E;
    [|reflexivity].
  apply Nat.ltb_lt in E.
  rewrite (slice_prefix _ 150) by lia. reflexivity.
Qed.

Lemma fired_rule_message R out :
  matches R out = true →
  ∃ pre m0 post, out = pre ++ m0 ++ post
    ∧ (∃ a, find_match R out = Some a ∧ m_index a = Some (length pre)
            ∧ m_item a 0 = Some m0)
    ∧ message_of_match out (find_match R out)
      = ellipsis_at 150 (squeeze (trim (context_window pre m0 post))).
Proof.
  unfold matches. intros H. apply bool_decide_eq_true in H as [a Ha].
  destruct (find_match_text _ _ _ Ha) as [pre [m0 [post [Hout [Hi [Hm _]]]]]].
  exists pre, m0, post. split; [exact Hout|]. split; [exists a; auto|].
  rewrite Ha. rewrite Hout at 1. apply message_of_match_window; assumption.
Qed.

(** * The Droid agent plugin *)

Section DroidProperties.

Context {B : Type}.
Variable base_initialize : gmap (list N) JsVal → B → outcome B.
Variable safeParse : DroidRawConfig → option DroidConfigData.
Variable DROID_DEFAULT_COMMAND : list N.

Lemma set_tracing_same m b : same_but_tracing m (set_supportsSubagentTracing b m).
Proof. reflexivity. Qed.

(** With a configuration that fails the validation, [initialize] changes
    the base-class part only. *)
Lemma initialize_invalid config self b' :
  base_initialize config (base self) = Resolved b' →
  safeParse (config_fields config) = None →
  initialize base_initialize safeParse config self
  = Resolved {| base := b'; meta := meta self; model := model self;
                reasoningEffort := reasoningEffort self;
                skipPermissions := skipPermissions self;
                enableTracing := enableTracing self;
                warnings := warnings self |}.
Proof.
  intros Hb Hp. unfold initialize. rewrite Hb.
  fold (config_fields config). rewrite Hp. reflexivity.
Qed.

(** C10: when the fields of the configuration fail the schema (and the
    [initialize] of the base class returns), [initialize] on a new adapter
    returns normally and the options are at their defaults: model and
    reasoningEffort unset, skipPermissions false, enableTracing true, and
    the descriptor as constructed. *)
Theorem invalid_config_keeps_defaults config b b' :
  base_initialize config b = Resolved b' →
  safeParse (config_fields config) = None →
  ∃ self',
    initialize base_initialize safeParse config (new_plugin DROID_DEFAULT_COMMAND b)
    = Resolved self'
    ∧ model self' = None ∧ reasoningEffort self' = None
    ∧ skipPermissions self' = false ∧ enableTracing self' = true
    ∧ meta self' = droid_meta DROID_DEFAULT_COMMAND
    ∧ warnings self' = [].
Proof.
  intros Hb Hp. eexists. split.
  - apply initialize_invalid; [exact Hb | exact Hp].
  - repeat split.
Qed.

(** C6, as the code has it: [initialize] leaves every field of the
    descriptor but [supportsSubagentTracing] as it was, and sets that one
    to false exactly when the configuration passes the validation with
    tracing disabled. *)
Theorem descriptor_changes_only_tracing config self self' :
  initialize base_initialize safeParse config self = Resolved self' →
  same_but_tracing (meta self) (meta self')
  ∧ supportsSubagentTracing (meta self')
    = match safeParse (config_fields config) with
      | Some data => supportsSubagentTracing (meta self) && data_enableTracing data
      | None => supportsSubagentTracing (meta self)
      end.
Proof.
  unfold initialize. fold (config_fields config).
  destruct (base_initialize config (base self)) as [b|reason]; [|discriminate].
  destruct (safeParse (config_fields config)) as [data|]; intros H;
    inversion H; subst; clear H; cbn [meta apply_config].
  - destruct (data_enableTracing data); cbn [negb].
    + split; [reflexivity | symmetry; apply andb_true_r].
    + split; [apply set_tracing_same | symmetry; apply andb_false_r].
  - split; reflexivity.
Qed.

End DroidProperties.

Lemma invalid_config_keeps_defaults_witness :
  example_safeParse (config_fields model_42) = None
  ∧ ∃ self',
      initialize example_base_initialize example_safeParse model_42 example_plugin
      = Resolved self'
      ∧ model self' = None ∧ reasoningEffort self' = None
      ∧ skipPermissions self' = false ∧ enableTracing self' = true
      ∧ meta self' = droid_meta (js "droid")
      ∧ warnings self' = [].
Proof.
  split; [vm_compute; reflexivity|].
  apply (invalid_config_keeps_defaults example_base_initialize example_safeParse
           (js "droid") model_42 ∅ model_42).
  - reflexivity.
  - vm_compute. reflexivity.
Defined.

Lemma descriptor_changes_only_tracing_witness :
  same_but_tracing (meta example_plugin)
    (set_supportsSubagentTracing false (meta example_plugin))
  ∧ supportsSubagentTracing (set_supportsSubagentTracing false (meta example_plugin))
    = match example_safeParse (config_fields tracing_off) with
      | Some data => supportsSubagentTracing (meta example_plugin) && data_enableTracing data
      | None => supportsSubagentTracing (meta example_plugin)
      end.
Proof.
  apply (descriptor_changes_only_tracing example_base_initialize example_safeParse
           tracing_off example_plugin
           {| base := tracing_off;
              meta := set_supportsSubagentTracing false (meta example_plugin);
              model := None; reasoningEffort := None; skipPermissions := false;
              enableTracing := false; warnings := [] |}).
  vm_compute. reflexivity.
Defined.

(** C6 as stated fails: [initialize] with [{ enableTracing: false }] turns
    [supportsSubagentTracing] of a new adapter from true to false. *)
Lemma descriptor_not_static :
  ¬ (∀ (B : Type) (base_initialize : gmap (list N) JsVal → B → outcome B)
       (safeParse : DroidRawConfig → option DroidConfigData)
       (config : gmap (list N) JsVal) (self self' : DroidAgentPlugin B),
       initialize base_initialize safeParse config self = Resolved self' →
       meta self' = meta self).
Proof.
  intros H.
  specialize (H _ example_base_initialize example_safeParse tracing_off example_plugin
                {| base := tracing_off;
                   meta := set_supportsSubagentTracing false (meta example_plugin);
                   model := None; reasoningEffort := None; skipPermissions := false;
                   enableTracing := false; warnings := [] |}).
  assert (Hinit : initialize example_base_initialize example_safeParse tracing_off
                    example_plugin
                  = Resolved
                      {| base := tracing_off;
                         meta := set_supportsSubagentTracing false (meta example_plugin);
                         model := None; reasoningEffort := None; skipPermissions := false;
                         enableTracing := false; warnings := [] |})
    by (vm_compute; reflexivity).
  specialize (H Hinit). cbn [meta] in H.
  apply (f_equal supportsSubagentTracing) in H. vm_compute in H. discriminate.
Qed.

(** * Further properties of the matcher *)

(** A match at some position makes the search succeed. *)
Lemma search_complete fl r : ∀ skipped bef rest,
  is_Some (match_at fl r {| before := rev skipped ++ bef; after := rest; caps := ∅ |}) →
  is_Some (search fl r bef (skipped ++ rest)).
Proof.
  induction skipped as [|c skipped IH]; intros bef rest [e He].
  - cbn [rev app] in *.
    destruct rest as [|c rest]; cbn [search]; rewrite He; eexists; reflexivity.
  - cbn [app search].
    destruct (match_at fl r {| before := bef; after := c :: skipped ++ rest; caps := ∅ |});
      [eexists; reflexivity|].
    apply IH. exists e. rewrite <- He. cbn [rev]. rewrite <- app_assoc. reflexivity.
Qed.

Lemma upper_eq_ci a b : to_upper a = to_upper b → eq_ci a b.
Proof.
  unfold eq_ci, to_lower, to_upper.
  destruct ((65 <=? a) && (a <=? 90)) eqn:Ea, ((65 <=? b) && (b <=? 90)) eqn:Eb,
           ((97 <=? a) && (a <=? 122)) eqn:Fa, ((97 <=? b) && (b <=? 122)) eqn:Fb;
    rewrite ?andb_true_iff, ?andb_false_iff, ?N.leb_le, ?N.leb_gt in *; lia.
Qed.

(** A literal read forwards over a text that spells it in any case. *)
Lemma literal_forward fl cs : ignoreCase fl = true →
  ∀ aux rest bef c k, Forall2 eq_ci aux cs →
  matcher fl (foldr Seq Eps (Lit <$> cs)) Forward
    {| before := bef; after := aux ++ rest; caps := c |} k
  = k {| before := rev aux ++ bef; after := rest; caps := c |}.
Proof.
  intros Hi. induction cs as [|ch cs IH]; intros aux rest bef c k H; inversion H; subst.
  - reflexivity.
  - cbn [fmap list_fmap foldr matcher app].
    unfold match_char at 1, advance. cbn [before after caps].
    unfold canonicalize. rewrite Hi.
    match goal with Hci : eq_ci _ ch |- _ => rewrite (eq_ci_upper _ _ Hci) end.
    rewrite N.eqb_refl.
    change (matcher fl (foldr Seq Eps (list_fmap N regex Lit cs)))
      with (matcher fl (foldr Seq Eps (Lit <$> cs))).
    rewrite IH by assumption. cbn [rev]. rewrite <- app_assoc. reflexivity.
Qed.

(** A literal that matched forwards read a text that spells it. *)
Lemma literal_forward_inv fl cs : ignoreCase fl = true →
  ∀ x k e, matcher fl (foldr Seq Eps (Lit <$> cs)) Forward x k = Some e →
  ∃ aux rest, after x = aux ++ rest ∧ Forall2 eq_ci aux cs
    ∧ k {| before := rev aux ++ before x; after := rest; caps := caps x |} = Some e.
Proof.
  intros Hi. induction cs as [|ch cs IH]; intros x k e H.
  - exists [], (after x). destruct x. split; [reflexivity|]. split; [constructor | exact H].
  - cbn [fmap list_fmap foldr matcher] in H.
    unfold match_char at 1, advance in H.
    destruct (after x) as [|a r] eqn:Ea; [discriminate|].
    destruct (canonicalize fl a =? canonicalize fl ch) eqn:Ec; [|discriminate].
    apply N.eqb_eq in Ec. unfold canonicalize in Ec. rewrite Hi in Ec.
    apply upper_eq_ci in Ec.
    apply IH in H as [aux [rest [Hr [Haux H]]]]. cbn [before after caps] in *.
    exists (a :: aux), rest. split; [rewrite Hr; reflexivity|].
    split; [constructor; assumption|].
    cbn [rev]. rewrite <- app_assoc. exact H.
Qed.

(** Greedy iterations over characters: with a continuation that accepts
    the end of the longest run, the quantifier stops there. *)
Lemma star_run_max ma p k :
  (∀ x k', ma x k' = match_char p Forward x k') →
  ∀ run bef rest c fuel e,
    (length run + 1 ≤ fuel)%nat →
    Forall (λ ch, p ch = true) run →
    match rest with ch :: _ => p ch = false | [] => True end →
    k {| before := rev run ++ bef; after := rest; caps := c |} = Some e →
    repeat_matcher ma [] true k fuel 0 None
      {| before := bef; after := run ++ rest; caps := c |} = Some e.
Proof.
  intros Hma. induction run as [|ch run IH]; intros bef rest c fuel e Hfuel Hrun Hrest Hk;
    (destruct fuel as [|fuel]; [simpl in Hfuel; lia|]).
  - cbn [repeat_matcher app]. cbn [Nat.eqb negb].
    unfold clear_caps. cbn [before after caps foldr].
    rewrite Hma. unfold match_char, advance. cbn [after].
    destruct rest as [|a r]; [exact Hk|]. rewrite Hrest. exact Hk.
  - inversion Hrun as [|? ? Hch Hrun']; subst.
    cbn [repeat_matcher app]. cbn [Nat.eqb negb].
    unfold clear_caps. cbn [before after caps foldr].
    rewrite Hma. unfold match_char, advance. cbn [before after caps]. rewrite Hch.
    unfold pos. cbn [before length].
    replace (S (length bef) =? length bef)%nat with false
      by (symmetry; apply Nat.eqb_neq; lia).
    cbn [andb fmap option_fmap option_map Nat.pred].
    rewrite (IH (ch :: bef) rest c fuel e); [reflexivity | simpl in Hfuel; lia | exact Hrun' | exact Hrest |].
    cbn [rev] in Hk. rewrite <- app_assoc in Hk. exact Hk.
Qed.

(** [a+] for an atom [a] that reads one character accepted by [p]. *)
Lemma plus_char_greedy fl a p :
  (∀ x k', matcher fl a Forward x k' = match_char p Forward x k') → groups a = [] →
  ∀ run bef rest c k e,
    run ≠ [] → Forall (λ ch, p ch = true) run →
    match rest with ch :: _ => p ch = false | [] => True end →
    k {| before := rev run ++ bef; after := rest; caps := c |} = Some e →
    matcher fl (plus a) Forward {| before := bef; after := run ++ rest; caps := c |} k
    = Some e.
Proof.
  intros Hma Hg run bef rest c k e Hne Hrun Hrest Hk.
  destruct run as [|ch run]; [congruence|]. inversion Hrun as [|? ? Hch Hrun']; subst.
  unfold plus.
  rewrite (matcher_quant_fuel fl 1 None true a Forward _ k
             (S (length run + length rest + 2))).
  2:{ simpl. rewrite length_app. lia. }
  rewrite Hg. cbn [repeat_matcher app]. cbn [Nat.eqb negb].
  unfold clear_caps. cbn [before after caps foldr].
  rewrite Hma. unfold match_char, advance. cbn [before after caps]. rewrite Hch.
  cbn [andb fmap option_fmap option_map Nat.pred].
  apply (star_run_max (matcher fl a Forward) p k Hma run (ch :: bef) rest c);
    [lia | exact Hrun' | exact Hrest |].
  cbn [rev] in Hk. rewrite <- app_assoc in Hk. exact Hk.
Qed.

Lemma plus_char_none fl a p x k :
  (∀ x k', matcher fl a Forward x k' = match_char p Forward x k') →
  match after x with ch :: _ => p ch = false | [] => True end →
  matcher fl (plus a) Forward x k = None.
Proof.
  intros Hma H. unfold plus.
  rewrite (matcher_quant_fuel fl 1 None true a Forward x k (S (S (length (after x)))))
    by (simpl; lia).
  cbn [repeat_matcher]. cbn [Nat.eqb negb].
  rewrite Hma. unfold match_char, advance. cbn [after clear_caps].
  destruct (after x) as [|a' r]; [reflexivity|]. rewrite H. reflexivity.
Qed.

(** Every text is a line, up to its first line terminator, and the rest. *)
Lemma split_line : ∀ s, ∃ line rest, s = line ++ rest
  ∧ Forall (λ ch, is_line_terminator ch = false) line ∧ line_end rest.
Proof.
  induction s as [|c s [line [rest [-> [Hl Hr]]]]].
  - exists [], []. repeat split. constructor.
  - destruct (is_line_terminator c) eqn:E.
    + exists [], (c :: line ++ rest). repeat split; [constructor | exact E].
    + exists (c :: line), rest. repeat split; [constructor; assumption | exact Hr].
Qed.

(** [(.+)] as the last item of a pattern captures what is left of the
    line, which is not empty. *)
Lemma capture_rest_of_line fl y e :
  matcher fl (Cap 1 (plus Dot)) Forward y Some = Some e →
  ∃ line rest, after y = line ++ rest ∧ line ≠ []
    ∧ Forall (λ ch, is_line_terminator ch = false) line ∧ line_end rest
    ∧ e = {| before := rev line ++ before y; after := rest;
             caps := <[1%nat := line]> (caps y) |}.
Proof.
  destruct y as [bef aft c]. cbn [before after caps matcher].
  destruct (split_line aft) as [line [rest [-> [Hline Hrest]]]].
  intros H. exists line, rest.
  assert (Hdot : ∀ x k', matcher fl Dot Forward x k'
                         = match_char (λ ch, negb (is_line_terminator ch)) Forward x k')
    by reflexivity.
  destruct line as [|ch line].
  - rewrite (plus_char_none fl Dot _ _ _ Hdot) in H; [discriminate|].
    cbn [after app]. destruct rest as [|a r]; [exact I|]. rewrite Hrest. reflexivity.
  - erewrite (plus_char_greedy fl Dot _ Hdot eq_refl (ch :: line) bef rest c) in H;
      [ | discriminate
        | eapply Forall_impl; [exact Hline | intros a Ha; simpl in Ha; rewrite Ha; reflexivity]
        | destruct rest as [|a r]; [exact I | rewrite Hrest; reflexivity]
        | reflexivity ].
    inversion H; subst e; clear H.
    split; [reflexivity|]. split; [discriminate|]. split; [exact Hline|].
    split; [exact Hrest|].
    unfold set_cap, text_between, pos. cbn [before after caps].
    change (rev line ++ [ch]) with (rev (ch :: line)).
    rewrite length_app, length_rev.
    replace (length bef <=? length (ch :: line) + length bef)%nat with true
      by (symmetry; apply Nat.leb_le; lia).
    replace (length (ch :: line) + length bef - length bef)%nat
      with (length (rev (ch :: line))) by (rewrite length_rev; lia).
    rewrite take_app_length, rev_involutive. reflexivity.
Qed.

(** A pattern [^literal Q(.+)] with the flag [i]: where it matches, what
    it reads first and what it captures. *)
Lemma anchored_capture fl (s : string) Q x e :
  ignoreCase fl = true →
  matcher fl (LineStart +++ lit s +++ Q +++ Cap 1 (plus Dot)) Forward x Some = Some e →
  at_line_start fl x = true
  ∧ ∃ aux y line rest,
      Forall2 eq_ci aux (js s)
      ∧ reach Forward {| before := rev aux ++ before x;
                         after := drop (length aux) (after x); caps := caps x |} y
      ∧ take (length aux) (after x) = aux
      ∧ after y = line ++ rest ∧ line ≠ []
      ∧ Forall (λ ch, is_line_terminator ch = false) line ∧ line_end rest
      ∧ e = {| before := rev line ++ before y; after := rest;
               caps := <[1%nat := line]> (caps y) |}.
Proof.
  intros Hi. cbn [matcher]. destruct (at_line_start fl x); [|discriminate].
  intros H. split; [reflexivity|].
  unfold lit in H. apply (literal_forward_inv fl _ Hi) in H as [aux [r [Hr [Haux H]]]].
  apply matcher_reaches in H as [y [Hy H]].
  apply capture_rest_of_line in H as [line [rest H]].
  exists aux, y, line, rest.
  rewrite Hr, drop_app_length, take_app_length. tauto.
Qed.

(** A match found by [find_match], with its end state. *)
Lemma find_match_span R out a :
  find_match R out = Some a →
  ∃ pre m0 post e, out = pre ++ m0 ++ post
    ∧ m_index a = Some (length pre)
    ∧ m_items a = Some m0 :: List.map (λ n, caps e !! n)
                               (seq 1 (length (groups (re_source R))))
    ∧ match_at (re_flags R) (re_source R)
        {| before := rev pre; after := m0 ++ post; caps := ∅ |} = Some e
    ∧ before e = rev m0 ++ rev pre ∧ after e = post.
Proof.
  unfold find_match. intros H.
  destruct (search (re_flags R) (re_source R) [] out) as [[start e]|] eqn:E;
    [|discriminate].
  cbn in H. inversion H; subst a; clear H.
  apply search_found in E as [pre [rest [-> [-> Hm]]]].
  rewrite app_nil_r in Hm. cbn [length Nat.add].
  pose proof Hm as Hreach. unfold match_at in Hreach.
  apply matcher_reaches in Hreach as [y [[l [Hafter Hbefore]] Hy]].
  inversion Hy; subst y; clear Hy. cbn [before after] in *.
  exists pre, l, (after e), e. subst rest.
  split; [reflexivity|]. split; [reflexivity|]. split; [|auto].
  unfold match_array, pos. cbn [m_items]. rewrite Hbefore.
  rewrite length_app, !length_rev.
  replace (length l + length pre - length pre)%nat with (length l) by lia.
  rewrite <- (length_rev l) at 1. rewrite take_app_length, rev_involutive.
  reflexivity.
Qed.

(** [find_match] reads the pattern and the flags of the object only. *)
Lemma find_match_same R R' out :
  re_source R = re_source R' → re_flags R = re_flags R' →
  find_match R out = find_match R' out.
Proof. unfold find_match. intros -> ->. reflexivity. Qed.

(** The command patterns of the table: each is the pattern of its rule
    again, of the form [^Claude wants to Q(.+)] with the flags [im]. *)
Lemma command_patterns_shape rule cp :
  rule ∈ PERMISSION_PATTERNS → commandPattern rule = Some cp →
  re_source cp = re_source (pattern rule) ∧ re_flags cp = re_flags (pattern rule)
  ∧ re_flags cp = flags_im ∧ groups (re_source cp) = [1%nat]
  ∧ operationName rule ∈ [js "bash command"; js "file modification"; js "file edit"]
  ∧ ∃ Q, ∀ x k,
      matcher flags_im (re_source cp) Forward x k
      = matcher flags_im
          (LineStart +++ lit "Claude wants to " +++ Q +++ Cap 1 (plus Dot)) Forward x k.
Proof.
  unfold PERMISSION_PATTERNS. rewrite !elem_of_cons, elem_of_nil.
  intros [-> | [-> | [-> | [-> | [-> | [-> | [-> | [-> | []]]]]]]]] H;
    cbn in H; inversion H; subst cp; clear H;
    (split; [reflexivity|]); (split; [reflexivity|]); (split; [reflexivity|]);
    (split; [reflexivity|]);
    (split; [cbn [operationName]; rewrite !list_elem_of_In; simpl; auto|]).
  - exists ((lit "run" |+| lit "execute") +++ colon_or_space). reflexivity.
  - exists ((lit "write" |+| lit "create" |+| lit "modify")
            +++ opt (lit " to") +++ colon_or_space).
    reflexivity.
  - exists (lit "edit" +++ colon_or_space). reflexivity.
Qed.

(** A match of a command pattern: it starts a line with 'Claude wants to '
    in any letter case, and group 1 holds the rest of a line of the
    output. *)
Lemma command_match_shape rule cp out a :
  rule ∈ PERMISSION_PATTERNS → commandPattern rule = Some cp →
  find_match cp out = Some a →
  ∃ pre head cap rest, out = pre ++ head ++ cap ++ rest
    ∧ m_index a = Some (length pre)
    ∧ m_item a 0 = Some (head ++ cap) ∧ m_item a 1 = Some cap
    ∧ line_start_after pre
    ∧ Forall2 eq_ci (take 16 head) (js "Claude wants to ")
    ∧ cap ≠ [] ∧ Forall (λ ch, is_line_terminator ch = false) cap ∧ line_end rest.
Proof.
  intros Hin Hcp Ha.
  destruct (command_patterns_shape _ _ Hin Hcp) as [_ [_ [Hfl [Hg [_ [Q HQ]]]]]].
  destruct (find_match_span _ _ _ Ha) as [pre [m0 [post [e [-> [Hi [Hitems [Hm [Hbe Hae]]]]]]]]].
  rewrite Hfl in Hm. unfold match_at in Hm. rewrite HQ in Hm.
  apply anchored_capture in Hm; [|reflexivity].
  destruct Hm as [Hstart [aux [y [line [rest [Haux [[l [Hl Hy]] [Htake [Hay [Hne [Hline [Hrest ->]]]]]]]]]]]].
  cbn [before after caps] in *. rewrite Hy in Hbe. subst rest.
  assert (Hm0 : m0 = (aux ++ l) ++ line).
  { rewrite !app_assoc in Hbe. apply app_inv_tail in Hbe.
    rewrite <- !rev_app_distr in Hbe. apply (f_equal (@rev N)) in Hbe.
    rewrite !rev_involutive in Hbe. rewrite <- Hbe, app_assoc. reflexivity. }
  subst m0. exists pre, (aux ++ l), line, post.
  split; [rewrite <- !app_assoc; reflexivity|]. split; [exact Hi|].
  unfold m_item. rewrite Hitems, Hg. cbn. rewrite lookup_insert_eq.
  assert (Hlen : length aux = 16%nat) by (apply Forall2_length in Haux; exact Haux).
  repeat split; try assumption.
  - unfold line_start_after. unfold at_line_start in Hstart. cbn [before] in Hstart.
    destruct (rev pre) as [|c r]; [exact I|].
    apply andb_true_iff in Hstart. tauto.
  - rewrite <- Hlen, take_app_length. exact Haux.
Qed.

(** * Further properties of [detect] *)

(** The three ways [detect] ends. *)
Lemma detect_cases input σ :
  (detect input σ).1 = not_blocked
  ∨ (∃ rule, rule ∈ PERMISSION_PATTERNS
       ∧ matches (pattern rule) (combined input) = true
       ∧ (detect input σ).1 = rule_result rule (combined input))
  ∨ (∃ ind, ind ∈ BLOCKED_INDICATORS
       ∧ matches ind (combined input) = true
       ∧ (detect input σ).1 = indicator_result ind (combined input)).
Proof.
  unfold detect. destruct (other_agent (agentId input)); [left; reflexivity|].
  rewrite classify_first_match. cbn [fst]. unfold first_match_result.
  destruct (List.find (λ rule, matches (pattern rule) (combined input)) PERMISSION_PATTERNS)
    as [rule|] eqn:Ep.
  - right. left. apply List.find_some in Ep as [Hin Hm].
    exists rule. rewrite list_elem_of_In. auto.
  - destruct (List.find (λ ind, matches ind (combined input)) BLOCKED_INDICATORS)
      as [ind|] eqn:Ei; [|left; reflexivity].
    right. right. apply List.find_some in Ei as [Hin Hm].
    exists ind. rewrite list_elem_of_In. auto.
Qed.

Lemma matches_find_match R out :
  matches R out = true → ∃ a, find_match R out = Some a.
Proof. unfold matches. intros H. apply bool_decide_eq_true in H. exact H. Qed.

(** [trim] cuts white space off both ends and nothing else. *)
Lemma trim_start_spec s :
  ∃ a, s = a ++ trim_start s ∧ blank a ∧ ink_first (trim_start s).
Proof.
  induction s as [|c s [a [Hs [Ha Hi]]]].
  - exists []. repeat split. constructor.
  - cbn [trim_start]. destruct (is_space c) eqn:E.
    + exists (c :: a). split; [cbn; rewrite <- Hs; reflexivity|].
      split; [constructor; assumption | exact Hi].
    + exists []. repeat split; [constructor | exact E].
Qed.

Lemma trim_end_spec s :
  ∃ b, s = trim_end s ++ b ∧ blank b ∧ ink_first (rev (trim_end s)).
Proof.
  unfold trim_end. destruct (trim_start_spec (rev s)) as [a [Hs [Ha Hi]]].
  exists (rev a). rewrite rev_involutive. split; [|split; [|exact Hi]].
  - apply (f_equal (@rev N)) in Hs. rewrite rev_involutive, rev_app_distr in Hs. exact Hs.
  - unfold blank in *. apply Forall_rev. exact Ha.
Qed.

Lemma trim_spec s :
  ∃ a b, s = a ++ trim s ++ b ∧ blank a ∧ blank b
    ∧ ink_first (trim s) ∧ ink_first (rev (trim s)).
Proof.
  unfold trim. destruct (trim_start_spec s) as [a [Hs [Ha Hi]]].
  destruct (trim_end_spec (trim_start s)) as [b [Ht [Hb Hl]]].
  exists a, b. split; [rewrite <- Ht; exact Hs|]. repeat split; try assumption.
  destruct (trim_end (trim_start s)) as [|h t] eqn:E; [exact I|].
  rewrite Ht in Hi. exact Hi.
Qed.

Lemma trim_Forall (P : N → Prop) s : Forall P s → Forall P (trim s).
Proof.
  intros H. destruct (trim_spec s) as [a [b [Hs _]]].
  rewrite Hs in H. rewrite !Forall_app in H. tauto.
Qed.

(** What [detect] returns as the command, with where it comes from. *)
Lemma blocked_command_shape input σ cmd :
  blockedCommand (detect input σ).1 = Some cmd →
  ∃ rule pre head cap rest,
    rule ∈ PERMISSION_PATTERNS
    ∧ (detect input σ).1 = rule_result rule (combined input)
    ∧ operationName rule ∈ command_operations
    ∧ combined input = pre ++ head ++ cap ++ rest
    ∧ line_start_after pre
    ∧ cap ≠ [] ∧ Forall (λ ch, is_line_terminator ch = false) cap ∧ line_end rest
    ∧ cmd = ellipsis_at 100 (trim cap).
Proof.
  destruct (detect_cases input σ) as [H | [[rule [Hin [Hm H]]] | [ind [_ [_ H]]]]];
    rewrite H; cbn [blockedCommand not_blocked rule_result indicator_result];
    try discriminate.
  destruct (commandPattern rule) as [cp|] eqn:Hcp; [|discriminate].
  cbn [mbind option_bind]. intros Hcmd.
  destruct (find_match cp (combined input)) as [a|] eqn:Ha; [|discriminate].
  destruct (command_match_shape _ _ _ _ Hin Hcp Ha)
    as [pre [head [cap [rest [Hout [_ [_ [H1 [Hpre [_ [Hne [Hcap Hrest]]]]]]]]]]]].
  destruct (command_patterns_shape _ _ Hin Hcp) as [_ [_ [_ [_ [Hop _]]]]].
  exists rule, pre, head, cap, rest.
  repeat split; try assumption.
  unfold command_of_match in Hcmd. rewrite H1 in Hcmd.
  destruct cap as [|c t]; [congruence|].
  inversion Hcmd; subst cmd; clear Hcmd. unfold ellipsis_at.
  destruct (100 <? length (trim (c :: t)))%nat eqn:E; [|reflexivity].
  apply Nat.ltb_lt in E. change 100%Z with (Z.of_nat 100).
  rewrite slice_prefix by lia. reflexivity.
Qed.

(** X1: a returned command is text of the output: the rest of a line
    (never empty, up to the next line terminator or the end), trimmed, and
    cut to its first 100 characters plus '...' when longer. *)
Theorem blocked_command_is_line_tail input σ cmd :
  blockedCommand (detect input σ).1 = Some cmd →
  ∃ pre cap rest,
    combined input = pre ++ cap ++ rest
    ∧ cap ≠ [] ∧ Forall (λ ch, is_line_terminator ch = false) cap ∧ line_end rest
    ∧ cmd = ellipsis_at 100 (trim cap).
Proof.
  intros H. apply blocked_command_shape in H
    as [rule [pre [head [cap [rest [_ [_ [_ [Hout [_ [Hne [Hcap [Hrest Hcmd]]]]]]]]]]]]].
  exists (pre ++ head), cap, rest. rewrite <- app_assoc. auto.
Qed.

Lemma blocked_command_is_line_tail_witness :
  ∃ pre cap rest,
    combined write_prompt_input = pre ++ cap ++ rest
    ∧ cap ≠ [] ∧ Forall (λ ch, is_line_terminator ch = false) cap ∧ line_end rest
    ∧ js "src/new file.ts" = ellipsis_at 100 (trim cap).
Proof.
  apply (blocked_command_is_line_tail write_prompt_input ∅).
  vm_compute. reflexivity.
Defined.

(** X2: a returned command holds no line terminator, does not start with
    white space, and has at most 103 characters; past 100 characters it is
    100 characters followed by '...'. *)
Theorem blocked_command_format input σ cmd :
  blockedCommand (detect input σ).1 = Some cmd →
  Forall (λ ch, is_line_terminator ch = false) cmd
  ∧ ink_first cmd
  ∧ (length cmd ≤ 103)%nat
  ∧ ((100 < length cmd)%nat →
     ∃ body, cmd = body ++ js "..." ∧ length body = 100%nat).
Proof.
  intros H. apply blocked_command_shape in H
    as [rule [pre [head [cap [rest [_ [_ [_ [_ [_ [_ [Hcap [_ ->]]]]]]]]]]]]].
  pose proof (trim_Forall _ _ Hcap) as Ht.
  destruct (trim_spec cap) as [a [b [_ [_ [_ [Hi _]]]]]].
  unfold ellipsis_at.
  destruct (100 <? length (trim cap))%nat eqn:E.
  - apply Nat.ltb_lt in E. split; [|split; [|split]].
    + apply Forall_app. split; [apply Forall_take; exact Ht|].
      repeat constructor.
    + destruct (trim cap) as [|h t]; [simpl in E; lia | exact Hi].
    + rewrite length_app, length_take. change (length (js "...")) with 3%nat. lia.
    + intros _. exists (take 100 (trim cap)). split; [reflexivity|].
      rewrite length_take. lia.
  - apply Nat.ltb_ge in E. split; [exact Ht|]. split; [exact Hi|]. split; lia.
Qed.

Lemma blocked_command_format_witness :
  Forall (λ ch, is_line_terminator ch = false) (repeat (chr "a") 100 ++ js "...")
  ∧ ink_first (repeat (chr "a") 100 ++ js "...")
  ∧ (length (repeat (chr "a") 100 ++ js "...") ≤ 103)%nat
  ∧ ((100 < length (repeat (chr "a") 100 ++ js "..."))%nat →
     ∃ body, repeat (chr "a") 100 ++ js "..." = body ++ js "..."
             ∧ length body = 100%nat).
Proof.
  apply (blocked_command_format long_command_input ∅).
  vm_compute. reflexivity.
Defined.

Lemma command_operation_has_pattern rule :
  rule ∈ PERMISSION_PATTERNS → operationName rule ∈ command_operations →
  ∃ cp, commandPattern rule = Some cp.
Proof.
  unfold PERMISSION_PATTERNS, command_operations.
  rewrite !elem_of_cons, elem_of_nil.
  intros [-> | [-> | [-> | [-> | [-> | [-> | [-> | [-> | []]]]]]]]] H;
    try (eexists; reflexivity);
    cbn [operationName] in H; rewrite list_elem_of_In in H; simpl in H;
    destruct H as [H | [H | [H | []]]]; vm_compute in H; discriminate.
Qed.

Lemma blocked_operation_not_command :
  js "blocked operation" ∉ command_operations.
Proof.
  unfold command_operations. rewrite list_elem_of_In. simpl.
  intros [H | [H | [H | []]]]; vm_compute in H; discriminate.
Qed.

(** X3: a result with one of the three 'Claude wants to ...' operations
    comes from a match at the start of a line (the start of the output or
    right after a line terminator) that begins with 'Claude wants to ' in
    any letter case, and the message is the context of that match. *)
Theorem prompt_rules_match_line_start input σ op :
  operation (detect input σ).1 = Some op → op ∈ command_operations →
  ∃ pre m0 post,
    combined input = pre ++ m0 ++ post
    ∧ line_start_after pre
    ∧ Forall2 eq_ci (take 16 m0) (js "Claude wants to ")
    ∧ message (detect input σ).1
      = Some (ellipsis_at 150 (squeeze (trim (context_window pre m0 post)))).
Proof.
  intros Hop Hin.
  destruct (detect_cases input σ) as [H | [[rule [Hr [Hm H]]] | [ind [_ [_ H]]]]];
    rewrite H in *; cbn [operation message not_blocked rule_result indicator_result] in *.
  - discriminate.
  - inversion Hop; subst op; clear Hop.
    destruct (command_operation_has_pattern _ Hr Hin) as [cp Hcp].
    destruct (command_patterns_shape _ _ Hr Hcp) as [Hsrc [Hfl _]].
    destruct (matches_find_match _ _ Hm) as [a Ha].
    pose proof Ha as Ha'. rewrite <- (find_match_same cp _ _ Hsrc Hfl) in Ha'.
    destruct (command_match_shape _ _ _ _ Hr Hcp Ha')
      as [pre [head [cap [rest [Hout [Hi [H0 [_ [Hpre [Hlit _]]]]]]]]]].
    exists pre, (head ++ cap), rest.
    split; [rewrite <- app_assoc; exact Hout|]. split; [exact Hpre|]. split.
    + assert (Hlen : (16 ≤ length head)%nat).
      { apply Forall2_length in Hlit. rewrite length_take in Hlit.
        change (length (js "Claude wants to ")) with 16%nat in Hlit. lia. }
      rewrite take_app_le by exact Hlen. exact Hlit.
    + rewrite Ha. f_equal.
      replace (combined input) with (pre ++ (head ++ cap) ++ rest)
        by (rewrite Hout, <- app_assoc; reflexivity).
      apply message_of_match_window; assumption.
  - inversion Hop; subst op. exfalso. exact (blocked_operation_not_command Hin).
Qed.

Lemma prompt_rules_match_line_start_witness :
  ∃ pre m0 post,
    combined write_prompt_input = pre ++ m0 ++ post
    ∧ line_start_after pre
    ∧ Forall2 eq_ci (take 16 m0) (js "Claude wants to ")
    ∧ message (detect write_prompt_input ∅).1
      = Some (ellipsis_at 150 (squeeze (trim (context_window pre m0 post)))).
Proof.
  apply (prompt_rules_match_line_start write_prompt_input ∅ (js "file modification")).
  - vm_compute. reflexivity.
  - unfold command_operations. rewrite !elem_of_cons. auto.
Defined.

(** X4: a blocked result carries a command exactly when its operation is
    one of 'bash command', 'file modification' and 'file edit'. *)
Theorem command_iff_prompt_rule input σ :
  isBlocked (detect input σ).1 = true →
  (is_Some (blockedCommand (detect input σ).1)
   ↔ ∃ op, operation (detect input σ).1 = Some op ∧ op ∈ command_operations).
Proof.
  intros Hb. split.
  - intros [cmd Hcmd].
    apply blocked_command_shape in Hcmd as [rule [_ [_ [_ [_ [_ [H [Hop _]]]]]]]].
    exists (operationName rule). rewrite H. split; [reflexivity | exact Hop].
  - intros [op [Hop Hin]].
    destruct (detect_cases input σ) as [H | [[rule [Hr [Hm H]]] | [ind [_ [_ H]]]]];
      rewrite H in *; cbn [operation blockedCommand not_blocked rule_result indicator_result] in *.
    + discriminate.
    + inversion Hop; subst op; clear Hop.
      destruct (command_operation_has_pattern _ Hr Hin) as [cp Hcp].
      destruct (command_patterns_shape _ _ Hr Hcp) as [Hsrc [Hfl _]].
      destruct (matches_find_match _ _ Hm) as [a Ha].
      rewrite <- (find_match_same cp _ _ Hsrc Hfl) in Ha.
      destruct (command_match_shape _ _ _ _ Hr Hcp Ha)
        as [pre [head [cap [rest [_ [_ [_ [H1 [_ [_ [Hne _]]]]]]]]]]].
      rewrite Hcp. cbn [mbind option_bind]. rewrite Ha.
      unfold command_of_match. rewrite H1.
      destruct cap as [|c t]; [congruence|]. eexists. reflexivity.
    + inversion Hop; subst op. exfalso. exact (blocked_operation_not_command Hin).
Qed.

Lemma command_iff_prompt_rule_witness :
  is_Some (blockedCommand (detect write_prompt_input ∅).1)
  ↔ ∃ op, operation (detect write_prompt_input ∅).1 = Some op
          ∧ op ∈ command_operations.
Proof.
  apply (command_iff_prompt_rule write_prompt_input ∅).
  vm_compute. reflexivity.
Defined.

Lemma in_class_colon_or_space ch :
  in_class flags_im false [CChar (chr ":"); CSpace] ch = colon_or_white ch.
Proof.
  unfold in_class, colon_or_white. cbn [existsb in_item xorb].
  rewrite orb_false_r. f_equal.
  unfold canonicalize. cbn [ignoreCase flags_im].
  change (to_upper (chr ":")) with 58. change (chr ":") with 58.
  unfold to_upper. destruct ((97 <=? ch) && (ch <=? 122)) eqn:E.
  - apply andb_true_iff in E as [E1 E2]. apply N.leb_le in E1, E2.
    destruct (N.eqb_spec 58 (ch - 32)), (N.eqb_spec ch 58); try reflexivity; lia.
  - rewrite N.eqb_sym. reflexivity.
Qed.

Lemma line_terminator_is_space ch : is_line_terminator ch = true → is_space ch = true.
Proof. unfold is_space. intros ->. apply orb_true_r. Qed.

(** [(.+)] succeeds wherever the line goes on. *)
Lemma capture_succeeds fl bef c rest caps0 :
  is_line_terminator c = false →
  is_Some (matcher fl (Cap 1 (plus Dot)) Forward
             {| before := bef; after := c :: rest; caps := caps0 |} Some).
Proof.
  intros Hc. cbn [matcher].
  destruct (split_line rest) as [line [rest' [-> [Hline Hrest]]]].
  eexists.
  apply (plus_char_greedy fl Dot (λ ch, negb (is_line_terminator ch))
           (λ x k', eq_refl) eq_refl (c :: line) bef rest' caps0).
  - discriminate.
  - constructor; [rewrite Hc; reflexivity|].
    eapply Forall_impl; [exact Hline | intros a Ha; simpl in Ha; rewrite Ha; reflexivity].
  - destruct rest' as [|a r]; [exact I | rewrite Hrest; reflexivity].
  - reflexivity.
Qed.

(** ** What a match reads *)

Lemma has_ink_app_l l k : has_ink l → has_ink (l ++ k).
Proof. intros [c [Hc E]]. exists c. split; [apply elem_of_app; auto | exact E]. Qed.

Lemma has_ink_app_r l k : has_ink k → has_ink (l ++ k).
Proof. intros [c [Hc E]]. exists c. split; [apply elem_of_app; auto | exact E]. Qed.

Lemma reach_ink_then d x y z : reach_ink d x y → reach d y z → reach_ink d x z.
Proof.
  destruct d; intros [l [H1 [H2 Hi]]] [l' [H3 H4]]; exists (l ++ l');
    rewrite H1, H3, H4, H2, rev_app_distr, <- !app_assoc;
    (split; [reflexivity|]); (split; [reflexivity|]); apply has_ink_app_l, Hi.
Qed.

Lemma reach_then_ink d x y z : reach d x y → reach_ink d y z → reach_ink d x z.
Proof.
  destruct d; intros [l [H1 H2]] [l' [H3 [H4 Hi]]]; exists (l ++ l');
    rewrite H1, H3, H4, H2, rev_app_distr, <- !app_assoc;
    (split; [reflexivity|]); (split; [reflexivity|]); apply has_ink_app_r, Hi.
Qed.

Lemma advance_reach_ink d x c y :
  advance d x = Some (c, y) → is_space c = false → reach_ink d x y.
Proof.
  destruct d; unfold advance; intros H Hc.
  - destruct (after x) as [|c' r] eqn:E; [discriminate|].
    inversion H; subst; clear H. exists [c]. simpl. rewrite E.
    repeat split. exists c. split; [constructor | exact Hc].
  - destruct (before x) as [|c' r] eqn:E; [discriminate|].
    inversion H; subst; clear H. exists [c]. simpl. rewrite E.
    repeat split. exists c. split; [constructor | exact Hc].
Qed.

(** A pattern that needs a character other than white space reads one in
    every match. *)
Lemma matcher_reads_ink fl r :
  ∀ d x k e, needs_ink r = true → matcher fl r d x k = Some e →
    ∃ y, reach_ink d x y ∧ k y = Some e.
Proof.
  induction r as [ | c | | inv items | a IHa b IHb | a IHa b IHb
                 | min max greedy a IHa | n a IHa | | | a IHa ];
    intros d x k e Hink; simpl in Hink; try discriminate; cbn [matcher].
  - unfold match_char. destruct (advance d x) as [[ch y]|] eqn:E; [|discriminate].
    destruct (canonicalize fl ch =? canonicalize fl c) eqn:Ec; [|discriminate].
    intros H. exists y. split; [|exact H].
    apply (advance_reach_ink _ _ _ _ E).
    destruct (is_space ch) eqn:Es; [|reflexivity].
    apply negb_true_iff in Hink.
    rewrite (canonicalize_space_ink fl _ _ Es Hink) in Ec. discriminate.
  - apply orb_true_iff in Hink. destruct d; intros H.
    + destruct (needs_ink a) eqn:Ea.
      * apply IHa in H as [y [Hy H]]; [|reflexivity].
        apply matcher_reaches in H as [z [Hz H]].
        exists z. split; [eapply reach_ink_then; eauto | exact H].
      * destruct Hink as [|Hb]; [discriminate|].
        apply matcher_reaches in H as [y [Hy H]].
        apply IHb in H as [z [Hz H]]; [|exact Hb].
        exists z. split; [eapply reach_then_ink; eauto | exact H].
    + destruct (needs_ink b) eqn:Eb.
      * apply IHb in H as [y [Hy H]]; [|reflexivity].
        apply matcher_reaches in H as [z [Hz H]].
        exists z. split; [eapply reach_ink_then; eauto | exact H].
      * destruct Hink as [Ha|]; [|discriminate].
        apply matcher_reaches in H as [y [Hy H]].
        apply IHa in H as [z [Hz H]]; [|exact Ha].
        exists z. split; [eapply reach_then_ink; eauto | exact H].
  - apply andb_true_iff in Hink as [Ha Hb]. intros H.
    apply or_else_some in H as [H | H]; [apply IHa | apply IHb]; assumption.
  - apply andb_true_iff in Hink as [Hink Ha].
    apply andb_true_iff in Hink as [Hmin Hmax].
    apply negb_true_iff, bool_decide_eq_false in Hmax.
    rewrite Nat.add_1_r. cbn [repeat_matcher]. rewrite Hmin.
    intros H.
    assert (Hbody : ∃ y, reach_ink d x y
      ∧ repeat_matcher (matcher fl a d) (groups a) greedy k
          (min + length (subject x)) (Nat.pred min) (Nat.pred <$> max) y = Some e).
    { destruct max as [[|m]|]; [congruence | |];
        apply IHa in H as [y [Hy H]]; try exact Ha;
        apply negb_true_iff in Hmin; rewrite Hmin in H; cbn [andb] in H;
        exists y; (split; [exact Hy | exact H]). }
    destruct Hbody as [y [Hy Hrep]].
    apply (repeat_matcher_reaches d) in Hrep as [z [Hz Hk]];
      [|intros; apply (matcher_reaches fl a); assumption].
    exists z. split; [eapply reach_ink_then; eauto | exact Hk].
  - intros H. apply IHa in H as [y [Hy H]]; [|exact Hink].
    exists (set_cap n (text_between x y) y). split; [exact Hy | exact H].
Qed.

(** The text of a match of a pattern that needs it has a character that
    is not white space. *)
Lemma find_match_has_ink R out a :
  needs_ink (re_source R) = true → find_match R out = Some a →
  ∃ pre m0 post, out = pre ++ m0 ++ post
    ∧ m_index a = Some (length pre) ∧ m_item a 0 = Some m0 ∧ has_ink m0.
Proof.
  intros Hink Ha.
  destruct (find_match_span _ _ _ Ha) as [pre [m0 [post [e [Hout [Hi [Hitems [Hm [Hbe Hae]]]]]]]]].
  exists pre, m0, post. split; [exact Hout|]. split; [exact Hi|].
  split; [unfold m_item; rewrite Hitems; reflexivity|].
  unfold match_at in Hm.
  apply (matcher_reads_ink _ _ _ _ _ _ Hink) in Hm as [y [[l [Hl [Hy Hli]]] Hk]].
  inversion Hk; subst y; clear Hk. cbn [before after] in *.
  rewrite Hbe in Hy. apply app_inv_tail in Hy.
  apply (f_equal (@rev N)) in Hy. rewrite !rev_involutive in Hy. subst l. exact Hli.
Qed.

(** ** The form of the message *)

Lemma has_ink_trim w : has_ink w → has_ink (trim w).
Proof.
  intros [c [Hc E]]. destruct (trim_spec w) as [a [b [Hw [Ha [Hb _]]]]].
  rewrite Hw in Hc. apply elem_of_app in Hc as [Hc | Hc].
  - unfold blank in Ha. rewrite Forall_forall in Ha. apply Ha in Hc. congruence.
  - apply elem_of_app in Hc as [Hc | Hc]; [exists c; auto|].
    unfold blank in Hb. rewrite Forall_forall in Hb. apply Hb in Hc. congruence.
Qed.

Lemma squeeze_from_keeps_ink_elem b s c :
  c ∈ s → is_space c = false → c ∈ squeeze_from b s.
Proof.
  intros Hc E.
  assert (H : c ∈ List.filter (λ c, negb (is_space c)) s).
  { apply list_elem_of_In, List.filter_In. split; [apply list_elem_of_In, Hc|].
    rewrite E. reflexivity. }
  rewrite <- (squeeze_keeps_ink b) in H.
  apply list_elem_of_In, List.filter_In in H as [H _]. apply list_elem_of_In. exact H.
Qed.

Lemma squeeze_head s : ink_first s → ink_first (squeeze s).
Proof.
  destruct s as [|h t]; [intros; exact I|]. intros H.
  unfold squeeze. cbn [squeeze_from]. rewrite H. exact H.
Qed.

Lemma single_spaced_cons a s :
  single_spaced (a :: s) = true → single_spaced s = true.
Proof. destruct s as [|b t]; [reflexivity|]. cbn. rewrite andb_true_iff. tauto. Qed.

Lemma single_spaced_take n : ∀ s, single_spaced s = true → single_spaced (take n s) = true.
Proof.
  induction n as [|n IH]; intros [|a s] H; try reflexivity.
  cbn [take]. pose proof (IH s (single_spaced_cons _ _ H)) as Ht.
  destruct s as [|b t]; [destruct n; reflexivity|].
  destruct n as [|n]; [reflexivity|]. cbn [take] in *.
  change (single_spaced (a :: b :: take n t))
    with (negb (is_space a && is_space b) && single_spaced (b :: take n t)).
  change (single_spaced (a :: b :: t))
    with (negb (is_space a && is_space b) && single_spaced (b :: t)) in H.
  apply andb_true_iff in H as [H _]. rewrite H, Ht. reflexivity.
Qed.

Lemma single_spaced_app_ink k : ink_first k → single_spaced k = true →
  ∀ s, single_spaced s = true → single_spaced (s ++ k) = true.
Proof.
  intros Hk Hsk. induction s as [|a s IH]; intros H; [exact Hsk|].
  pose proof (IH (single_spaced_cons _ _ H)) as Ht.
  destruct s as [|b t].
  - cbn [app]. destruct k as [|h t]; [reflexivity|].
    change (single_spaced (a :: h :: t))
      with (negb (is_space a && is_space h) && single_spaced (h :: t)).
    rewrite Hk, andb_false_r, Hsk. reflexivity.
  - cbn [app] in *.
    change (single_spaced (a :: b :: t ++ k))
      with (negb (is_space a && is_space b) && single_spaced (b :: t ++ k)).
    change (single_spaced (a :: b :: t))
      with (negb (is_space a && is_space b) && single_spaced (b :: t)) in H.
    apply andb_true_iff in H as [H _]. rewrite H, Ht. reflexivity.
Qed.

(** The text [extractMessage] builds around a match that has ink. *)
Lemma clean_text_form w :
  has_ink w →
  let m := ellipsis_at 150 (squeeze (trim w)) in
  m ≠ [] ∧ ink_first m ∧ single_spaced m = true
  ∧ (∀ c, c ∈ m → is_space c = true → c = 32).
Proof.
  intros Hw. cbv zeta.
  pose proof (has_ink_trim _ Hw) as [c [Hc Ec]].
  pose proof (squeeze_from_keeps_ink_elem false _ _ Hc Ec) as Hsq.
  fold (squeeze (trim w)) in Hsq.
  destruct (trim_spec w) as [_ [_ [_ [_ [_ [Hhead _]]]]]].
  apply squeeze_head in Hhead.
  pose proof (squeeze_from_single_spaced false (trim w)) as Hss.
  fold (squeeze (trim w)) in Hss.
  assert (Hblank : ∀ c, c ∈ squeeze (trim w) → is_space c = true → c = 32)
    by (intros c'; apply squeeze_from_space_is_blank).
  unfold ellipsis_at.
  destruct (squeeze (trim w)) as [|h t] eqn:E; [inversion Hsq|].
  destruct (150 <? length (h :: t))%nat.
  - split; [|split; [|split]].
    + intros Hnil. apply (f_equal length) in Hnil. rewrite length_app in Hnil.
      change (length (js "...")) with 3%nat in Hnil. simpl in Hnil. lia.
    + change (take 150 (h :: t)) with (h :: take 149 t). cbn [app]. exact Hhead.
    + apply (single_spaced_app_ink (js "...")); [reflexivity | reflexivity|].
      apply (single_spaced_take 150 (h :: t)), Hss.
    + intros c' Hc' Es.
      apply elem_of_app in Hc' as [Hc' | Hc'].
      * apply Hblank; [|exact Es]. exact (subseteq_take 150 (h :: t) c' Hc').
      * exfalso. revert Es. apply list_elem_of_In in Hc'. simpl in Hc'.
        destruct Hc' as [<- | [<- | [<- | []]]]; discriminate.
  - split; [discriminate|]. split; [exact Hhead|]. split; [exact Hss | exact Hblank].
Qed.

(** X5: the message of a blocked result is never empty, starts with a
    character that is not white space, and has single U+0020 spaces as
    its only white space (no tab, no line break, no run of spaces). *)
Theorem message_is_one_clean_line input σ :
  isBlocked (detect input σ).1 = true →
  ∃ m, message (detect input σ).1 = Some m
    ∧ m ≠ [] ∧ ink_first m ∧ single_spaced m = true
    ∧ (∀ c, c ∈ m → is_space c = true → c = 32).
Proof.
  intros Hb.
  assert (Hall : ∀ R, matches R (combined input) = true →
            needs_ink (re_source R) = true →
            ∃ w, has_ink w
              ∧ message_of_match (combined input) (find_match R (combined input))
                = ellipsis_at 150 (squeeze (trim w))).
  { intros R Hm Hink. destruct (matches_find_match _ _ Hm) as [a Ha].
    destruct (find_match_has_ink _ _ _ Hink Ha) as [pre [m0 [post [Hout [Hi [H0 Hm0]]]]]].
    exists (context_window pre m0 post). split.
    - unfold context_window. apply has_ink_app_r, has_ink_app_l, Hm0.
    - rewrite Ha. rewrite Hout at 1. apply message_of_match_window; assumption. }
  destruct tables_need_ink as [Hp Hi]. rewrite forallb_forall in Hp, Hi.
  destruct (detect_cases input σ) as [H | [[rule [Hr [Hm H]]] | [ind [Hr [Hm H]]]]];
    rewrite H in *; cbn [isBlocked message not_blocked rule_result indicator_result] in *.
  - discriminate.
  - destruct (Hall _ Hm (Hp rule (proj1 (list_elem_of_In _ _) Hr))) as [w [Hw ->]].
    eexists. split; [reflexivity | apply clean_text_form, Hw].
  - destruct (Hall _ Hm (Hi ind (proj1 (list_elem_of_In _ _) Hr))) as [w [Hw ->]].
    eexists. split; [reflexivity | apply clean_text_form, Hw].
Qed.

Lemma message_is_one_clean_line_witness :
  message (detect ragged_input ∅).1
  = Some (js "k Process is awaiting response ...")
  ∧ ∃ m, message (detect ragged_input ∅).1 = Some m
    ∧ m ≠ [] ∧ ink_first m ∧ single_spaced m = true
    ∧ (∀ c, c ∈ m → is_space c = true → c = 32).
Proof.
  split; [vm_compute; reflexivity|].
  apply (message_is_one_clean_line ragged_input ∅).
  vm_compute. reflexivity.
Defined.

(** ** Whole words *)

Lemma canonicalize_word fl a c :
  canonicalize fl a = canonicalize fl c → is_word a = is_word c.
Proof.
  unfold canonicalize. destruct (ignoreCase fl); [|intros ->; reflexivity].
  unfold to_upper, is_word. intros H.
  destruct ((97 <=? a) && (a <=? 122)) eqn:Ea, ((97 <=? c) && (c <=? 122)) eqn:Ec.
  - assert (a = c) as -> by (apply andb_true_iff in Ea as [? ?], Ec as [? ?];
      rewrite N.leb_le in *; lia). reflexivity.
  - subst c. apply andb_true_iff in Ea as [E1 E2]. rewrite N.leb_le in *.
    replace ((65 <=? a - 32) && (a - 32 <=? 90)) with true
      by (symmetry; apply andb_true_iff; rewrite !N.leb_le; lia).
    rewrite orb_true_r. reflexivity.
  - subst a. apply andb_true_iff in Ec as [E1 E2]. rewrite N.leb_le in *.
    replace ((65 <=? c - 32) && (c - 32 <=? 90)) with true
      by (symmetry; apply andb_true_iff; rewrite !N.leb_le; lia).
    rewrite orb_true_r. reflexivity.
  - subst c. reflexivity.
Qed.

Lemma starts_word_reads fl r :
  ∀ x k e, starts_word r = true → matcher fl r Forward x k = Some e →
    match after x with c :: _ => is_word c = true | [] => False end.
Proof.
  induction r as [ | c | | inv items | a IHa b IHb | a IHa b IHb
                 | min max greedy a IHa | n a IHa | | | a IHa ];
    intros x k e Hs; simpl in Hs; try discriminate; cbn [matcher].
  - unfold match_char, advance. destruct (after x) as [|ch r]; [discriminate|].
    destruct (canonicalize fl ch =? canonicalize fl c) eqn:E; [|discriminate].
    intros _. apply N.eqb_eq, canonicalize_word in E. rewrite E. exact Hs.
  - intros H. eapply IHa; eauto.
  - apply andb_true_iff in Hs as [Ha Hb]. intros H.
    apply or_else_some in H as [H | H]; [eapply IHa | eapply IHb]; eauto.
  - intros H. eapply IHa; eauto.
Qed.

Lemma only_lookbehinds_skip fl r :
  ∀ x k e, only_lookbehinds r = true → matcher fl r Forward x k = Some e →
    k x = Some e.
Proof.
  induction r as [ | c | | inv items | a IHa b IHb | | | | | | a _ ];
    intros x k e Hs; simpl in Hs; try discriminate; cbn [matcher].
  - apply andb_true_iff in Hs as [Ha Hb]. intros H.
    apply (IHa _ _ _ Ha) in H. apply (IHb _ _ _ Hb) in H. exact H.
  - destruct (matcher fl a Backward x Some); [discriminate | auto].
Qed.

Lemma starts_at_boundary_sound fl r :
  ∀ x k e, starts_at_boundary r = true → matcher fl r Forward x k = Some e →
    match before x with c :: _ => is_word c = false | [] => True end.
Proof.
  induction r as [ | c | | inv items | a _ b IHb | | | | | | ];
    intros x k e Hs; simpl in Hs; try discriminate.
  assert (Hskip : only_lookbehinds a && starts_at_boundary b = true →
            matcher fl (a +++ b) Forward x k = Some e →
            match before x with c :: _ => is_word c = false | [] => True end).
  { intros Hab H. apply andb_true_iff in Hab as [Ha Hb]. cbn [matcher] in H.
    apply (only_lookbehinds_skip fl a _ _ _ Ha) in H. exact (IHb _ _ _ Hb H). }
  destruct a; try (apply Hskip; exact Hs).
  cbn [matcher]. destruct (at_word_boundary x) eqn:Eb; [|discriminate].
  intros H. apply (starts_word_reads fl b _ _ _ Hs) in H.
  unfold at_word_boundary in Eb.
  destruct (after x) as [|c r]; [contradiction|]. rewrite H in Eb.
  destruct (before x) as [|p l]; [exact I|].
  destruct (is_word p); [discriminate | reflexivity].
Qed.

Lemma ends_word_reads fl r :
  ∀ x k e, ends_word r = true → matcher fl r Forward x k = Some e →
    ∃ y, reach Forward x y ∧ k y = Some e
      ∧ match before y with c :: _ => is_word c = true | [] => False end.
Proof.
  induction r as [ | c | | inv items | a IHa b IHb | a IHa b IHb
                 | min max greedy a IHa | n a IHa | | | a IHa ];
    intros x k e He; simpl in He; try discriminate.
  - cbn [matcher]. unfold match_char.
    destruct (advance Forward x) as [[ch y]|] eqn:E; [|discriminate].
    destruct (canonicalize fl ch =? canonicalize fl c) eqn:Ec; [|discriminate].
    intros H. exists y. split; [eapply reach_advance; eauto|]. split; [exact H|].
    apply N.eqb_eq, canonicalize_word in Ec.
    unfold advance in E. destruct (after x) as [|c' r]; [discriminate|].
    inversion E; subst. cbn [before]. rewrite Ec. exact He.
  - cbn [matcher]. intros H.
    assert (Hb : ends_word b = true →
              ∃ y, reach Forward x y ∧ k y = Some e
                ∧ match before y with c :: _ => is_word c = true | [] => False end).
    { intros Hb. apply matcher_reaches in H as [y [Hy H]].
      apply (IHb _ _ _ Hb) in H as [z [Hz [H Hw]]].
      exists z. split; [eapply reach_trans; eauto | auto]. }
    destruct b; try (apply Hb; exact He).
    apply (IHa _ _ _ He) in H as [y [Hy [H Hw]]].
    exists y. auto.
  - apply andb_true_iff in He as [Ha Hb]. cbn [matcher]. intros H.
    apply or_else_some in H as [H | H]; [eapply IHa | eapply IHb]; eauto.
  - cbn [matcher]. intros H. apply (IHa _ _ _ He) in H as [y [Hy [H Hw]]].
    exists (set_cap n (text_between x y) y). auto.
Qed.

Lemma ends_at_boundary_sound fl r :
  ∀ x e, ends_at_boundary r = true → matcher fl r Forward x Some = Some e →
    match after e with c :: _ => is_word c = false | [] => True end.
Proof.
  induction r as [ | c | | inv items | a _ b IHb | | | | | | ];
    intros x e He; simpl in He; try discriminate.
  cbn [matcher]. intros H.
  assert (Hrest : ends_at_boundary b = true →
            match after e with c :: _ => is_word c = false | [] => True end).
  { intros Hb. apply matcher_reaches in H as [y [_ H]]. eapply IHb; eauto. }
  destruct b; try (apply Hrest; exact He).
  apply (ends_word_reads fl a _ _ _ He) in H as [y [_ [H Hw]]].
  cbn [matcher] in H. destruct (at_word_boundary y) eqn:Eb; [|discriminate].
  inversion H; subst y; clear H. unfold at_word_boundary in Eb.
  destruct (before e) as [|p l]; [contradiction|]. rewrite Hw in Eb.
  destruct (after e) as [|c r]; [exact I|].
  destruct (is_word c); [discriminate | reflexivity].
Qed.

Lemma whole_word_rules_shape R :
  R ∈ whole_word_rules →
  starts_at_boundary (re_source R) = true ∧ ends_at_boundary (re_source R) = true.
Proof.
  unfold whole_word_rules, waiting_rules. cbn. rewrite !elem_of_cons, elem_of_nil.
  intros [-> | [-> | [-> | [-> | [-> | []]]]]]; split; reflexivity.
Qed.

(** X6: the rules written with word boundaries match whole words only: a
    match of a waiting rule or of the 'requires' rule is neither preceded
    nor followed by a word character (a letter, a digit or '_'). *)
Theorem guarded_rules_match_whole_words R out a :
  R ∈ whole_word_rules → find_match R out = Some a →
  ∃ pre m0 post, out = pre ++ m0 ++ post
    ∧ m_index a = Some (length pre) ∧ m_item a 0 = Some m0
    ∧ no_word_last pre ∧ no_word_first post.
Proof.
  intros HR Ha. apply whole_word_rules_shape in HR as [Hs He].
  destruct (find_match_span _ _ _ Ha) as [pre [m0 [post [e [Hout [Hi [Hitems [Hm [Hbe Hae]]]]]]]]].
  exists pre, m0, post. split; [exact Hout|]. split; [exact Hi|].
  split; [unfold m_item; rewrite Hitems; reflexivity|].
  unfold match_at in Hm. split.
  - apply (starts_at_boundary_sound _ _ _ _ _ Hs) in Hm. exact Hm.
  - apply (ends_at_boundary_sound _ _ _ _ He) in Hm. rewrite Hae in Hm. exact Hm.
Qed.

Lemma guarded_rules_match_whole_words_witness :
  ∃ a, find_match (mkRegExp 13 (re_stalled "paused for confirmation") flags_i)
         (js "Execution paused for confirmation.") = Some a
    ∧ ∃ pre m0 post,
        js "Execution paused for confirmation." = pre ++ m0 ++ post
        ∧ m_index a = Some (length pre) ∧ m_item a 0 = Some m0
        ∧ no_word_last pre ∧ no_word_first post.
Proof.
  eexists. split; [vm_compute; reflexivity|].
  apply (guarded_rules_match_whole_words
           (mkRegExp 13 (re_stalled "paused for confirmation") flags_i)).
  - unfold whole_word_rules, waiting_rules. cbn. rewrite !elem_of_cons. auto.
  - vm_compute. reflexivity.
Defined.

(** ** The 'requires' rule *)

Lemma user_confirmation_rule rule :
  rule ∈ PERMISSION_PATTERNS → operationName rule = js "user confirmation" →
  re_source (pattern rule) = re_requires ∧ re_flags (pattern rule) = flags_i.
Proof.
  unfold PERMISSION_PATTERNS. rewrite !elem_of_cons, elem_of_nil.
  intros [-> | [-> | [-> | [-> | [-> | [-> | [-> | [-> | []]]]]]]]] H;
    try (split; reflexivity); vm_compute in H; discriminate.
Qed.

Lemma notbehind_pass fl a d x k e :
  matcher fl (NotBehind a) d x k = Some e → k x = Some e.
Proof. simpl. destruct (matcher fl a Backward x Some); [discriminate | auto]. Qed.

Lemma boundary_pass fl d x k e :
  matcher fl WordBoundary d x k = Some e → k x = Some e.
Proof. simpl. destruct (at_word_boundary x); [auto | discriminate]. Qed.

Lemma requires_excludes x k :
  (∃ pre aux ws,
     before x = ws :: rev aux ++ pre ∧ is_space ws = true
     ∧ (Forall2 eq_ci aux (js "previously") ∨ Forall2 eq_ci aux (js "already"))) →
  matcher flags_i re_requires Forward x k = None.
Proof.
  intros [pre [aux [ws [Hpre [Hws Haux]]]]]. unfold re_requires.
  destruct Haux as [H | H].
  - change (matcher flags_i (?a +++ ?b) Forward x k)
      with (matcher flags_i a Forward x (λ y, matcher flags_i b Forward y k)).
    eapply lookbehind_hit; eauto.
  - change (matcher flags_i (?a +++ ?b +++ ?c) Forward x k)
      with (matcher flags_i a Forward x
              (λ y, matcher flags_i b Forward y (λ z, matcher flags_i c Forward z k))).
    match goal with |- matcher _ (NotBehind ?a) _ _ ?k' = _ =>
      destruct (notbehind_cases flags_i a Forward x k') as [E | E]; rewrite E end;
      [reflexivity|].
    eapply lookbehind_hit; eauto.
Qed.

(** X7: a result with operation 'user confirmation' comes from a match
    that begins with 'require' in any letter case, stands between
    non-word characters (or the ends of the output), and does not come
    right after 'previously' or 'already' and one white-space character;
    the message is the context of that match. *)
Theorem user_confirmation_is_present_requirement input σ :
  operation (detect input σ).1 = Some (js "user confirmation") →
  ∃ pre m0 post,
    combined input = pre ++ m0 ++ post
    ∧ Forall2 eq_ci (take 7 m0) (js "require")
    ∧ no_word_last pre ∧ no_word_first post
    ∧ ¬ previously_before (combined input) (length pre)
    ∧ message (detect input σ).1
      = Some (ellipsis_at 150 (squeeze (trim (context_window pre m0 post)))).
Proof.
  intros Hop.
  destruct (detect_cases input σ) as [H | [[rule [Hr [Hm H]]] | [ind [_ [_ H]]]]];
    rewrite H in *; cbn [operation message not_blocked rule_result indicator_result] in *.
  - discriminate.
  - inversion Hop as [Hname]; clear Hop.
    destruct (user_confirmation_rule _ Hr Hname) as [Hsrc Hfl].
    destruct (matches_find_match _ _ Hm) as [a Ha].
    destruct (find_match_span _ _ _ Ha)
      as [pre [m0 [post [e [Hout [Hi [Hitems [Hmatch [Hbe Hae]]]]]]]]].
    rewrite Hsrc, Hfl in Hmatch. unfold match_at in Hmatch.
    exists pre, m0, post. split; [exact Hout|].
    split; [|split; [|split; [|split]]].
    + unfold re_requires in Hmatch.
      change (matcher flags_i (?a +++ ?b +++ WordBoundary +++ lit "require" +++ ?t)
                Forward ?x Some)
        with (matcher flags_i a Forward x
                (λ y, matcher flags_i b Forward y
                   (λ z, matcher flags_i WordBoundary Forward z
                      (λ u, matcher flags_i (foldr Seq Eps (Lit <$> js "require"))
                              Forward u (λ v, matcher flags_i t Forward v Some)))))
        in Hmatch.
      apply notbehind_pass, notbehind_pass, boundary_pass in Hmatch.
      apply (literal_forward_inv flags_i _ eq_refl) in Hmatch
        as [aux [rest [Hafter [Haux Hrest]]]].
      apply matcher_reaches in Hrest as [y [[l [_ Hbefore]] Hy]].
      cbv beta in Hy. injection Hy as ->. cbn [before after] in *.
      rewrite Hbe, app_assoc in Hbefore. apply app_inv_tail in Hbefore.
      rewrite <- rev_app_distr in Hbefore. apply rev_inj in Hbefore. subst m0.
      assert (Hlen : length aux = 7%nat) by (apply Forall2_length in Haux; exact Haux).
      rewrite <- Hlen, take_app_length. exact Haux.
    + apply (starts_at_boundary_sound flags_i re_requires _ _ _ eq_refl Hmatch).
    + pose proof (ends_at_boundary_sound flags_i re_requires _ _ eq_refl Hmatch) as He.
      rewrite Hae in He. exact He.
    + intros [p [aux [ws [Htk [Hws Haux]]]]].
      rewrite Hout, take_app_length in Htk.
      rewrite (requires_excludes _ Some) in Hmatch; [discriminate|].
      exists (rev p), aux, ws. cbn [before]. split; [|auto].
      rewrite Htk, !rev_app_distr. reflexivity.
    + rewrite Ha. f_equal. rewrite Hout at 1.
      apply message_of_match_window; [exact Hi|].
      unfold m_item. rewrite Hitems. reflexivity.
  - inversion Hop.
Qed.

Lemma user_confirmation_is_present_requirement_witness :
  operation (detect requires_input ∅).1 = Some (js "user confirmation")
  ∧ ∃ pre m0 post,
      combined requires_input = pre ++ m0 ++ post
      ∧ Forall2 eq_ci (take 7 m0) (js "require")
      ∧ no_word_last pre ∧ no_word_first post
      ∧ ¬ previously_before (combined requires_input) (length pre)
      ∧ message (detect requires_input ∅).1
        = Some (ellipsis_at 150 (squeeze (trim (context_window pre m0 post)))).
Proof.
  split; [vm_compute; reflexivity|].
  apply (user_confirmation_is_present_requirement requires_input ∅).
  vm_compute. reflexivity.
Defined.

(** ** Letter case *)

Lemma Forall2_rev {A B} (P : A → B → Prop) l k :
  Forall2 P l k → Forall2 P (rev l) (rev k).
Proof.
  induction 1; simpl; [constructor|].
  apply Forall2_app; [assumption | repeat constructor; assumption].
Qed.

Lemma eq_ci_cases a b :
  eq_ci a b →
  a = b ∨ ((65 ≤ a ≤ 90 ∨ 97 ≤ a ≤ 122) ∧ (65 ≤ b ≤ 90 ∨ 97 ≤ b ≤ 122)).
Proof.
  unfold eq_ci, to_lower.
  destruct ((65 <=? a) && (a <=? 90)) eqn:Ea, ((65 <=? b) && (b <=? 90)) eqn:Eb;
    rewrite ?andb_true_iff, ?andb_false_iff, ?N.leb_le, ?N.leb_gt in *; lia.
Qed.

Lemma letter_not_space c : (65 ≤ c ≤ 90 ∨ 97 ≤ c ≤ 122) → is_space c = false.
Proof.
  intros Hc. destruct (is_space c) eqn:E; [|reflexivity].
  apply is_space_cases in E. lia.
Qed.

Lemma eq_ci_space a b : eq_ci a b → is_space a = is_space b.
Proof.
  intros H. apply eq_ci_cases in H as [-> | [Ha Hb]]; [reflexivity|].
  rewrite !letter_not_space by assumption. reflexivity.
Qed.

Lemma eq_ci_line_terminator a b :
  eq_ci a b → is_line_terminator a = is_line_terminator b.
Proof.
  intros H. apply eq_ci_cases in H as [-> | [Ha Hb]]; [reflexivity|].
  apply letter_not_space in Ha, Hb.
  destruct (is_line_terminator a) eqn:Ea;
    [apply line_terminator_is_space in Ea; congruence|].
  destruct (is_line_terminator b) eqn:Eb;
    [apply line_terminator_is_space in Eb; congruence|].
  reflexivity.
Qed.

Lemma eq_ci_word a b : eq_ci a b → is_word a = is_word b.
Proof.
  intros H. apply (canonicalize_word flags_i). unfold canonicalize. simpl.
  apply eq_ci_upper. exact H.
Qed.

Lemma eq_ci_canonicalize fl a b c :
  ignoreCase fl = true → eq_ci a b →
  (canonicalize fl a =? canonicalize fl c) = (canonicalize fl b =? canonicalize fl c).
Proof.
  intros Hi H. unfold canonicalize. rewrite Hi, (eq_ci_upper _ _ H). reflexivity.
Qed.

Lemma sim_pos x x' : sim x x' → pos x = pos x'.
Proof. intros (Hb & _). unfold pos. eapply Forall2_length; eauto. Qed.

Lemma sim_subject x x' : sim x x' → length (subject x) = length (subject x').
Proof.
  intros (Hb & Ha & _). unfold subject. rewrite !length_app, !length_rev.
  rewrite (Forall2_length _ _ _ Hb), (Forall2_length _ _ _ Ha). reflexivity.
Qed.

Lemma advance_sim d x x' :
  sim x x' →
  option_Forall2 (λ p p', eq_ci p.1 p'.1 ∧ sim p.2 p'.2) (advance d x) (advance d x').
Proof.
  intros (Hb & Ha & Hc). destruct d; unfold advance.
  - destruct Ha; constructor. simpl. split; [assumption|].
    split; [constructor; assumption | split; assumption].
  - destruct Hb; constructor. simpl. split; [assumption|].
    split; [assumption | split; [constructor; assumption | assumption]].
Qed.

Lemma match_char_sim ok ok' d x x' k k' :
  (∀ c c', eq_ci c c' → ok c = ok' c') → sim x x' → ksim k k' →
  osim (match_char ok d x k) (match_char ok' d x' k').
Proof.
  intros Hok Hx Hk. unfold match_char.
  destruct (advance_sim d x x' Hx) as [[c y] [c' y'] [Hc Hy]|]; [|constructor].
  simpl in *. rewrite (Hok c c' Hc).
  destruct (ok' c'); [apply Hk; assumption | constructor].
Qed.

Lemma or_else_sim a a' b b' :
  osim a a' → osim b b' → osim (or_else a b) (or_else a' b').
Proof. intros [] ?; simpl; [constructor|]; assumption. Qed.

Lemma clear_caps_sim ns x x' : sim x x' → sim (clear_caps ns x) (clear_caps ns x').
Proof.
  intros (Hb & Ha & Hc). split; [assumption|]. split; [assumption|].
  simpl. induction ns as [|n ns IH]; simpl; [assumption|].
  intros m. destruct (decide (n = m)) as [->|Hne].
  - rewrite !lookup_delete_eq. constructor.
  - rewrite !lookup_delete_ne by assumption. apply IH.
Qed.

Lemma set_cap_sim n t t' x x' :
  same_ci t t' → sim x x' → sim (set_cap n t x) (set_cap n t' x').
Proof.
  intros Ht (Hb & Ha & Hc). split; [assumption|]. split; [assumption|].
  simpl. intros m. destruct (decide (n = m)) as [->|Hne].
  - rewrite !lookup_insert_eq. constructor. assumption.
  - rewrite !lookup_insert_ne by assumption. apply Hc.
Qed.

Lemma text_between_sim x x' y y' :
  sim x x' → sim y y' → same_ci (text_between x y) (text_between x' y').
Proof.
  intros Hx Hy. unfold text_between.
  rewrite <- (sim_pos _ _ Hx), <- (sim_pos _ _ Hy).
  destruct Hy as (Hb & Ha & _).
  destruct (pos x <=? pos y)%nat.
  - apply Forall2_rev, Forall2_take. assumption.
  - apply Forall2_take. assumption.
Qed.

Lemma repeat_matcher_sim ma ma' inner greedy k k' :
  (∀ x x' h h', sim x x' → ksim h h' → osim (ma x h) (ma' x' h')) →
  ksim k k' →
  ∀ fuel min max x x', sim x x' →
    osim (repeat_matcher ma inner greedy k fuel min max x)
         (repeat_matcher ma' inner greedy k' fuel min max x').
Proof.
  intros Hma Hk. induction fuel as [|fuel IH]; intros min max x x' Hx;
    [constructor|].
  cbn [repeat_matcher].
  destruct max as [[|m]|]; [apply Hk; assumption| |].
  all: match goal with
       | |- osim (if ?c then ?a else if ?g then ?b1 else ?b2)
                 (if ?c then ?a' else if ?g then ?b1' else ?b2') =>
           assert (Ha : osim a a'); [|destruct c; [exact Ha|];
             destruct g; apply or_else_sim; try exact Ha; apply Hk; exact Hx]
       end.
  all: apply Hma; [apply clear_caps_sim; exact Hx|];
       intros y y' Hy; rewrite <- (sim_pos _ _ Hy), <- (sim_pos _ _ Hx);
       destruct ((min =? 0)%nat && (pos y =? pos x)%nat); [constructor|];
       apply IH; exact Hy.
Qed.

(** The matcher of a case-insensitive pattern runs alike over two
    subjects that differ in letter case only. *)
Lemma matcher_sim fl r : ignoreCase fl = true →
  ∀ d x x' k k', sim x x' → ksim k k' →
    osim (matcher fl r d x k) (matcher fl r d x' k').
Proof.
  intros Hi.
  induction r as [ | c | | inv items | a IHa b IHb | a IHa b IHb
                 | min max greedy a IHa | n a IHa | | | a IHa ];
    intros d x x' k k' Hx Hk; cbn [matcher].
  - apply Hk. exact Hx.
  - apply match_char_sim; [|exact Hx | exact Hk].
    intros ch ch' Hc. apply eq_ci_canonicalize; assumption.
  - apply match_char_sim; [|exact Hx | exact Hk].
    intros ch ch' Hc. rewrite (eq_ci_line_terminator _ _ Hc). reflexivity.
  - apply match_char_sim; [|exact Hx | exact Hk].
    intros ch ch' Hc. unfold in_class. f_equal.
    induction items as [|it items IH]; [reflexivity|]. cbn [existsb]. f_equal; [|exact IH].
    destruct it; cbn [in_item].
    + unfold canonicalize. rewrite Hi, (eq_ci_upper _ _ Hc). reflexivity.
    + apply eq_ci_space. exact Hc.
    + rewrite (eq_ci_space _ _ Hc). reflexivity.
  - destruct d.
    + apply IHa; [exact Hx|]. intros y y' Hy. apply IHb; assumption.
    + apply IHb; [exact Hx|]. intros y y' Hy. apply IHa; assumption.
  - apply or_else_sim; [apply IHa | apply IHb]; assumption.
  - rewrite (sim_subject _ _ Hx).
    apply repeat_matcher_sim; [|exact Hk | exact Hx].
    intros y y' h h' Hy Hh. apply IHa; assumption.
  - apply IHa; [exact Hx|]. intros y y' Hy. apply Hk.
    apply set_cap_sim; [apply text_between_sim|]; assumption.
  - assert (E : at_line_start fl x = at_line_start fl x').
    { unfold at_line_start. destruct Hx as (Hb & _).
      destruct Hb as [|c c' ? ? Hc _]; [reflexivity|].
      rewrite (eq_ci_line_terminator _ _ Hc). reflexivity. }
    rewrite E. destruct (at_line_start fl x'); [apply Hk; exact Hx | constructor].
  - assert (E : at_word_boundary x = at_word_boundary x').
    { unfold at_word_boundary. destruct Hx as (Hb & Ha & _).
      f_equal.
      - destruct Hb as [|c c' ? ? Hc _]; [reflexivity | apply eq_ci_word; exact Hc].
      - destruct Ha as [|c c' ? ? Hc _]; [reflexivity | apply eq_ci_word; exact Hc]. }
    rewrite E. destruct (at_word_boundary x'); [apply Hk; exact Hx | constructor].
  - assert (H : osim (matcher fl a Backward x Some) (matcher fl a Backward x' Some)).
    { apply IHa; [exact Hx|]. intros y y' Hy. constructor. exact Hy. }
    destruct H; [constructor | apply Hk; exact Hx].
Qed.

Lemma search_sim fl r : ignoreCase fl = true →
  ∀ aft aft' bef bef', same_ci bef bef' → same_ci aft aft' →
    option_Forall2 (λ p p', p.1 = p'.1 ∧ sim p.2 p'.2)
      (search fl r bef aft) (search fl r bef' aft').
Proof.
  intros Hi aft aft' bef bef' Hb Ha. revert bef bef' Hb.
  induction Ha as [|c c' aft aft' Hc Ha IH]; intros bef bef' Hb.
  - cbn [search]. unfold match_at.
    assert (H : osim (matcher fl r Forward {| before := bef; after := []; caps := ∅ |} Some)
                     (matcher fl r Forward {| before := bef'; after := []; caps := ∅ |} Some)).
    { apply matcher_sim; [exact Hi| |intros y y' Hy; constructor; exact Hy].
      split; [exact Hb|]. split; [constructor|]. intros n. cbn [caps]. rewrite !lookup_empty. constructor. }
    destruct H; constructor. simpl. split; [eapply Forall2_length; eauto | assumption].
  - cbn [search]. unfold match_at.
    assert (H : osim (matcher fl r Forward {| before := bef; after := c :: aft; caps := ∅ |} Some)
                     (matcher fl r Forward {| before := bef'; after := c' :: aft'; caps := ∅ |} Some)).
    { apply matcher_sim; [exact Hi| |intros y y' Hy; constructor; exact Hy].
      split; [exact Hb|]. split; [constructor; assumption|].
      intros n. cbn [caps]. rewrite !lookup_empty. constructor. }
    destruct H.
    + constructor. simpl. split; [eapply Forall2_length; eauto | assumption].
    + apply IH. constructor; assumption.
Qed.

Lemma find_match_sim R out out' :
  ignoreCase (re_flags R) = true → same_ci out out' →
  option_Forall2 array_ci (find_match R out) (find_match R out').
Proof.
  intros Hi Ho. unfold find_match.
  destruct (search_sim _ (re_source R) Hi out out' [] [] (List.Forall2_nil _) Ho)
    as [[s e] [s' e'] [Hs He]|]; [|constructor].
  simpl in Hs. subst s'. simpl in He. constructor. split; [reflexivity|].
  cbn [m_items match_array fst snd]. constructor.
  - constructor. rewrite <- (sim_pos _ _ He). apply Forall2_rev, Forall2_take.
    destruct He as (Hb & _). exact Hb.
  - apply Forall2_fmap_2, Forall_Forall2_diag, Forall_forall.
    intros n _. destruct He as (_ & _ & Hc). apply Hc.
Qed.

Lemma same_ci_refl s : same_ci s s.
Proof. apply Forall_Forall2_diag, Forall_forall. intros c _. reflexivity. Qed.

Lemma trim_start_sim s s' : same_ci s s' → same_ci (trim_start s) (trim_start s').
Proof.
  induction 1 as [|c c' s s' Hc Hs IH]; [constructor|].
  cbn [trim_start]. rewrite (eq_ci_space _ _ Hc).
  destruct (is_space c'); [exact IH | constructor; assumption].
Qed.

Lemma trim_sim s s' : same_ci s s' → same_ci (trim s) (trim s').
Proof.
  intros H. unfold trim, trim_end.
  apply Forall2_rev, trim_start_sim, Forall2_rev, trim_start_sim. exact H.
Qed.

Lemma slice_sim s s' a b : same_ci s s' → same_ci (slice s a b) (slice s' a b).
Proof.
  intros H. unfold slice. rewrite <- (Forall2_length _ _ _ H).
  apply Forall2_take, Forall2_drop. exact H.
Qed.

Lemma squeeze_from_sim s s' :
  same_ci s s' → ∀ b, same_ci (squeeze_from b s) (squeeze_from b s').
Proof.
  induction 1 as [|c c' s s' Hc Hs IH]; intros b; [constructor|].
  cbn [squeeze_from]. rewrite (eq_ci_space _ _ Hc).
  destruct (is_space c'); [destruct b|]; try constructor; auto. reflexivity.
Qed.

Lemma clean_message_sim out out' i l :
  same_ci out out' → same_ci (clean_message out i l) (clean_message out' i l).
Proof.
  intros H. unfold clean_message. rewrite !replace_spaces_squeeze.
  rewrite <- (Forall2_length _ _ _ H).
  assert (Hs : same_ci
    (squeeze (trim (slice out (Z.max 0 (i - 20))
                      (Z.min (Z.of_nat (length out)) (i + l + 80)))))
    (squeeze (trim (slice out' (Z.max 0 (i - 20))
                      (Z.min (Z.of_nat (length out)) (i + l + 80)))))).
  { apply squeeze_from_sim, trim_sim, slice_sim. exact H. }
  rewrite <- (Forall2_length _ _ _ Hs).
  destruct (150 <? _)%nat; [|exact Hs].
  apply Forall2_app; [apply slice_sim; exact Hs | apply same_ci_refl].
Qed.

Lemma m_item_sim a a' n :
  array_ci a a' → option_Forall2 same_ci (m_item a n) (m_item a' n).
Proof.
  intros [_ H]. unfold m_item.
  destruct (proj1 (Forall2_lookup _ _ _) H n) as [x y Hxy|]; [exact Hxy | constructor].
Qed.

Lemma message_of_match_sim out out' m m' :
  same_ci out out' → option_Forall2 array_ci m m' →
  same_ci (message_of_match out m) (message_of_match out' m').
Proof.
  intros Ho [a a' Ha|]; [|apply same_ci_refl].
  cbn [message_of_match]. destruct Ha as [Hi Hitems]. rewrite Hi.
  assert (Hlen : length (default [] (m_item a 0)) = length (default [] (m_item a' 0))).
  { destruct (m_item_sim a a' 0 (conj Hi Hitems)) as [t t' Ht|]; [|reflexivity].
    simpl. eapply Forall2_length; eauto. }
  rewrite Hlen. apply clean_message_sim. exact Ho.
Qed.

Lemma command_of_match_sim m m' :
  option_Forall2 array_ci m m' →
  option_Forall2 same_ci (command_of_match m) (command_of_match m').
Proof.
  intros [a a' Ha|]; [|constructor]. cbn [command_of_match].
  destruct (m_item_sim a a' 1 Ha) as [t t' Ht|]; [|constructor].
  destruct Ht as [|c c' t t' Hc Ht]; [constructor|]. constructor.
  assert (Htrim : same_ci (trim (c :: t)) (trim (c' :: t')))
    by (apply trim_sim; constructor; assumption).
  rewrite <- (Forall2_length _ _ _ Htrim).
  destruct (100 <? _)%nat; [|exact Htrim].
  apply Forall2_app; [apply slice_sim; exact Htrim | apply same_ci_refl].
Qed.

Lemma tables_ignore_case :
  Forall (λ rule, ignoreCase (re_flags (pattern rule)) = true
                  ∧ ∀ cp, commandPattern rule = Some cp →
                          ignoreCase (re_flags cp) = true) PERMISSION_PATTERNS
  ∧ Forall (λ ind, ignoreCase (re_flags ind) = true) BLOCKED_INDICATORS.
Proof.
  split.
  - unfold PERMISSION_PATTERNS. repeat constructor;
      cbn [commandPattern]; intros cp H; inversion H; reflexivity.
  - unfold BLOCKED_INDICATORS. repeat constructor.
Qed.

Lemma matches_sim R out out' :
  ignoreCase (re_flags R) = true → same_ci out out' →
  matches R out = matches R out'.
Proof.
  intros Hi Ho. unfold matches.
  destruct (find_match_sim R out out' Hi Ho); reflexivity.
Qed.

Lemma find_agree {A} (f g : A → bool) l :
  Forall (λ x, f x = g x) l → List.find f l = List.find g l.
Proof.
  induction 1 as [|x l Hx _ IH]; [reflexivity|].
  cbn [List.find]. rewrite Hx, IH. reflexivity.
Qed.

Lemma first_match_result_sim out out' :
  same_ci out out' → result_ci (first_match_result out) (first_match_result out').
Proof.
  intros Ho. destruct tables_ignore_case as [Hp Hind].
  unfold first_match_result.
  rewrite (find_agree (λ rule, matches (pattern rule) out)
             (λ rule, matches (pattern rule) out') PERMISSION_PATTERNS)
    by (eapply Forall_impl; [exact Hp|]; intros rule [Hi _]; apply matches_sim; assumption).
  rewrite (find_agree (λ ind, matches ind out) (λ ind, matches ind out') BLOCKED_INDICATORS)
    by (eapply Forall_impl; [exact Hind|]; intros ind Hi; apply matches_sim; assumption).
  destruct (List.find (λ rule, matches (pattern rule) out') PERMISSION_PATTERNS)
    as [rule|] eqn:Ep.
  - apply List.find_some in Ep as [Hin _].
    rewrite Forall_forall in Hp. apply list_elem_of_In, Hp in Hin as [Hi Hcp].
    split; [reflexivity|]. split; [reflexivity|]. split.
    + constructor. apply message_of_match_sim; [exact Ho|].
      apply find_match_sim; assumption.
    + cbn [blockedCommand rule_result].
      destruct (commandPattern rule) as [cp|]; [|constructor]. simpl.
      apply command_of_match_sim, find_match_sim; [apply Hcp; reflexivity | exact Ho].
  - destruct (List.find (λ ind, matches ind out') BLOCKED_INDICATORS) as [ind|] eqn:Ei.
    + apply List.find_some in Ei as [Hin _].
      rewrite Forall_forall in Hind. apply list_elem_of_In, Hind in Hin.
      split; [reflexivity|]. split; [reflexivity|]. split; [|constructor].
      constructor. apply message_of_match_sim; [exact Ho|].
      apply find_match_sim; assumption.
    + repeat split; constructor.
Qed.

Lemma other_agent_sim a b :
  option_Forall2 same_ci a b → other_agent a = other_agent b.
Proof.
  intros [s s' H|]; [|reflexivity]. unfold other_agent.
  pose proof H as Hl. apply Forall2_eq_ci_lower in Hl.
  destruct H; [reflexivity|]. unfold isClaudeAgent. rewrite Hl. reflexivity.
Qed.

(** X8: [detect] does not depend on the case of the ASCII letters of its
    input: two inputs whose stdout, stderr (an absent one counting as
    empty) and agentId differ in letter case only get the same isBlocked
    and operation, and the same message and blockedCommand up to letter
    case. *)
Theorem detect_ignores_case a b σ σ' :
  same_ci (stdout a) (stdout b) →
  same_ci (default [] (stderr a)) (default [] (stderr b)) →
  option_Forall2 same_ci (agentId a) (agentId b) →
  result_ci (detect a σ).1 (detect b σ').1.
Proof.
  intros Hout Herr Hid. unfold detect.
  rewrite (other_agent_sim _ _ Hid).
  destruct (other_agent (agentId b)); [repeat split; constructor|].
  rewrite !classify_first_match. cbn [fst].
  apply first_match_result_sim. unfold combined.
  apply Forall2_app; [exact Hout|]. apply Forall2_app; [apply same_ci_refl | exact Herr].
Qed.

Lemma detect_ignores_case_witness :
  result_ci (detect (prompt_from "claude-code") ∅).1 (detect shouted_prompt ∅).1.
Proof.
  apply (detect_ignores_case (prompt_from "claude-code") shouted_prompt ∅ ∅).
  - apply Forall2_eq_ci_lower. reflexivity.
  - constructor.
  - constructor. apply Forall2_eq_ci_lower. reflexivity.
Defined.

(** * Present waits are detected *)

(** A literal that matched backwards read a text that spells it. *)
Lemma literal_backward_inv cs :
  ∀ x k e, matcher flags_i (foldr Seq Eps (Lit <$> cs)) Backward x k = Some e →
  ∃ aux rest, before x = rev aux ++ rest ∧ Forall2 eq_ci aux cs
    ∧ k {| before := rest; after := aux ++ after x; caps := caps x |} = Some e.
Proof.
  induction cs as [|c cs IH]; intros x k e H.
  - exists [], (before x). destruct x. split; [reflexivity|]. split; [constructor | exact H].
  - cbn [fmap list_fmap foldr matcher] in H.
    apply IH in H as [aux [rest [Hb [Haux H]]]].
    unfold match_char at 1, advance in H. cbn [before after caps] in H.
    destruct rest as [|ch rest]; [discriminate|].
    destruct (canonicalize flags_i ch =? canonicalize flags_i c) eqn:Ec; [|discriminate].
    apply N.eqb_eq, upper_eq_ci in Ec.
    exists (ch :: aux), rest. split; [|split].
    + rewrite Hb. cbn [rev]. rewrite <- app_assoc. reflexivity.
    + constructor; assumption.
    + exact H.
Qed.

(** A look-behind for a word and one white-space character passes where
    the text before is not that. *)
Lemma lookbehind_miss (w : string) x k :
  ¬ (∃ aux ws rest, before x = ws :: rev aux ++ rest ∧ is_space ws = true
                    ∧ Forall2 eq_ci aux (js w)) →
  matcher flags_i (NotBehind (lit w +++ space)) Forward x k = k x.
Proof.
  intros Hno. cbn [matcher].
  destruct (matcher flags_i space Backward x
              (λ y, matcher flags_i (lit w) Backward y Some)) as [e|] eqn:E;
    [exfalso | reflexivity].
  apply Hno. unfold space in E. cbn [matcher] in E.
  unfold match_char, advance in E.
  destruct (before x) as [|ws l]; [discriminate|].
  destruct (in_class flags_i false [CSpace] ws) eqn:Ec; [|discriminate].
  unfold in_class in Ec. cbn [existsb in_item xorb] in Ec. rewrite orb_false_r in Ec.
  unfold lit in E. apply literal_backward_inv in E as [aux [rest [Hb [Haux _]]]].
  cbn [before] in Hb. exists aux, ws, rest. rewrite Hb. auto.
Qed.

Lemma not_past_passes tail x k :
  ¬ (∃ pre aux ws,
       before x = ws :: rev aux ++ pre ∧ is_space ws = true
       ∧ (Forall2 eq_ci aux (js "was") ∨ Forall2 eq_ci aux (js "were")
          ∨ Forall2 eq_ci aux (js "been"))) →
  matcher flags_i (not_past +++ tail) Forward x k = matcher flags_i tail Forward x k.
Proof.
  intros Hno. unfold not_past.
  change (matcher flags_i ((?a +++ ?b +++ ?c) +++ tail) Forward x k)
    with (matcher flags_i a Forward x
            (λ y, matcher flags_i b Forward y
               (λ z, matcher flags_i c Forward z
                  (λ u, matcher flags_i tail Forward u k)))).
  rewrite !lookbehind_miss; [reflexivity| | |];
    intros [aux [ws [rest [Hb [Hws Haux]]]]]; apply Hno; exists rest, aux, ws; auto.
Qed.

Lemma or_else_is_Some {A} (a b : option A) :
  is_Some a ∨ is_Some b → is_Some (or_else a b).
Proof. destruct a; simpl; [eauto | intros [[? ?] | ?]; [discriminate | assumption]]. Qed.

Lemma groups_lit cs : groups (foldr Seq Eps (Lit <$> cs)) = [].
Proof. induction cs as [|c cs IH]; [reflexivity | exact IH]. Qed.

Lemma repeat_done ma inner greedy k fuel min x :
  (0 < fuel)%nat → repeat_matcher ma inner greedy k fuel min (Some 0%nat) x = k x.
Proof. destruct fuel; [lia | reflexivity]. Qed.

(** An optional pattern may be skipped. *)
Lemma opt_skip fl a x k :
  is_Some (k x) → is_Some (matcher fl (opt a) Forward x k).
Proof.
  intros H. unfold opt. cbn [matcher].
  replace (0 + length (subject x) + 1)%nat with (S (length (subject x))) by lia.
  cbn [repeat_matcher Nat.eqb negb]. apply or_else_is_Some. right. exact H.
Qed.

(** An optional literal may be read where the text spells it. *)
Lemma opt_take fl (s : string) bef aux rest c k :
  ignoreCase fl = true → Forall2 eq_ci aux (js s) → aux ≠ [] →
  is_Some (k {| before := rev aux ++ bef; after := rest; caps := c |}) →
  is_Some (matcher fl (opt (lit s)) Forward
             {| before := bef; after := aux ++ rest; caps := c |} k).
Proof.
  intros Hi Haux Hne H. unfold opt. cbn [matcher].
  replace (0 + length (subject {| before := bef; after := aux ++ rest; caps := c |}) + 1)%nat
    with (S (length (subject {| before := bef; after := aux ++ rest; caps := c |}))) by lia.
  cbn [repeat_matcher Nat.eqb negb]. apply or_else_is_Some. left.
  unfold lit. rewrite groups_lit. unfold clear_caps. cbn [foldr before after caps].
  rewrite (literal_forward fl _ Hi aux _ _ _ _ Haux).
  unfold pos. cbn [before andb].
  replace (length (rev aux ++ bef) =? length bef)%nat with false.
  2:{ symmetry. apply Nat.eqb_neq. rewrite length_app, length_rev.
      destruct aux; [contradiction | simpl; lia]. }
  cbn [fmap option_fmap option_map Nat.pred].
  rewrite repeat_done; [exact H|].
  unfold subject. cbn [before after]. rewrite !length_app.
  destruct aux as [|a aux]; [contradiction | simpl; lia].
Qed.

Lemma boundary_before_word x c t :
  after x = c :: t → is_word c = true →
  match before x with p :: _ => is_word p = false | [] => True end →
  at_word_boundary x = true.
Proof.
  intros Ha Hc Hb. unfold at_word_boundary. rewrite Ha, Hc.
  destruct (before x); [reflexivity | rewrite Hb; reflexivity].
Qed.

Lemma boundary_after_word x c l :
  before x = c :: l → is_word c = true →
  match after x with p :: _ => is_word p = false | [] => True end →
  at_word_boundary x = true.
Proof.
  intros Hb Hc Ha. unfold at_word_boundary. rewrite Hb, Hc.
  destruct (after x); [reflexivity | rewrite Ha; reflexivity].
Qed.

(** A text that spells a literal of word characters starts and ends with
    word characters. *)
Lemma spelled_first m0 cs c t :
  Forall2 eq_ci m0 cs → cs = c :: t → is_word c = true →
  ∃ a m, m0 = a :: m ∧ is_word a = true.
Proof.
  intros H -> Hc. inversion H as [|a b m l Hab Hm]; subst.
  exists a, m. split; [reflexivity|]. rewrite (eq_ci_word _ _ Hab). exact Hc.
Qed.

Lemma spelled_last m0 cs c t :
  Forall2 eq_ci m0 cs → rev cs = c :: t → is_word c = true →
  ∃ a m, rev m0 = a :: m ∧ is_word a = true.
Proof.
  intros H Hr Hc. apply Forall2_rev in H. eapply spelled_first; eauto.
Qed.

(** The end of a rule: a literal of word characters, then [\b]. *)
Lemma literal_then_boundary (s : string) bef m0 post c c0 t0 :
  Forall2 eq_ci m0 (js s) → rev (js s) = c0 :: t0 → is_word c0 = true →
  no_word_first post →
  is_Some (matcher flags_i (lit s +++ WordBoundary) Forward
             {| before := bef; after := m0 ++ post; caps := c |} Some).
Proof.
  intros Hm Hr Hw Hpost.
  destruct (spelled_last _ _ _ _ Hm Hr Hw) as [a [m [Hrev Ha]]].
  cbn [matcher]. unfold lit.
  rewrite (literal_forward flags_i _ eq_refl m0 _ _ _ _ Hm).
  rewrite (boundary_after_word _ a (m ++ bef)); [eexists; reflexivity | | exact Ha | exact Hpost].
  cbn [before]. rewrite Hrev. reflexivity.
Qed.

Lemma not_past_state pre aft c out :
  take (length pre) out = pre → ¬ past_tense_before out (length pre) →
  ¬ (∃ p aux ws,
       before {| before := rev pre; after := aft; caps := c |} = ws :: rev aux ++ p
       ∧ is_space ws = true
       ∧ (Forall2 eq_ci aux (js "was") ∨ Forall2 eq_ci aux (js "were")
          ∨ Forall2 eq_ci aux (js "been"))).
Proof.
  intros Htake Hno [p [aux [ws [Hb [Hws Haux]]]]]. apply Hno.
  exists (rev p), aux, ws. split; [|auto]. rewrite Htake.
  cbn [before] in Hb. apply (f_equal (@rev N)) in Hb. rewrite rev_involutive in Hb.
  rewrite Hb. cbn [rev]. rewrite rev_app_distr, rev_involutive, <- app_assoc. reflexivity.
Qed.

(** An indicator phrase between non-word characters, not in the past
    tense, is a match of its indicator. *)
Lemma stalled_matches (s : string) pre m0 post c0 t0 c1 t1 :
  js s = c0 :: t0 → is_word c0 = true → rev (js s) = c1 :: t1 → is_word c1 = true →
  Forall2 eq_ci m0 (js s) → no_word_last pre → no_word_first post →
  ¬ past_tense_before (pre ++ m0 ++ post) (length pre) →
  is_Some (match_at flags_i (re_stalled s)
             {| before := rev pre; after := m0 ++ post; caps := ∅ |}).
Proof.
  intros Hs Hw0 Hr Hw1 Hm Hpre Hpost Hno. unfold match_at, re_stalled.
  rewrite not_past_passes by (apply (not_past_state _ _ _ (pre ++ m0 ++ post));
                              [apply take_app_length | exact Hno]).
  destruct (spelled_first _ _ _ _ Hm Hs Hw0) as [a [m [Hm0 Ha]]].
  change (matcher flags_i (WordBoundary +++ ?r) Forward ?x Some)
    with (if at_word_boundary x then matcher flags_i r Forward x Some else None).
  rewrite (boundary_before_word _ a (m ++ post));
    [|cbn [after]; rewrite Hm0; reflexivity | exact Ha | exact Hpre].
  eapply literal_then_boundary; eauto.
Qed.

(** The same for the four phrases of the fourth primary rule. *)
Lemma waiting_matches pre m0 post :
  (Forall2 eq_ci m0 (js "waiting for permission")
   ∨ Forall2 eq_ci m0 (js "waiting for user permission")
   ∨ Forall2 eq_ci m0 (js "waiting for approval")
   ∨ Forall2 eq_ci m0 (js "waiting for user approval")) →
  no_word_last pre → no_word_first post →
  ¬ past_tense_before (pre ++ m0 ++ post) (length pre) →
  is_Some (match_at flags_i re_waiting
             {| before := rev pre; after := m0 ++ post; caps := ∅ |}).
Proof.
  intros Hm Hpre Hpost Hno. unfold match_at, re_waiting.
  rewrite not_past_passes by (apply (not_past_state _ _ _ (pre ++ m0 ++ post));
                              [apply take_app_length | exact Hno]).
  assert (Hsplit : ∃ p1 m1, m0 = p1 ++ m1 ∧ Forall2 eq_ci p1 (js "waiting for ")
            ∧ (Forall2 eq_ci m1 (js "permission") ∨ Forall2 eq_ci m1 (js "approval")
               ∨ ∃ p2 m2, m1 = p2 ++ m2 ∧ Forall2 eq_ci p2 (js "user ")
                   ∧ (Forall2 eq_ci m2 (js "permission")
                      ∨ Forall2 eq_ci m2 (js "approval")))).
  { destruct Hm as [H | [H | [H | H]]].
    - change (js "waiting for permission")
        with (js "waiting for " ++ js "permission") in H.
      apply Forall2_app_inv_r in H as [p1 [m1 [H1 [H2 ->]]]]. eauto 10.
    - change (js "waiting for user permission")
        with (js "waiting for " ++ js "user " ++ js "permission") in H.
      apply Forall2_app_inv_r in H as [p1 [m1 [H1 [H2 ->]]]].
      apply Forall2_app_inv_r in H2 as [p2 [m2 [H2 [H3 ->]]]].
      exists p1, (p2 ++ m2). split; [reflexivity|]. split; [exact H1|].
      right. right. eauto 10.
    - change (js "waiting for approval")
        with (js "waiting for " ++ js "approval") in H.
      apply Forall2_app_inv_r in H as [p1 [m1 [H1 [H2 ->]]]]. eauto 10.
    - change (js "waiting for user approval")
        with (js "waiting for " ++ js "user " ++ js "approval") in H.
      apply Forall2_app_inv_r in H as [p1 [m1 [H1 [H2 ->]]]].
      apply Forall2_app_inv_r in H2 as [p2 [m2 [H2 [H3 ->]]]].
      exists p1, (p2 ++ m2). split; [reflexivity|]. split; [exact H1|].
      right. right. eauto 10. }
  destruct Hsplit as [p1 [m1 [-> [Hp1 Hm1]]]].
  destruct (spelled_first _ _ _ _ Hp1 eq_refl eq_refl) as [a [m [Hp1' Ha]]].
  change (matcher flags_i (WordBoundary +++ ?l +++ ?r) Forward ?x Some)
    with (if at_word_boundary x
          then matcher flags_i l Forward x (λ y, matcher flags_i r Forward y Some)
          else None).
  rewrite (boundary_before_word _ a (m ++ m1 ++ post));
    [|cbn [after]; rewrite Hp1', <- app_assoc; reflexivity | exact Ha | exact Hpre].
  rewrite <- app_assoc. unfold lit at 1.
  rewrite (literal_forward flags_i _ eq_refl p1 _ _ _ _ Hp1).
  assert (Hend : ∀ bef m2 c,
            Forall2 eq_ci m2 (js "permission") ∨ Forall2 eq_ci m2 (js "approval") →
            is_Some (matcher flags_i ((lit "permission" |+| lit "approval") +++ WordBoundary)
                       Forward {| before := bef; after := m2 ++ post; caps := c |} Some)).
  { intros bef m2 c [H | H];
      change (matcher flags_i ((?a |+| ?b) +++ ?w) Forward ?x Some)
        with (or_else (matcher flags_i (a +++ w) Forward x Some)
                      (matcher flags_i (b +++ w) Forward x Some));
      apply or_else_is_Some; [left | right];
      eapply literal_then_boundary; eauto; reflexivity. }
  change (matcher flags_i (opt ?o +++ ?r) Forward ?x Some)
    with (matcher flags_i (opt o) Forward x (λ y, matcher flags_i r Forward y Some)).
  destruct Hm1 as [H | [H | [p2 [m2 [-> [Hp2 H]]]]]].
  - apply opt_skip. apply Hend. left. exact H.
  - apply opt_skip. apply Hend. right. exact H.
  - rewrite <- app_assoc. apply opt_take; [reflexivity | exact Hp2 | |apply Hend; exact H].
    intros ->. inversion Hp2.
Qed.

Lemma matching_pattern_blocks R out :
  R ∈ all_patterns → matches R out = true →
  isBlocked (first_match_result out) = true.
Proof.
  intros HR Hm. unfold first_match_result.
  destruct (List.find (λ rule, matches (pattern rule) out) PERMISSION_PATTERNS)
    as [rule|] eqn:Ep; [reflexivity|].
  destruct (List.find (λ ind, matches ind out) BLOCKED_INDICATORS)
    as [ind|] eqn:Ei; [reflexivity|].
  exfalso. unfold all_patterns in HR. apply elem_of_app in HR as [HR | HR].
  - apply list_elem_of_fmap in HR as [rule [-> Hin]].
    apply list_elem_of_In in Hin.
    pose proof (List.find_none _ _ Ep rule Hin) as H. cbv beta in H. congruence.
  - apply list_elem_of_In in HR.
    pose proof (List.find_none _ _ Ei R HR) as H. cbv beta in H. congruence.
Qed.

(** X9: no present wait is missed: when the combined output holds one
    of the seven waiting phrases (in any letter case) between non-word
    characters or the ends of the output, and not right after 'was',
    'were' or 'been' and one white-space character, the result is blocked,
    for every agent that is not filtered out. *)
Theorem present_wait_always_detected input σ pre m0 post phrase :
  other_agent (agentId input) = false →
  combined input = pre ++ m0 ++ post →
  phrase ∈ waiting_phrases → Forall2 eq_ci m0 phrase →
  no_word_last pre → no_word_first post →
  ¬ past_tense_before (combined input) (length pre) →
  isBlocked (detect input σ).1 = true.
Proof.
  intros Hagent Hout Hin Hm Hpre Hpost Hno.
  unfold detect. rewrite Hagent, classify_first_match. cbn [fst].
  rewrite Hout in Hno |- *.
  assert (Hfound : ∀ R, is_Some (match_at (re_flags R) (re_source R)
                                   {| before := rev pre; after := m0 ++ post; caps := ∅ |}) →
                        matches R (pre ++ m0 ++ post) = true).
  { intros R H. unfold matches. apply bool_decide_eq_true. unfold find_match.
    apply fmap_is_Some. apply search_complete. rewrite app_nil_r. exact H. }
  unfold waiting_phrases in Hin. rewrite list_elem_of_In in Hin. simpl in Hin.
  destruct Hin as [<- | [<- | [<- | [<- | [<- | [<- | [<- | []]]]]]]].
  1-4: apply (matching_pattern_blocks (mkRegExp 6 re_waiting flags_i));
       [unfold all_patterns; rewrite list_elem_of_In; simpl; tauto
       |apply Hfound; apply waiting_matches; auto].
  - apply (matching_pattern_blocks (mkRegExp 11 (re_stalled "waiting for input") flags_i));
      [unfold all_patterns; rewrite list_elem_of_In; simpl; tauto|].
    apply Hfound. eapply (stalled_matches "waiting for input"); eauto; reflexivity.
  - apply (matching_pattern_blocks (mkRegExp 12 (re_stalled "awaiting response") flags_i));
      [unfold all_patterns; rewrite list_elem_of_In; simpl; tauto|].
    apply Hfound. eapply (stalled_matches "awaiting response"); eauto; reflexivity.
  - apply (matching_pattern_blocks (mkRegExp 13 (re_stalled "paused for confirmation") flags_i));
      [unfold all_patterns; rewrite list_elem_of_In; simpl; tauto|].
    apply Hfound. eapply (stalled_matches "paused for confirmation"); eauto; reflexivity.
Qed.

(** The last letter before the white space of a past-tense auxiliary. *)
Lemma past_tense_before_letter out i :
  past_tense_before out i →
  ∃ ws c rest, rev (take i out) = ws :: c :: rest
    ∧ (eq_ci c (chr "s") ∨ eq_ci c (chr "e") ∨ eq_ci c (chr "n")).
Proof.
  intros [p [aux [ws [Ht [_ Haux]]]]]. rewrite Ht, !rev_app_distr. cbn [rev app].
  assert (Hlast : ∃ c l, rev aux = c :: l
            ∧ (eq_ci c (chr "s") ∨ eq_ci c (chr "e") ∨ eq_ci c (chr "n"))).
  { destruct Haux as [H | [H | H]]; apply Forall2_rev in H.
    - change (rev (js "was")) with (chr "s" :: rev (js "wa")) in H.
      inversion H as [|c b l l' Hc Hl Heq]; subst. eauto 10.
    - change (rev (js "were")) with (chr "e" :: rev (js "wer")) in H.
      inversion H as [|c b l l' Hc Hl Heq]; subst. eauto 10.
    - change (rev (js "been")) with (chr "n" :: rev (js "bee")) in H.
      inversion H as [|c b l l' Hc Hl Heq]; subst. eauto 10. }
  destruct Hlast as [c [l [Hrev Hc]]]. rewrite Hrev.
  exists ws, c, (l ++ rev p). split; [reflexivity | exact Hc].
Qed.

Lemma present_wait_always_detected_witness :
  isBlocked (detect present_wait_input ∅).1 = true.
Proof.
  apply (present_wait_always_detected present_wait_input ∅
           (js "step 3/7" ++ [10] ++ js "[agent] ") (js "WAITING FOR USER APPROVAL")
           (js "..." ++ [10] ++ js "idle" ++ [10]) (js "waiting for user approval")).
  - reflexivity.
  - reflexivity.
  - unfold waiting_phrases. rewrite list_elem_of_In. simpl. tauto.
  - apply Forall2_eq_ci_lower. reflexivity.
  - reflexivity.
  - reflexivity.
  - intros H. apply past_tense_before_letter in H as [ws [c [rest [H Hc]]]].
    vm_compute in H. inversion H; subst.
    destruct Hc as [Hc | [Hc | Hc]]; vm_compute in Hc; discriminate.
Defined.

(** * Prompt lines are detected *)

Lemma matcher_seq fl a b x k :
  matcher fl (a +++ b) Forward x k
  = matcher fl a Forward x (λ y, matcher fl b Forward y k).
Proof. reflexivity. Qed.

Lemma matcher_alt fl a b d x k :
  matcher fl (a |+| b) d x k = or_else (matcher fl a d x k) (matcher fl b d x k).
Proof. reflexivity. Qed.

Lemma lit_forward fl (s : string) aux rest bef c k :
  ignoreCase fl = true → Forall2 eq_ci aux (js s) →
  matcher fl (lit s) Forward {| before := bef; after := aux ++ rest; caps := c |} k
  = k {| before := rev aux ++ bef; after := rest; caps := c |}.
Proof. intros Hi H. unfold lit. apply literal_forward; assumption. Qed.

(** The end of a prompt rule, [[:\s]+(.+)], over separators and a text. *)
Lemma prompt_tail_matches bef sep c rest caps0 :
  sep ≠ [] → Forall (λ ch, colon_or_white ch = true) sep →
  colon_or_white c = false →
  is_Some (matcher flags_im (colon_or_space +++ Cap 1 (plus Dot)) Forward
             {| before := bef; after := sep ++ c :: rest; caps := caps0 |} Some).
Proof.
  intros Hne Hsep Hc. rewrite matcher_seq.
  assert (Hc' : is_line_terminator c = false).
  { destruct (is_line_terminator c) eqn:E; [|reflexivity].
    apply line_terminator_is_space in E. unfold colon_or_white in Hc.
    rewrite E, orb_true_r in Hc. discriminate. }
  destruct (capture_succeeds flags_im (rev sep ++ bef) c rest caps0 Hc') as [e He].
  unfold colon_or_space.
  rewrite (plus_char_greedy flags_im (Class false [CChar (chr ":"); CSpace])
             (in_class flags_im false [CChar (chr ":"); CSpace])
             (λ x k', eq_refl) eq_refl sep _ (c :: rest) caps0 _ e Hne).
  - eexists. reflexivity.
  - eapply Forall_impl; [exact Hsep|]. intros a Ha. cbv beta.
    rewrite in_class_colon_or_space. exact Ha.
  - rewrite in_class_colon_or_space. exact Hc.
  - exact He.
Qed.

(** A prompt line is a match of the rule of its verb. *)
Lemma prompt_line_matches pre prompt verb i sep c rest :
  line_start_after pre →
  (verb, i) ∈ prompt_verbs →
  Forall2 eq_ci prompt (js "Claude wants to " ++ verb) →
  sep ≠ [] → Forall (λ ch, colon_or_white ch = true) sep →
  colon_or_white c = false →
  ∃ rule, PERMISSION_PATTERNS !! i = Some rule
    ∧ matches (pattern rule) (pre ++ prompt ++ sep ++ c :: rest) = true.
Proof.
  intros Hpre Hin Hprompt Hne Hsep Hc.
  assert (Hfound : ∀ r,
            is_Some (match_at flags_im r
                       {| before := rev pre; after := prompt ++ sep ++ c :: rest;
                          caps := ∅ |}) →
            ∀ n, matches (mkRegExp n r flags_im) (pre ++ prompt ++ sep ++ c :: rest) = true).
  { intros r H n. unfold matches. apply bool_decide_eq_true. unfold find_match.
    apply fmap_is_Some. apply search_complete. rewrite app_nil_r. exact H. }
  assert (Hstart : ∀ aft, at_line_start flags_im
                     {| before := rev pre; after := aft; caps := ∅ |} = true).
  { intros aft. unfold at_line_start, line_start_after in *. cbn [before].
    destruct (rev pre); [reflexivity | rewrite Hpre; reflexivity]. }
  apply Forall2_app_inv_r in Hprompt as [p1 [pv [Hp1 [Hpv ->]]]].
  pose proof (prompt_tail_matches) as Htail.
  unfold prompt_verbs in Hin. rewrite list_elem_of_In in Hin. simpl in Hin.
  destruct Hin as [E | [E | [E | [E | [E | [E | [E | [E | [E | []]]]]]]]]];
    inversion E; subst verb i; clear E;
    eexists; (split; [reflexivity|]); cbn [pattern]; apply Hfound;
    unfold match_at; rewrite <- !app_assoc.
  - (* run *)
    unfold re_run. cbn [matcher]. rewrite Hstart.
    rewrite (lit_forward flags_im _ p1 _ _ _ _ eq_refl Hp1). cbv beta.
    apply or_else_is_Some. left.
    rewrite (lit_forward flags_im _ pv _ _ _ _ eq_refl Hpv). cbv beta.
    apply (Htail _ sep c rest ∅ Hne Hsep Hc).
  - (* execute *)
    unfold re_run. cbn [matcher]. rewrite Hstart.
    rewrite (lit_forward flags_im _ p1 _ _ _ _ eq_refl Hp1). cbv beta.
    apply or_else_is_Some. right.
    rewrite (lit_forward flags_im _ pv _ _ _ _ eq_refl Hpv). cbv beta.
    apply (Htail _ sep c rest ∅ Hne Hsep Hc).
  - (* write *)
    unfold re_write. cbn [matcher]. rewrite Hstart.
    rewrite (lit_forward flags_im _ p1 _ _ _ _ eq_refl Hp1). cbv beta.
    apply or_else_is_Some. left.
    rewrite (lit_forward flags_im _ pv _ _ _ _ eq_refl Hpv). cbv beta.
    apply opt_skip. apply (Htail _ sep c rest ∅ Hne Hsep Hc).
  - (* create *)
    unfold re_write. cbn [matcher]. rewrite Hstart.
    rewrite (lit_forward flags_im _ p1 _ _ _ _ eq_refl Hp1). cbv beta.
    apply or_else_is_Some. right. apply or_else_is_Some. left.
    rewrite (lit_forward flags_im _ pv _ _ _ _ eq_refl Hpv). cbv beta.
    apply opt_skip. apply (Htail _ sep c rest ∅ Hne Hsep Hc).
  - (* modify *)
    unfold re_write. cbn [matcher]. rewrite Hstart.
    rewrite (lit_forward flags_im _ p1 _ _ _ _ eq_refl Hp1). cbv beta.
    apply or_else_is_Some. right. apply or_else_is_Some. right.
    rewrite (lit_forward flags_im _ pv _ _ _ _ eq_refl Hpv). cbv beta.
    apply opt_skip. apply (Htail _ sep c rest ∅ Hne Hsep Hc).
  - (* write to *)
    change (js "write to") with (js "write" ++ js " to") in Hpv.
    apply Forall2_app_inv_r in Hpv as [pw [pt [Hpw [Hpt ->]]]].
    unfold re_write. cbn [matcher]. rewrite Hstart.
    rewrite (lit_forward flags_im _ p1 _ _ _ _ eq_refl Hp1). cbv beta.
    apply or_else_is_Some. left. rewrite <- app_assoc.
    rewrite (lit_forward flags_im _ pw _ _ _ _ eq_refl Hpw). cbv beta.
    apply opt_take; [reflexivity | exact Hpt | |].
    + intros ->. inversion Hpt.
    + apply (Htail _ sep c rest ∅ Hne Hsep Hc).
  - (* create to *)
    change (js "create to") with (js "create" ++ js " to") in Hpv.
    apply Forall2_app_inv_r in Hpv as [pw [pt [Hpw [Hpt ->]]]].
    unfold re_write. cbn [matcher]. rewrite Hstart.
    rewrite (lit_forward flags_im _ p1 _ _ _ _ eq_refl Hp1). cbv beta.
    apply or_else_is_Some. right. apply or_else_is_Some. left. rewrite <- app_assoc.
    rewrite (lit_forward flags_im _ pw _ _ _ _ eq_refl Hpw). cbv beta.
    apply opt_take; [reflexivity | exact Hpt | |].
    + intros ->. inversion Hpt.
    + apply (Htail _ sep c rest ∅ Hne Hsep Hc).
  - (* modify to *)
    change (js "modify to") with (js "modify" ++ js " to") in Hpv.
    apply Forall2_app_inv_r in Hpv as [pw [pt [Hpw [Hpt ->]]]].
    unfold re_write. cbn [matcher]. rewrite Hstart.
    rewrite (lit_forward flags_im _ p1 _ _ _ _ eq_refl Hp1). cbv beta.
    apply or_else_is_Some. right. apply or_else_is_Some. right. rewrite <- app_assoc.
    rewrite (lit_forward flags_im _ pw _ _ _ _ eq_refl Hpw). cbv beta.
    apply opt_take; [reflexivity | exact Hpt | |].
    + intros ->. inversion Hpt.
    + apply (Htail _ sep c rest ∅ Hne Hsep Hc).
  - (* edit *)
    assert (Hedit : Forall2 eq_ci (p1 ++ pv) (js "Claude wants to edit"))
      by (change (js "Claude wants to edit") with (js "Claude wants to " ++ js "edit");
          apply Forall2_app; assumption).
    unfold re_edit. cbn [matcher]. rewrite Hstart. rewrite app_assoc.
    rewrite (lit_forward flags_im _ (p1 ++ pv) _ _ _ _ eq_refl Hedit). cbv beta.
    apply (Htail _ sep c rest ∅ Hne Hsep Hc).
Qed.

(** X10: no prompt line is missed: a line that starts with 'Claude wants
    to' and one of the verbs of the three prompt rules (in any letter
    case), goes on with colons or white space and then with any other
    character, is always classified as blocked, whatever comes before and
    after it in stdout or stderr, for every agent that is not filtered
    out; the operation is the one of the verb's rule or of an earlier
    prompt rule, so 'bash command' for 'run' and 'execute'. *)
Theorem prompt_line_always_detected input σ pre prompt verb i sep c rest :
  other_agent (agentId input) = false →
  combined input = pre ++ prompt ++ sep ++ c :: rest →
  line_start_after pre →
  (verb, i) ∈ prompt_verbs →
  Forall2 eq_ci prompt (js "Claude wants to " ++ verb) →
  sep ≠ [] → Forall (λ ch, colon_or_white ch = true) sep →
  colon_or_white c = false →
  isBlocked (detect input σ).1 = true
  ∧ ∃ j op, (j ≤ i)%nat ∧ command_operations !! j = Some op
      ∧ operation (detect input σ).1 = Some op.
Proof.
  intros Hagent Hout Hpre Hin Hprompt Hne Hsep Hc.
  destruct (prompt_line_matches pre prompt verb i sep c rest Hpre Hin Hprompt Hne Hsep Hc)
    as [rule [Hrule Hm]].
  rewrite <- Hout in Hm.
  unfold detect. rewrite Hagent, classify_first_match. cbn [fst].
  unfold first_match_result, PERMISSION_PATTERNS in *. cbn [List.find pattern].
  assert (Hi : (i ≤ 2)%nat).
  { clear -Hin. unfold prompt_verbs in Hin. rewrite list_elem_of_In in Hin. simpl in Hin.
    destruct Hin as [E | [E | [E | [E | [E | [E | [E | [E | [E | []]]]]]]]]];
      inversion E; lia. }
  destruct (matches (mkRegExp 0 re_run flags_im) (combined input)) eqn:E0;
    [split; [reflexivity | exists 0%nat; eexists; repeat split; lia]|].
  destruct i as [|i]; [inversion Hrule; subst rule; cbn [pattern] in Hm; congruence|].
  destruct (matches (mkRegExp 2 re_write flags_im) (combined input)) eqn:E1;
    [split; [reflexivity | exists 1%nat; eexists; repeat split; lia]|].
  destruct i as [|i]; [inversion Hrule; subst rule; cbn [pattern] in Hm; congruence|].
  destruct (matches (mkRegExp 4 re_edit flags_im) (combined input)) eqn:E2;
    [split; [reflexivity | exists 2%nat; eexists; repeat split; lia]|].
  destruct i as [|i]; [inversion Hrule; subst rule; cbn [pattern] in Hm; congruence | lia].
Qed.

Lemma prompt_line_always_detected_witness :
  isBlocked (detect stderr_prompt_input ∅).1 = true
  ∧ ∃ j op, (j ≤ 0)%nat ∧ command_operations !! j = Some op
      ∧ operation (detect stderr_prompt_input ∅).1 = Some op.
Proof.
  apply (prompt_line_always_detected stderr_prompt_input ∅
           (js "Compiling..." ++ [10] ++ js "done" ++ [10] ++ js "warning: x" ++ [13; 10])
           (js "CLAUDE WANTS TO RUN") (js "run") 0%nat (js " :: ") (chr "r")
           (js "m -rf build")).
  - reflexivity.
  - reflexivity.
  - reflexivity.
  - unfold prompt_verbs. rewrite list_elem_of_In. simpl. tauto.
  - apply Forall2_eq_ci_lower. reflexivity.
  - discriminate.
  - repeat constructor.
  - reflexivity.
Defined.

(** * Present requirements are detected *)

Lemma requires_matches pre verb sp user what post :
  (Forall2 eq_ci verb (js "require") ∨ Forall2 eq_ci verb (js "requires")) →
  Forall2 eq_ci sp (js " ") →
  (user = [] ∨ Forall2 eq_ci user (js "user ")) →
  (Forall2 eq_ci what (js "input") ∨ Forall2 eq_ci what (js "confirmation")
   ∨ Forall2 eq_ci what (js "approval")) →
  no_word_last pre → no_word_first post →
  ¬ previously_before (pre ++ verb ++ sp ++ user ++ what ++ post) (length pre) →
  is_Some (match_at flags_i re_requires
             {| before := rev pre; after := verb ++ sp ++ user ++ what ++ post;
                caps := ∅ |}).
Proof.
  intros Hverb Hsp Huser Hwhat Hpre Hpost Hno. unfold match_at, re_requires.
  assert (Hbehind : ∀ w : string,
            (w = "previously" ∨ w = "already")%string →
            ¬ (∃ aux ws rest,
                 before {| before := rev pre; after := verb ++ sp ++ user ++ what ++ post;
                           caps := ∅ |} = ws :: rev aux ++ rest
                 ∧ is_space ws = true ∧ Forall2 eq_ci aux (js w))).
  { intros w Hw [aux [ws [rest [Hb [Hws Haux]]]]]. apply Hno.
    exists (rev rest), aux, ws. rewrite take_app_length. split; [|split; [exact Hws|]].
    - cbn [before] in Hb. apply (f_equal (@rev N)) in Hb. rewrite rev_involutive in Hb.
      rewrite Hb. cbn [rev]. rewrite rev_app_distr, rev_involutive, <- app_assoc.
      reflexivity.
    - destruct Hw as [-> | ->]; auto. }
  rewrite matcher_seq, lookbehind_miss by (apply Hbehind; auto). cbv beta.
  rewrite matcher_seq, lookbehind_miss by (apply Hbehind; auto). cbv beta.
  (* the end: one of the three words, then [\b] *)
  assert (Hend : ∀ bef c,
            is_Some (matcher flags_i
                       ((lit "input" |+| lit "confirmation" |+| lit "approval")
                        +++ WordBoundary)
                       Forward {| before := bef; after := what ++ post; caps := c |} Some)).
  { intros bef c.
    change (matcher flags_i ((?a |+| ?b |+| ?d) +++ ?w) Forward ?x Some)
      with (or_else (matcher flags_i (a +++ w) Forward x Some)
              (or_else (matcher flags_i (b +++ w) Forward x Some)
                       (matcher flags_i (d +++ w) Forward x Some))).
    destruct Hwhat as [H | [H | H]].
    - apply or_else_is_Some. left. eapply literal_then_boundary; eauto; reflexivity.
    - apply or_else_is_Some. right. apply or_else_is_Some. left.
      eapply literal_then_boundary; eauto; reflexivity.
    - apply or_else_is_Some. right. apply or_else_is_Some. right.
      eapply literal_then_boundary; eauto; reflexivity. }
  (* the optional 'user ' *)
  assert (Huser' : ∀ bef c,
            is_Some (matcher flags_i
                       (opt (lit "user ")
                        +++ (lit "input" |+| lit "confirmation" |+| lit "approval")
                        +++ WordBoundary)
                       Forward {| before := bef; after := user ++ what ++ post; caps := c |}
                       Some)).
  { intros bef c. rewrite matcher_seq. destruct Huser as [-> | Hu].
    - apply opt_skip. apply Hend.
    - apply opt_take; [reflexivity | exact Hu | |apply Hend].
      intros ->. inversion Hu. }
  (* the space *)
  assert (Hspace : ∀ bef c,
            is_Some (matcher flags_i
                       (lit " " +++ opt (lit "user ")
                        +++ (lit "input" |+| lit "confirmation" |+| lit "approval")
                        +++ WordBoundary)
                       Forward
                       {| before := bef; after := sp ++ user ++ what ++ post; caps := c |}
                       Some)).
  { intros bef c. rewrite matcher_seq.
    rewrite (lit_forward flags_i _ sp _ _ _ _ eq_refl Hsp). cbv beta. apply Huser'. }
  (* the start: [\b], 'require' and the optional 's' *)
  assert (Hfirst : ∃ a m, verb = a :: m ∧ is_word a = true).
  { destruct Hverb as [H | H]; eapply spelled_first; eauto; reflexivity. }
  destruct Hfirst as [a [m [Hv Ha]]].
  change (matcher flags_i (WordBoundary +++ ?r) Forward ?x Some)
    with (if at_word_boundary x then matcher flags_i r Forward x Some else None).
  rewrite (boundary_before_word _ a (m ++ sp ++ user ++ what ++ post));
    [|cbn [after]; rewrite Hv; reflexivity | exact Ha | exact Hpre].
  rewrite matcher_seq. destruct Hverb as [H | H].
  - rewrite (lit_forward flags_i _ verb _ _ _ _ eq_refl H). cbv beta.
    rewrite matcher_seq. apply opt_skip. apply Hspace.
  - change (js "requires") with (js "require" ++ js "s") in H.
    apply Forall2_app_inv_r in H as [r [s [Hr [Hs ->]]]].
    rewrite <- app_assoc.
    rewrite (lit_forward flags_i _ r _ _ _ _ eq_refl Hr). cbv beta.
    rewrite matcher_seq. apply opt_take; [reflexivity | exact Hs | |apply Hspace].
    intros ->. inversion Hs.
Qed.

(** X11: no present requirement is missed: when the combined output holds
    'require' or 'requires', a space, optionally 'user ', and 'input',
    'confirmation' or 'approval' (in any letter case) between non-word
    characters or the ends of the output, and not right after 'previously'
    or 'already' and one white-space character, the result is blocked, for
    every agent that is not filtered out. *)
Theorem present_requirement_always_detected input σ pre m0 post phrase :
  other_agent (agentId input) = false →
  combined input = pre ++ m0 ++ post →
  phrase ∈ requirement_phrases → Forall2 eq_ci m0 phrase →
  no_word_last pre → no_word_first post →
  ¬ previously_before (combined input) (length pre) →
  isBlocked (detect input σ).1 = true.
Proof.
  intros Hagent Hout Hin Hm Hpre Hpost Hno.
  unfold detect. rewrite Hagent, classify_first_match. cbn [fst].
  rewrite Hout in Hno |- *.
  apply (matching_pattern_blocks (mkRegExp 8 re_requires flags_i));
    [unfold all_patterns; rewrite list_elem_of_In; simpl; tauto|].
  unfold matches. apply bool_decide_eq_true. unfold find_match.
  apply fmap_is_Some. apply search_complete. rewrite app_nil_r.
  cbn [re_flags re_source mkRegExp].
  unfold requirement_phrases in Hin.
  apply list_elem_of_bind in Hin as [verb [Hin Hverb]].
  apply list_elem_of_bind in Hin as [user [Hin Huser]].
  apply list_elem_of_bind in Hin as [what [Hin Hwhat]].
  apply list_elem_of_singleton in Hin. subst phrase.
  apply Forall2_app_inv_r in Hm as [mv [m1 [Hmv [Hm1 ->]]]].
  apply Forall2_app_inv_r in Hm1 as [msp [m2 [Hmsp [Hm2 ->]]]].
  apply Forall2_app_inv_r in Hm2 as [mu [mw [Hmu [Hmw ->]]]].
  rewrite <- !app_assoc in Hno |- *.
  apply requires_matches; try assumption.
  - rewrite list_elem_of_In in Hverb. simpl in Hverb.
    destruct Hverb as [<- | [<- | []]]; auto.
  - rewrite list_elem_of_In in Huser. simpl in Huser.
    destruct Huser as [<- | [<- | []]]; [left; inversion Hmu; reflexivity | auto].
  - rewrite list_elem_of_In in Hwhat. simpl in Hwhat.
    destruct Hwhat as [<- | [<- | [<- | []]]]; auto.
Qed.

(** The last letter before the white space of 'previously' or 'already'. *)
Lemma previously_before_letter out i :
  previously_before out i →
  ∃ ws c rest, rev (take i out) = ws :: c :: rest ∧ eq_ci c (chr "y").
Proof.
  intros [p [aux [ws [Ht [_ Haux]]]]]. rewrite Ht, !rev_app_distr. cbn [rev app].
  assert (Hlast : ∃ c l, rev aux = c :: l ∧ eq_ci c (chr "y")).
  { destruct Haux as [H | H]; apply Forall2_rev in H.
    - change (rev (js "previously")) with (chr "y" :: rev (js "previousl")) in H.
      inversion H as [|c b l l' Hc Hl Heq]; subst. eauto.
    - change (rev (js "already")) with (chr "y" :: rev (js "alread")) in H.
      inversion H as [|c b l l' Hc Hl Heq]; subst. eauto. }
  destruct Hlast as [c [l [Hrev Hc]]]. rewrite Hrev.
  exists ws, c, (l ++ rev p). split; [reflexivity | exact Hc].
Qed.

Lemma present_requirement_always_detected_witness :
  isBlocked (detect present_requirement_input ∅).1 = true.
Proof.
  apply (present_requirement_always_detected present_requirement_input ∅
           (js "done" ++ [10] ++ js "Step 1 previously required approval; step 2 ")
           (js "REQUIRES USER INPUT") (js "!") (js "requires user input")).
  - reflexivity.
  - reflexivity.
  - apply list_elem_of_In. vm_compute. repeat (first [left; reflexivity | right]).
  - apply Forall2_eq_ci_lower. reflexivity.
  - reflexivity.
  - reflexivity.
  - intros H. apply previously_before_letter in H as [ws [c [rest [H Hc]]]].
    vm_compute in H. inversion H; subst. vm_compute in Hc. discriminate.
Defined.

(** * Keywords *)

Lemma spells_reads fl kw : ignoreCase fl = true →
  ∀ r x k e, spells kw r = true → matcher fl r Forward x k = Some e →
    ∃ aux rest, after x = aux ++ rest ∧ Forall2 eq_ci aux kw.
Proof.
  intros Hi. induction kw as [|c kw IH]; intros r x k e Hs H.
  - exists [], (after x). split; [reflexivity | constructor].
  - cbn [spells] in Hs. destruct r as [ | | | |a b| | | | | | ]; try discriminate.
    destruct a as [ |c'| | | | | | | | | ]; try discriminate.
    apply andb_true_iff in Hs as [Hc Hs]. apply N.eqb_eq in Hc.
    cbn [matcher] in H. unfold match_char at 1, advance in H.
    destruct (after x) as [|ch t] eqn:Ea; [discriminate|].
    destruct (canonicalize fl ch =? canonicalize fl c') eqn:Ec; [|discriminate].
    apply N.eqb_eq in Ec. unfold canonicalize in Ec. rewrite Hi in Ec.
    apply upper_eq_ci in Ec.
    apply (IH _ _ _ _ Hs) in H as [aux [rest [Hafter Haux]]]. cbn [after] in Hafter.
    exists (ch :: aux), rest. split; [rewrite Hafter; reflexivity|].
    constructor; [|exact Haux]. unfold eq_ci in *. congruence.
Qed.

(** A pattern that mentions keywords matches only in a subject that
    holds one of them. *)
Lemma mentions_reads fl kws r : ignoreCase fl = true →
  ∀ x k e, mentions kws r = true → matcher fl r Forward x k = Some e →
    ∃ kw, kw ∈ kws ∧ contains_ci kw (subject x).
Proof.
  intros Hi.
  assert (Hdirect : ∀ r x k e,
            existsb (λ kw, spells kw r) kws = true →
            matcher fl r Forward x k = Some e →
            ∃ kw, kw ∈ kws ∧ contains_ci kw (subject x)).
  { intros r' x k e Hex H. apply existsb_exists in Hex as [kw [Hin Hs]].
    destruct (spells_reads fl kw Hi _ _ _ _ Hs H) as [aux [rest [Hafter Haux]]].
    exists kw. split; [apply list_elem_of_In; exact Hin|].
    exists (rev (before x)), aux, rest. unfold subject. rewrite Hafter. auto. }
  induction r as [ | c | | inv items | a IHa b IHb | a IHa b IHb
                 | min max greedy a IHa | n a IHa | | | a IHa ];
    intros x k e Hm H; cbn [mentions] in Hm;
    apply orb_true_iff in Hm as [Hm | Hm]; try (eapply Hdirect; eauto; fail);
    try discriminate.
  - cbn [matcher] in H. apply orb_true_iff in Hm as [Ha | Hb].
    + eapply IHa; eauto.
    + apply matcher_reaches in H as [y [Hy H]].
      rewrite <- (reach_subject _ _ _ Hy). eapply IHb; eauto.
  - cbn [matcher] in H. apply andb_true_iff in Hm as [Ha Hb].
    apply or_else_some in H as [H | H]; [eapply IHa | eapply IHb]; eauto.
  - cbn [matcher] in H. eapply IHa; eauto.
Qed.

Lemma tables_mention_keywords :
  forallb (λ R, mentions blocking_keywords (re_source R)) all_patterns = true.
Proof. vm_compute. reflexivity. Qed.

Lemma match_needs_keyword R out :
  R ∈ all_patterns → ignoreCase (re_flags R) = true → matches R out = true →
  ∃ kw, kw ∈ blocking_keywords ∧ contains_ci kw out.
Proof.
  intros HR Hi Hm. apply matches_find_match in Hm as [a Ha].
  unfold find_match in Ha.
  destruct (search (re_flags R) (re_source R) [] out) as [[start e]|] eqn:E;
    [|discriminate].
  apply search_found in E as [pre [rest [Hout [_ Hmatch]]]].
  rewrite app_nil_r in Hmatch. unfold match_at in Hmatch.
  pose proof tables_mention_keywords as Ht. rewrite forallb_forall in Ht.
  apply list_elem_of_In, Ht in HR.
  destruct (mentions_reads _ _ _ Hi _ _ _ HR Hmatch) as [kw [Hkw Hc]].
  exists kw. split; [exact Hkw|]. unfold subject in Hc. cbn [before after] in Hc.
  rewrite rev_involutive, <- Hout in Hc. exact Hc.
Qed.

(** X12: an output that holds none of the ten keywords ('claude wants
    to ', 'waiting for ', 'require', 'type', 'git', 'press', 'hit',
    'awaiting response', 'paused for confirmation', 'tool'), in any letter
    case, is never classified as blocked. *)
Theorem no_keyword_not_blocked input σ :
  (∀ kw, kw ∈ blocking_keywords → ¬ contains_ci kw (combined input)) →
  (detect input σ).1 = not_blocked.
Proof.
  intros Hno.
  destruct (detect_cases input σ) as [H | [[rule [Hr [Hm _]]] | [ind [Hi [Hm _]]]]];
    [exact H | exfalso | exfalso].
  - destruct tables_ignore_case as [Hp _]. rewrite Forall_forall in Hp.
    destruct (Hp rule Hr) as [Hic _].
    destruct (match_needs_keyword (pattern rule) (combined input)) as [kw [Hkw Hc]];
      [|exact Hic | exact Hm | exact (Hno kw Hkw Hc)].
    unfold all_patterns. apply elem_of_app. left. apply list_elem_of_fmap.
    exists rule. auto.
  - destruct tables_ignore_case as [_ Hind]. rewrite Forall_forall in Hind.
    destruct (match_needs_keyword ind (combined input)) as [kw [Hkw Hc]];
      [|exact (Hind ind Hi) | exact Hm | exact (Hno kw Hkw Hc)].
    unfold all_patterns. apply elem_of_app. right. exact Hi.
Qed.

Lemma contains_ci_includes kw s :
  contains_ci kw s → includes (toLowerCase s) (toLowerCase kw) = true.
Proof.
  intros [pre [mid [post [-> Hmid]]]]. apply includes_spec.
  exists (toLowerCase pre), (toLowerCase post).
  apply Forall2_eq_ci_lower in Hmid. rewrite <- Hmid.
  unfold toLowerCase. rewrite !map_app. reflexivity.
Qed.

Lemma no_keyword_not_blocked_witness :
  (detect build_log_input ∅).1 = not_blocked.
Proof.
  apply (no_keyword_not_blocked build_log_input ∅).
  intros kw Hin Hc. apply contains_ci_includes in Hc.
  unfold blocking_keywords in Hin. rewrite list_elem_of_In in Hin. simpl in Hin.
  repeat (destruct Hin as [<- | Hin]; [vm_compute in Hc; discriminate|]).
  contradiction.
Defined.

(** * The message of the pattern that fired *)

Lemma find_some_first {A} (f : A → bool) (l : list A) x :
  List.find f l = Some x →
  ∃ i, l !! i = Some x ∧ f x = true
    ∧ ∀ j y, (j < i)%nat → l !! j = Some y → f y = false.
Proof.
  induction l as [|a l IH]; [discriminate|]. cbn [List.find].
  destruct (f a) eqn:Ea.
  - intros H. inversion H; subst. exists 0%nat.
    split; [reflexivity|]. split; [exact Ea|]. intros j y Hj. lia.
  - intros H. destruct (IH H) as [i [Hi [Hx Hbefore]]]. exists (S i).
    split; [exact Hi|]. split; [exact Hx|].
    intros [|j] y Hj Hy; [inversion Hy; subst; exact Ea|].
    apply (Hbefore j y); [lia | exact Hy].
Qed.

Lemma find_none_lookup {A} (f : A → bool) (l : list A) :
  List.find f l = None → ∀ j y, l !! j = Some y → f y = false.
Proof.
  intros H j y Hy. apply (List.find_none _ _ H).
  apply list_elem_of_In. eapply list_elem_of_lookup_2. exact Hy.
Qed.

(** The search returns the leftmost position that has a match. *)
Lemma search_leftmost fl r :
  ∀ aft bef i e, search fl r bef aft = Some (i, e) →
  ∀ skipped rest, aft = skipped ++ rest → (length bef + length skipped < i)%nat →
    match_at fl r {| before := rev skipped ++ bef; after := rest; caps := ∅ |} = None.
Proof.
  induction aft as [|c aft IH]; intros bef i e; cbn [search].
  - destruct (match_at fl r _) as [e'|] eqn:E; [|discriminate].
    intros H. inversion H; subst. intros skipped rest _ Hlt. lia.
  - destruct (match_at fl r _) as [e'|] eqn:E.
    + intros H. inversion H; subst. intros skipped rest _ Hlt. lia.
    + intros H [|s skipped] rest Haft Hlt.
      * cbn in Haft. subst rest. exact E.
      * cbn in Haft. inversion Haft; subst.
        cbn [rev]. rewrite <- app_assoc. cbn [app].
        apply (IH _ _ _ H skipped rest eq_refl). cbn [length] in *. lia.
Qed.

(** The leftmost match of a pattern: where it starts, what it reads, and
    that no earlier position has a match. *)
Lemma find_match_leftmost R out a :
  find_match R out = Some a →
  ∃ pre m0 post e, out = pre ++ m0 ++ post
    ∧ m_index a = Some (length pre) ∧ m_item a 0 = Some m0
    ∧ match_at (re_flags R) (re_source R)
        {| before := rev pre; after := m0 ++ post; caps := ∅ |} = Some e
    ∧ before e = rev m0 ++ rev pre ∧ after e = post
    ∧ ∀ pre' rest', out = pre' ++ rest' → (length pre' < length pre)%nat →
        match_at (re_flags R) (re_source R)
          {| before := rev pre'; after := rest'; caps := ∅ |} = None.
Proof.
  unfold find_match. intros H.
  destruct (search (re_flags R) (re_source R) [] out) as [[start e]|] eqn:E;
    [|discriminate].
  cbn in H. inversion H; subst a; clear H.
  pose proof (search_leftmost _ _ _ _ _ _ E) as Hleft.
  apply search_found in E as [pre [rest [-> [-> Hm]]]].
  rewrite app_nil_r in Hm. cbn [length Nat.add] in *.
  pose proof Hm as Hreach. unfold match_at in Hreach.
  apply matcher_reaches in Hreach as [y [[l [Hafter Hbefore]] Hy]].
  inversion Hy; subst y; clear Hy. cbn [before after] in *.
  exists pre, l, (after e), e. subst rest.
  split; [reflexivity|]. split; [reflexivity|]. split; [|split; [exact Hm|]].
  - unfold m_item, match_array, pos. cbn. rewrite Hbefore.
    rewrite length_app, !length_rev.
    replace (length l + length pre - length pre)%nat with (length l) by lia.
    rewrite <- (length_rev l) at 1. rewrite take_app_length, rev_involutive.
    reflexivity.
  - split; [exact Hbefore|]. split; [reflexivity|].
    intros pre' rest' Hout Hlt.
    specialize (Hleft pre' rest' Hout Hlt). rewrite app_nil_r in Hleft. exact Hleft.
Qed.

(** C9: the message of a blocked result is the context of the leftmost
    match of the pattern that fired, which is the first pattern of the two
    tables that matches the combined output: the last 20 characters before
    the match, the match, the first 80 characters after it, trimmed, with
    every run of white space made one space, and cut to 150 characters
    plus an ellipsis when longer; [extractMessage] gives 'Permission
    required' when the pattern has no match. *)
Theorem message_is_context_window input σ :
  let out := stdout input ++ [10] ++ default [] (stderr input) in
  let res := (detect input σ).1 in
  (isBlocked res = true →
   ∃ i R pre m0 post e,
     all_patterns !! i = Some R
     ∧ (∀ j R', (j < i)%nat → all_patterns !! j = Some R' → matches R' out = false)
     ∧ out = pre ++ m0 ++ post
     ∧ match_at (re_flags R) (re_source R)
         {| before := rev pre; after := m0 ++ post; caps := ∅ |} = Some e
     ∧ before e = rev m0 ++ rev pre ∧ after e = post
     ∧ (∀ pre' rest', out = pre' ++ rest' → (length pre' < length pre)%nat →
          match_at (re_flags R) (re_source R)
            {| before := rev pre'; after := rest'; caps := ∅ |} = None)
     ∧ message res
       = Some (ellipsis_at 150 (squeeze (trim (context_window pre m0 post))))
     ∧ (∀ m, message res = Some m → (length m ≤ 153)%nat))
  ∧ (∀ R, stateless R = true → matches R out = false →
       (extractMessage out R σ).1 = js "Permission required").
Proof.
  intros out res. split.
  - subst res. unfold detect.
    destruct (other_agent (agentId input)); [cbn; discriminate|].
    rewrite classify_first_match. cbn [fst].
    change (combined input) with out. unfold first_match_result.
    assert (Hmsg : ∀ R a, find_match R out = Some a →
              ∃ pre m0 post e,
                out = pre ++ m0 ++ post
                ∧ match_at (re_flags R) (re_source R)
                    {| before := rev pre; after := m0 ++ post; caps := ∅ |} = Some e
                ∧ before e = rev m0 ++ rev pre ∧ after e = post
                ∧ (∀ pre' rest', out = pre' ++ rest' → (length pre' < length pre)%nat →
                     match_at (re_flags R) (re_source R)
                       {| before := rev pre'; after := rest'; caps := ∅ |} = None)
                ∧ message_of_match out (find_match R out)
                  = ellipsis_at 150 (squeeze (trim (context_window pre m0 post)))).
    { intros R a Ha.
      destruct (find_match_leftmost _ _ _ Ha)
        as [pre [m0 [post [e [Hout [Hidx [Hitem [Hm [Hbe [Hae Hleft]]]]]]]]]].
      exists pre, m0, post, e. repeat (split; [assumption|]).
      rewrite Ha. rewrite Hout at 1. apply message_of_match_window; assumption. }
    destruct (List.find (λ rule, matches (pattern rule) out) PERMISSION_PATTERNS)
      as [rule|] eqn:Ep.
    + intros _. apply find_some_first in Ep as [i [Hi [Hm Hbefore]]].
      destruct (matches_find_match _ _ Hm) as [a Ha].
      destruct (Hmsg _ _ Ha) as [pre [m0 [post [e [Hout [Hat [Hbe [Hae [Hleft E]]]]]]]]].
      cbn [message rule_result]. rewrite E.
      exists i, (pattern rule), pre, m0, post, e.
      split; [|split; [|repeat (split; [assumption|]); split; [reflexivity|]]].
      * unfold all_patterns. rewrite lookup_app_l by (apply lookup_lt_Some in Hi;
          rewrite length_fmap; exact Hi).
        rewrite list_lookup_fmap, Hi. reflexivity.
      * intros j R' Hj HR'. unfold all_patterns in HR'.
        rewrite lookup_app_l in HR' by (apply lookup_lt_Some in Hi;
          rewrite length_fmap; lia).
        rewrite list_lookup_fmap in HR'.
        destruct (PERMISSION_PATTERNS !! j) as [earlier|] eqn:Ej; [|discriminate].
        cbn in HR'. inversion HR'; subst. apply (Hbefore j earlier Hj Ej).
      * intros m Hm'. inversion Hm'; subst. apply (ellipsis_at_length 150).
    + destruct (List.find (λ ind, matches ind out) BLOCKED_INDICATORS)
        as [ind|] eqn:Ei; [intros _ | cbn; discriminate].
      apply find_some_first in Ei as [i [Hi [Hm Hbefore]]].
      destruct (matches_find_match _ _ Hm) as [a Ha].
      destruct (Hmsg _ _ Ha) as [pre [m0 [post [e [Hout [Hat [Hbe [Hae [Hleft E]]]]]]]]].
      cbn [message indicator_result]. rewrite E.
      exists (length PERMISSION_PATTERNS + i)%nat, ind, pre, m0, post, e.
      split; [|split; [|repeat (split; [assumption|]); split; [reflexivity|]]].
      * unfold all_patterns. rewrite lookup_app_r by (rewrite length_fmap; lia).
        rewrite length_fmap.
        replace (length PERMISSION_PATTERNS + i - length PERMISSION_PATTERNS)%nat
          with i by lia. exact Hi.
      * intros j R' Hj HR'. unfold all_patterns in HR'.
        destruct (decide (j < length PERMISSION_PATTERNS)%nat) as [Hlt | Hge].
        -- rewrite lookup_app_l in HR' by (rewrite length_fmap; exact Hlt).
           rewrite list_lookup_fmap in HR'.
           destruct (PERMISSION_PATTERNS !! j) as [earlier|] eqn:Ej; [|discriminate].
           cbn in HR'. inversion HR'; subst.
           apply (find_none_lookup _ _ Ep j earlier Ej).
        -- rewrite lookup_app_r in HR' by (rewrite length_fmap; lia).
           rewrite length_fmap in HR'.
           apply (Hbefore (j - length PERMISSION_PATTERNS)%nat R'); [lia | exact HR'].
      * intros m Hm'. inversion Hm'; subst. apply (ellipsis_at_length 150).
  - intros R Hs Hm. rewrite (extractMessage_stateless _ _ _ Hs). cbn [fst].
    unfold matches in Hm. apply bool_decide_eq_false in Hm.
    destruct (find_match R out) as [a|]; [|reflexivity].
    exfalso. apply Hm. eexists. reflexivity.
Qed.

Lemma message_is_context_window_witness :
  (message (detect wait_in_long_output ∅).1
   = Some (js "2] linking agent: waiting for permission (tool=deploy) hint: answer in the terminal that started the run, or stop the")
   ∧ ∃ i R pre m0 post e,
       all_patterns !! i = Some R
       ∧ stdout wait_in_long_output ++ [10] ++ default [] (stderr wait_in_long_output)
         = pre ++ m0 ++ post
       ∧ match_at (re_flags R) (re_source R)
           {| before := rev pre; after := m0 ++ post; caps := ∅ |} = Some e
       ∧ before e = rev m0 ++ rev pre
       ∧ message (detect wait_in_long_output ∅).1
         = Some (ellipsis_at 150 (squeeze (trim (context_window pre m0 post)))))
  ∧ (message (detect long_prompt_in_output ∅).1
     = Some (js "y, 214 files found. Claude wants to run: "
             ++ repeat (chr "x") 70 ++ js " The command above was proposed by the ...")
     ∧ ∃ i R pre m0 post e,
         all_patterns !! i = Some R
         ∧ stdout long_prompt_in_output ++ [10] ++ default [] (stderr long_prompt_in_output)
           = pre ++ m0 ++ post
         ∧ match_at (re_flags R) (re_source R)
             {| before := rev pre; after := m0 ++ post; caps := ∅ |} = Some e
         ∧ before e = rev m0 ++ rev pre
         ∧ message (detect long_prompt_in_output ∅).1
           = Some (ellipsis_at 150 (squeeze (trim (context_window pre m0 post))))).
Proof.
  split; (split; [vm_compute; reflexivity|]).
  - destruct (proj1 (message_is_context_window wait_in_long_output ∅))
      as [i [R [pre [m0 [post [e [Hi [_ [Hout [Hm [Hbe [_ [_ [Hmsg _]]]]]]]]]]]]]].
    + vm_compute. reflexivity.
    + exists i, R, pre, m0, post, e. auto.
  - destruct (proj1 (message_is_context_window long_prompt_in_output ∅))
      as [i [R [pre [m0 [post [e [Hi [_ [Hout [Hm [Hbe [_ [_ [Hmsg _]]]]]]]]]]]]]].
    + vm_compute. reflexivity.
    + exists i, R, pre, m0, post, e. auto.
Defined.

(** * Outputs whose waits are all in the past tense *)

(** A match of a waiting rule never starts right after a past-tense
    auxiliary and one white-space character. *)
Lemma waiting_match_not_past R out a i :
  R ∈ waiting_rules → find_match R out = Some a → m_index a = Some i →
  ¬ past_tense_before out i.
Proof.
  intros HR Hfind Hidx [pre [aux [ws [Htake [Hws Haux]]]]].
  apply waiting_rules_shape in HR as [Hfl [tail Hsrc]].
  unfold find_match in Hfind. rewrite Hfl, Hsrc in Hfind.
  destruct (search flags_i (not_past +++ tail) [] out) as [[start e]|] eqn:E;
    [|discriminate].
  cbn in Hfind. inversion Hfind; subst a. cbn in Hidx. inversion Hidx; subst start.
  apply search_found in E as [skipped [rest [Hout [Hi Hm]]]].
  cbn in Hi. subst i. rewrite Hout in Htake.
  rewrite take_app_length in Htake. subst skipped.
  unfold match_at in Hm.
  rewrite (not_past_excludes tail _ _ _ eq_refl) in Hm; [discriminate|].
  exists (rev pre), aux, ws. cbn [before].
  rewrite app_nil_r, !rev_app_distr. simpl. auto.
Qed.

(** An optional literal that matched was skipped or read a text that
    spells it. *)
Lemma opt_lit_inv (s : string) x k e :
  matcher flags_i (opt (lit s)) Forward x k = Some e →
  k x = Some e
  ∨ ∃ aux rest, after x = aux ++ rest ∧ Forall2 eq_ci aux (js s)
      ∧ k {| before := rev aux ++ before x; after := rest; caps := caps x |} = Some e.
Proof.
  unfold opt. cbn [matcher].
  replace (0 + length (subject x) + 1)%nat with (S (length (subject x))) by lia.
  cbn [repeat_matcher Nat.eqb negb]. intros H.
  apply or_else_some in H as [H | H]; [right | left; exact H].
  unfold lit in H. rewrite groups_lit in H.
  apply (literal_forward_inv flags_i _ eq_refl) in H as [aux [rest [Hafter [Haux H]]]].
  cbn [clear_caps foldr before after caps] in *.
  exists aux, rest. split; [exact Hafter|]. split; [exact Haux|].
  destruct (_ && _); [discriminate|].
  cbn [fmap option_fmap option_map Nat.pred] in H.
  destruct (length (subject x)); [discriminate | exact H].
Qed.

(** The text of a match of a waiting rule spells one of the phrases. *)
Lemma waiting_match_phrase R out a i :
  R ∈ waiting_rules → find_match R out = Some a → m_index a = Some i →
  ∃ phrase, phrase ∈ waiting_phrases ∧ occurs_ci phrase out i.
Proof.
  intros HR Ha Hidx.
  destruct (find_match_leftmost _ _ _ Ha)
    as [pre [m0 [post [e [Hout [Hi [_ [Hm _]]]]]]]].
  rewrite Hi in Hidx. inversion Hidx; subst i. clear Hidx Hi.
  assert (Hspelled : ∀ phrase aux rest,
            m0 ++ post = aux ++ rest → Forall2 eq_ci aux phrase →
            phrase ∈ waiting_phrases →
            ∃ phrase, phrase ∈ waiting_phrases ∧ occurs_ci phrase out (length pre)).
  { intros phrase aux rest Hsplit Haux Hin. exists phrase. split; [exact Hin|].
    exists pre, aux, rest. rewrite Hout, Hsplit. auto. }
  assert (Hstalled : ∀ s : string,
            js s ∈ waiting_phrases →
            match_at flags_i (re_stalled s)
              {| before := rev pre; after := m0 ++ post; caps := ∅ |} = Some e →
            ∃ phrase, phrase ∈ waiting_phrases ∧ occurs_ci phrase out (length pre)).
  { intros s Hin H. unfold match_at, re_stalled in H. rewrite matcher_seq in H.
    apply (only_lookbehinds_skip flags_i not_past _ _ _ eq_refl) in H. cbv beta in H.
    rewrite matcher_seq in H. apply boundary_pass in H. rewrite matcher_seq in H.
    unfold lit in H.
    apply (literal_forward_inv flags_i _ eq_refl) in H as [aux [rest [Hafter [Haux _]]]].
    cbn [after] in Hafter. eapply Hspelled; eauto. }
  unfold waiting_rules in HR. cbn in HR. rewrite list_elem_of_In in HR. simpl in HR.
  destruct HR as [<- | [<- | [<- | [<- | []]]]]; cbn [re_flags re_source mkRegExp] in Hm.
  - (* the fourth primary rule *)
    unfold match_at, re_waiting in Hm. rewrite matcher_seq in Hm.
    apply (only_lookbehinds_skip flags_i not_past _ _ _ eq_refl) in Hm. cbv beta in Hm.
    rewrite matcher_seq in Hm. apply boundary_pass in Hm. rewrite matcher_seq in Hm.
    unfold lit at 1 in Hm.
    apply (literal_forward_inv flags_i _ eq_refl) in Hm as [p1 [r1 [Hafter [Hp1 Hm]]]].
    cbn [before after caps] in *. rewrite matcher_seq in Hm.
    assert (Hend : ∀ bef aft c p,
              Forall2 eq_ci p (js "waiting for ") ∨ Forall2 eq_ci p (js "waiting for user ") →
              m0 ++ post = p ++ aft →
              matcher flags_i ((lit "permission" |+| lit "approval") +++ WordBoundary)
                Forward {| before := bef; after := aft; caps := c |} Some = Some e →
              ∃ phrase, phrase ∈ waiting_phrases ∧ occurs_ci phrase out (length pre)).
    { intros bef aft c p Hp Hsplit H. rewrite matcher_seq, matcher_alt in H.
      apply or_else_some in H as [H | H]; unfold lit in H;
        apply (literal_forward_inv flags_i _ eq_refl) in H as [w [r [Haft [Hw _]]]];
        cbn [after] in Haft; subst aft; rewrite app_assoc in Hsplit;
        destruct Hp as [Hp | Hp];
        (eapply Hspelled; [exact Hsplit | apply Forall2_app; [exact Hp | exact Hw] |]);
        unfold waiting_phrases; rewrite list_elem_of_In; simpl;
        repeat (first [left; reflexivity | right]). }
    apply opt_lit_inv in Hm as [Hm | [p2 [r2 [Hr1 [Hp2 Hm]]]]].
    + eapply (Hend _ _ _ p1); eauto.
    + cbn [before after caps] in *. subst r1.
      eapply (Hend _ _ _ (p1 ++ p2)); [right | rewrite <- app_assoc; exact Hafter | exact Hm].
      change (js "waiting for user ") with (js "waiting for " ++ js "user ").
      apply Forall2_app; assumption.
  - apply (Hstalled "waiting for input"%string); [|exact Hm].
    unfold waiting_phrases. rewrite list_elem_of_In. simpl. tauto.
  - apply (Hstalled "awaiting response"%string); [|exact Hm].
    unfold waiting_phrases. rewrite list_elem_of_In. simpl. tauto.
  - apply (Hstalled "paused for confirmation"%string); [|exact Hm].
    unfold waiting_phrases. rewrite list_elem_of_In. simpl. tauto.
Qed.

Lemma pattern_kinds R :
  R ∈ all_patterns → R ∈ waiting_rules ∨ R ∈ other_rules.
Proof.
  unfold all_patterns, waiting_rules, other_rules. cbn.
  rewrite !list_elem_of_In. simpl. tauto.
Qed.

(** The tests decide the notions. *)
Lemma occurs_b_spec phrase out i :
  occurs_ci phrase out i → occurs_b phrase out i = true ∧ (i ≤ length out)%nat.
Proof.
  intros [pre [m0 [post [-> [<- Hm]]]]]. split; [|rewrite length_app; lia].
  unfold occurs_b. rewrite drop_app_length. apply starts_with_spec.
  exists (toLowerCase post). apply Forall2_eq_ci_lower in Hm. rewrite <- Hm.
  unfold toLowerCase. rewrite map_app. reflexivity.
Qed.

Lemma past_b_spec out i : past_b out i = true → past_tense_before out i.
Proof.
  unfold past_b. destruct (rev (take i out)) as [|ws rest] eqn:E; [discriminate|].
  intros H. apply andb_true_iff in H as [Hws H].
  apply existsb_exists in H as [w [Hw Hs]].
  apply starts_with_spec in Hs as [tl Hs].
  unfold toLowerCase in Hs. change (List.map to_lower rest) with (to_lower <$> rest) in Hs.
  apply fmap_app_inv in Hs as [r1 [r2 [Hr1 [_ ->]]]].
  exists (rev r2), (rev r1), ws. split; [|split; [exact Hws|]].
  - apply (f_equal (@rev N)) in E. rewrite rev_involutive in E.
    rewrite E. cbn [rev]. rewrite rev_app_distr, <- app_assoc. reflexivity.
  - assert (Haux : Forall2 eq_ci (rev r1) w).
    { apply Forall2_eq_ci_lower. unfold toLowerCase.
      rewrite map_rev. change (List.map to_lower r1) with (to_lower <$> r1).
      rewrite <- Hr1, rev_involutive. reflexivity. }
    simpl in Hw. destruct Hw as [<- | [<- | [<- | []]]]; auto.
Qed.

Lemma only_past_waits_spec out :
  only_past_waits out = true →
  ∀ i phrase, phrase ∈ waiting_phrases → occurs_ci phrase out i →
    past_tense_before out i.
Proof.
  unfold only_past_waits. rewrite forallb_forall. intros H i phrase Hin Hocc.
  apply list_elem_of_In in Hin. specialize (H phrase Hin).
  rewrite forallb_forall in H.
  destruct (occurs_b_spec _ _ _ Hocc) as [Hb Hi].
  specialize (H i). rewrite Hb in H. apply past_b_spec. apply H.
  apply in_seq. lia.
Qed.

(** C2, as the code has it: an output in which every occurrence of a
    waiting phrase (in any letter case) comes right after 'was', 'were' or
    'been' and one white-space character, and which matches none of the
    rules without the past-tense exclusion, is not blocked; so is 'The
    agent was waiting for permission earlier'. *)
Theorem past_tense_not_matched :
  (∀ input σ,
     let out := stdout input ++ [10] ++ default [] (stderr input) in
     (∀ i phrase, phrase ∈ waiting_phrases → occurs_ci phrase out i →
        past_tense_before out i) →
     (∀ R, R ∈ other_rules → matches R out = false) →
     (detect input σ).1 = not_blocked)
  ∧ (∀ σ, (detect scenario_B σ).1 = not_blocked).
Proof.
  split; [|apply scenario_B_not_blocked].
  intros input σ out Hpast Hother.
  assert (Hnone : ∀ R, R ∈ all_patterns → matches R out = false).
  { intros R HR. destruct (pattern_kinds R HR) as [Hw | Ho]; [|exact (Hother R Ho)].
    destruct (matches R out) eqn:Hm; [exfalso | reflexivity].
    destruct (matches_find_match _ _ Hm) as [a Ha].
    destruct (find_match_leftmost _ _ _ Ha) as [pre [m0 [post [e [_ [Hi _]]]]]].
    destruct (waiting_match_phrase _ _ _ _ Hw Ha Hi) as [phrase [Hin Hocc]].
    exact (waiting_match_not_past _ _ _ _ Hw Ha Hi (Hpast _ _ Hin Hocc)). }
  destruct (detect_cases input σ) as [H | [[rule [Hr [Hm _]]] | [ind [Hi [Hm _]]]]];
    [exact H | exfalso | exfalso]; change (combined input) with out in Hm.
  - rewrite Hnone in Hm; [discriminate|].
    unfold all_patterns. apply elem_of_app. left. apply list_elem_of_fmap.
    exists rule. auto.
  - rewrite Hnone in Hm; [discriminate|].
    unfold all_patterns. apply elem_of_app. right. exact Hi.
Qed.

Lemma past_tense_not_matched_witness :
  (detect past_narration_input ∅).1 = not_blocked
  ∧ (detect scenario_B ∅).1 = not_blocked.
Proof.
  split; apply (proj1 past_tense_not_matched).
  - apply only_past_waits_spec. vm_compute. reflexivity.
  - intros R HR. unfold other_rules in HR. cbn in HR.
    rewrite list_elem_of_In in HR. simpl in HR.
    repeat (destruct HR as [<- | HR]; [vm_compute; reflexivity|]). contradiction.
  - apply only_past_waits_spec. vm_compute. reflexivity.
  - intros R HR. unfold other_rules in HR. cbn in HR.
    rewrite list_elem_of_In in HR. simpl in HR.
    repeat (destruct HR as [<- | HR]; [vm_compute; reflexivity|]). contradiction.
Defined.

(** * Runs of the Droid plugin *)

Section DroidRunProperties.

Context {B : Type}.
Variable base_initialize : gmap (list N) JsVal → B → outcome B.
Variable safeParse : DroidRawConfig → option DroidConfigData.
Variable DROID_DEFAULT_COMMAND : list N.

(** One [initialize] that returns: the fields after it. *)
Lemma initialize_fields config (self self' : DroidAgentPlugin B) :
  initialize base_initialize safeParse config self = Resolved self' →
  match safeParse (config_fields config) with
  | None =>
      meta self' = meta self ∧ model self' = model self
      ∧ reasoningEffort self' = reasoningEffort self
      ∧ skipPermissions self' = skipPermissions self
      ∧ enableTracing self' = enableTracing self
      ∧ warnings self' = warnings self
  | Some data =>
      meta self' = (if data_enableTracing data then meta self
                    else set_supportsSubagentTracing false (meta self))
      ∧ model self' = (if nonempty (data_model data) then data_model data
                       else model self)
      ∧ reasoningEffort self' = (if nonempty (data_reasoningEffort data)
                                 then data_reasoningEffort data
                                 else reasoningEffort self)
      ∧ skipPermissions self' = data_skipPermissions data
      ∧ enableTracing self' = data_enableTracing data
      ∧ warnings self' = (if data_skipPermissions data
                          then warnings self ++ [skip_permissions_warning]
                          else warnings self)
  end.
Proof.
  unfold initialize. fold (config_fields config).
  destruct (base_initialize config (base self)) as [b|reason]; [|discriminate].
  destruct (safeParse (config_fields config)) as [data|]; intros H;
    inversion H; subst; clear H; cbn.
  - destruct (data_enableTracing data); repeat split.
  - repeat split.
Qed.

(** An invariant of the object is kept by every run that returns. *)
Lemma initialize_all_invariant (P : DroidAgentPlugin B → Prop) :
  (∀ config self self',
     initialize base_initialize safeParse config self = Resolved self' →
     P self → P self') →
  ∀ configs self self',
    initialize_all base_initialize safeParse configs self = Resolved self' →
    P self → P self'.
Proof.
  intros Hstep. induction configs as [|config rest IH]; intros self self' H HP.
  - inversion H; subst. exact HP.
  - cbn [initialize_all] in H.
    destruct (initialize base_initialize safeParse config self) as [s|reason] eqn:E;
      [|discriminate].
    eapply IH; [exact H|]. eapply Hstep; eauto.
Qed.

(** X13: after any number of [initialize] calls on a new plugin, the
    descriptor advertises subagent tracing only if tracing is enabled, and
    the descriptor is the initial one or the initial one with
    [supportsSubagentTracing] false. *)
Theorem descriptor_never_overstates_tracing configs b self' :
  initialize_all base_initialize safeParse configs (new_plugin DROID_DEFAULT_COMMAND b)
  = Resolved self' →
  (supportsSubagentTracing (meta self') = true → enableTracing self' = true)
  ∧ (meta self' = droid_meta DROID_DEFAULT_COMMAND
     ∨ meta self' = set_supportsSubagentTracing false (droid_meta DROID_DEFAULT_COMMAND)).
Proof.
  intros H.
  refine (initialize_all_invariant
            (λ s, (supportsSubagentTracing (meta s) = true → enableTracing s = true)
                  ∧ (meta s = droid_meta DROID_DEFAULT_COMMAND
                     ∨ meta s = set_supportsSubagentTracing false
                                  (droid_meta DROID_DEFAULT_COMMAND)))
            _ configs _ _ H _).
  - clear. intros config self self' Hinit [Hinv Hmeta].
    apply initialize_fields in Hinit.
    destruct (safeParse (config_fields config)) as [data|].
    + destruct Hinit as (Hm & _ & _ & _ & Ht & _). rewrite Hm, Ht.
      destruct (data_enableTracing data).
      * split; [reflexivity | exact Hmeta].
      * split; [cbn; discriminate|]. right.
        destruct Hmeta as [-> | ->]; reflexivity.
    + destruct Hinit as (Hm & _ & _ & _ & Ht & _). rewrite Hm, Ht. auto.
  - split; [reflexivity | left; reflexivity].
Qed.

(** X14: [supportsSubagentTracing] is never turned back on: once it is
    false it is false after any further [initialize] calls, also with
    configurations that enable tracing again. *)
Theorem tracing_capability_never_restored configs (self self' : DroidAgentPlugin B) :
  supportsSubagentTracing (meta self) = false →
  initialize_all base_initialize safeParse configs self = Resolved self' →
  supportsSubagentTracing (meta self') = false.
Proof.
  intros Hoff H.
  refine (initialize_all_invariant
            (λ s, supportsSubagentTracing (meta s) = false) _ configs _ _ H Hoff).
  clear. intros config self self' Hinit Hinv.
  apply initialize_fields in Hinit.
  destruct (safeParse (config_fields config)) as [data|];
    destruct Hinit as (Hm & _); rewrite Hm; [|exact Hinv].
  destruct (data_enableTracing data); [exact Hinv | reflexivity].
Qed.

(** X15: skip-permissions mode is never on silently: after any number of
    [initialize] calls on a new plugin, if [skipPermissions] is set then
    the last line written with [console.warn] is the warning; nothing
    else is ever written, and at most one line per call. *)
Theorem skip_permissions_never_silent configs b self' :
  initialize_all base_initialize safeParse configs (new_plugin DROID_DEFAULT_COMMAND b)
  = Resolved self' →
  (skipPermissions self' = true → last (warnings self') = Some skip_permissions_warning)
  ∧ Forall (λ line, line = skip_permissions_warning) (warnings self')
  ∧ (length (warnings self') ≤ length configs)%nat.
Proof.
  intros H.
  assert (Hlen : ∀ configs (self self' : DroidAgentPlugin B),
            initialize_all base_initialize safeParse configs self = Resolved self' →
            (length (warnings self') ≤ length (warnings self) + length configs)%nat).
  { clear. induction configs as [|config rest IH]; intros self self' H.
    - inversion H; subst. simpl. lia.
    - cbn [initialize_all] in H.
      destruct (initialize base_initialize safeParse config self) as [s|reason] eqn:E;
        [|discriminate].
      apply IH in H. apply initialize_fields in E.
      assert (length (warnings s) ≤ length (warnings self) + 1)%nat.
      { destruct (safeParse (config_fields config)) as [data|];
          destruct E as (_ & _ & _ & _ & _ & Hw); rewrite Hw; [|lia].
        destruct (data_skipPermissions data); [rewrite length_app; simpl|]; lia. }
      simpl. lia. }
  split; [|split; [|apply Hlen in H; exact H]].
  - refine (initialize_all_invariant
              (λ s, skipPermissions s = true
                    → last (warnings s) = Some skip_permissions_warning)
              _ configs _ _ H _); [|discriminate].
    clear. intros config self self' Hinit Hinv.
    apply initialize_fields in Hinit.
    destruct (safeParse (config_fields config)) as [data|];
      destruct Hinit as (_ & _ & _ & Hs & _ & Hw); rewrite Hs, Hw; [|exact Hinv].
    destruct (data_skipPermissions data); [|discriminate].
    intros _. apply last_snoc.
  - refine (initialize_all_invariant
              (λ s, Forall (λ line, line = skip_permissions_warning) (warnings s))
              _ configs _ _ H _); [|constructor].
    clear. intros config self self' Hinit Hinv.
    apply initialize_fields in Hinit.
    destruct (safeParse (config_fields config)) as [data|];
      destruct Hinit as (_ & _ & _ & _ & _ & Hw); rewrite Hw; [|exact Hinv].
    destruct (data_skipPermissions data); [|exact Hinv].
    apply Forall_app. split; [exact Hinv | repeat constructor].
Qed.

(** X16: a model and a reasoning effort, once set, are never unset, and
    are never set to the empty text: over any run of [initialize] calls
    that returns, a field that was a non-empty text is one afterwards, and
    a field that was not the empty text is not the empty text afterwards
    (so never on a new plugin). *)
Theorem model_once_set_stays_set configs (self self' : DroidAgentPlugin B) :
  initialize_all base_initialize safeParse configs self = Resolved self' →
  (nonempty (model self) = true → nonempty (model self') = true)
  ∧ (nonempty (reasoningEffort self) = true → nonempty (reasoningEffort self') = true)
  ∧ (model self ≠ Some [] → model self' ≠ Some [])
  ∧ (reasoningEffort self ≠ Some [] → reasoningEffort self' ≠ Some []).
Proof.
  intros H.
  assert (Hne : ∀ o : option (list N), nonempty o = true → o ≠ Some []).
  { intros [[|c t]|]; simpl; congruence. }
  split; [|split; [|split]]; intros Hset.
  - refine (initialize_all_invariant (λ s, nonempty (model s) = true)
              _ configs _ _ H Hset).
    clear. intros config self self' Hinit Hinv. apply initialize_fields in Hinit.
    destruct (safeParse (config_fields config)) as [data|];
      destruct Hinit as (_ & Hm & _); rewrite Hm; [|exact Hinv].
    destruct (nonempty (data_model data)) eqn:E; [exact E | exact Hinv].
  - refine (initialize_all_invariant (λ s, nonempty (reasoningEffort s) = true)
              _ configs _ _ H Hset).
    clear. intros config self self' Hinit Hinv. apply initialize_fields in Hinit.
    destruct (safeParse (config_fields config)) as [data|];
      destruct Hinit as (_ & _ & Hm & _); rewrite Hm; [|exact Hinv].
    destruct (nonempty (data_reasoningEffort data)) eqn:E; [exact E | exact Hinv].
  - refine (initialize_all_invariant (λ s, model s ≠ Some [])
              _ configs _ _ H Hset).
    clear -Hne. intros config self self' Hinit Hinv. apply initialize_fields in Hinit.
    destruct (safeParse (config_fields config)) as [data|];
      destruct Hinit as (_ & Hm & _); rewrite Hm; [|exact Hinv].
    destruct (nonempty (data_model data)) eqn:E; [|exact Hinv].
    apply Hne. exact E.
  - refine (initialize_all_invariant (λ s, reasoningEffort s ≠ Some [])
              _ configs _ _ H Hset).
    clear -Hne. intros config self self' Hinit Hinv. apply initialize_fields in Hinit.
    destruct (safeParse (config_fields config)) as [data|];
      destruct Hinit as (_ & _ & Hm & _); rewrite Hm; [|exact Hinv].
    destruct (nonempty (data_reasoningEffort data)) eqn:E; [|exact Hinv].
    apply Hne. exact E.
Qed.

End DroidRunProperties.

Lemma descriptor_never_overstates_tracing_witness :
  ∃ self',
    initialize_all example_base_initialize example_safeParse
      [tracing_off; model_42; tracing_on] example_plugin = Resolved self'
    ∧ (supportsSubagentTracing (meta self') = true → enableTracing self' = true)
    ∧ (meta self' = droid_meta (js "droid")
       ∨ meta self' = set_supportsSubagentTracing false (droid_meta (js "droid"))).
Proof.
  eexists. split; [vm_compute; reflexivity|].
  apply (descriptor_never_overstates_tracing example_base_initialize example_safeParse
           (js "droid") [tracing_off; model_42; tracing_on] ∅).
  vm_compute. reflexivity.
Defined.

Lemma tracing_capability_never_restored_witness :
  initialize example_base_initialize example_safeParse tracing_off example_plugin
  = Resolved untraced_plugin
  ∧ ∃ self',
      initialize_all example_base_initialize example_safeParse
        [tracing_on; model_opus] untraced_plugin = Resolved self'
      ∧ enableTracing self' = true
      ∧ supportsSubagentTracing (meta self') = false.
Proof.
  split; [vm_compute; reflexivity|].
  eexists. split; [vm_compute; reflexivity|]. split; [reflexivity|].
  apply (tracing_capability_never_restored example_base_initialize example_safeParse
           [tracing_on; model_opus] untraced_plugin).
  - reflexivity.
  - vm_compute. reflexivity.
Defined.

Lemma skip_permissions_never_silent_witness :
  ∃ self',
    initialize_all example_base_initialize example_safeParse
      [skip_on; tracing_off; model_42; skip_on] example_plugin = Resolved self'
    ∧ (skipPermissions self' = true
       → last (warnings self') = Some skip_permissions_warning)
    ∧ Forall (λ line, line = skip_permissions_warning) (warnings self')
    ∧ (length (warnings self') ≤ 4)%nat.
Proof.
  eexists. split; [vm_compute; reflexivity|].
  apply (skip_permissions_never_silent example_base_initialize example_safeParse
           (js "droid") [skip_on; tracing_off; model_42; skip_on] ∅).
  vm_compute. reflexivity.
Defined.

Lemma model_once_set_stays_set_witness :
  initialize example_base_initialize example_safeParse model_opus example_plugin
  = Resolved opus_plugin
  ∧ ∃ self',
      initialize_all example_base_initialize example_safeParse
        [model_empty; tracing_off; model_42] opus_plugin = Resolved self'
      ∧ model self' = Some (js "opus")
      ∧ (nonempty (model opus_plugin) = true → nonempty (model self') = true)
      ∧ (nonempty (reasoningEffort opus_plugin) = true
         → nonempty (reasoningEffort self') = true)
      ∧ (model opus_plugin ≠ Some [] → model self' ≠ Some [])
      ∧ (reasoningEffort opus_plugin ≠ Some [] → reasoningEffort self' ≠ Some []).
Proof.
  split; [vm_compute; reflexivity|].
  eexists. split; [vm_compute; reflexivity|]. split; [reflexivity|].
  apply (model_once_set_stays_set example_base_initialize example_safeParse
           [model_empty; tracing_off; model_42] opus_plugin).
  vm_compute. reflexivity.
Defined.

(** * [buildArgs] after [initialize] *)

Section DroidBuildProperties.

Context {B : Type}.
Variable base_initialize : gmap (list N) JsVal → B → outcome B.
Variable safeParse : DroidRawConfig → option DroidConfigData.
Variable DROID_DEFAULT_COMMAND : list N.
Variable buildDroidCommandArgs : DroidCommandArgs → list (list N).
Variable process_cwd : list N.

(** X17: what [buildArgs] hands to the command builder after any number
    of [initialize] calls on a new plugin: the prompt as given, never an
    empty model or reasoning effort, tracing whenever the descriptor
    advertises it and the options ask for it, and no tracing when the
    options do not ask for it. *)
Theorem build_args_after_initialize configs b self' prompt options :
  initialize_all base_initialize safeParse configs (new_plugin DROID_DEFAULT_COMMAND b)
  = Resolved self' →
  ∃ args,
    buildArgs buildDroidCommandArgs process_cwd prompt options self'
    = buildDroidCommandArgs args
    ∧ arg_prompt args = prompt
    ∧ arg_model args ≠ Some [] ∧ arg_reasoningEffort args ≠ Some []
    ∧ (supportsSubagentTracing (meta self') = true →
       options ≫= subagentTracing = Some true → arg_enableTracing args = true)
    ∧ (options ≫= subagentTracing ≠ Some true → arg_enableTracing args = false).
Proof.
  intros H.
  assert (Hinv : (supportsSubagentTracing (meta self') = true → enableTracing self' = true)
                 ∧ model self' ≠ Some [] ∧ reasoningEffort self' ≠ Some []).
  { refine (initialize_all_invariant base_initialize safeParse
              (λ s, (supportsSubagentTracing (meta s) = true → enableTracing s = true)
                    ∧ model s ≠ Some [] ∧ reasoningEffort s ≠ Some [])
              _ configs _ _ H _).
    - clear. intros config self self' Hinit (Ht & Hm & Hr).
      apply initialize_fields in Hinit.
      destruct (safeParse (config_fields config)) as [data|].
      + destruct Hinit as (Hmeta & Hmodel & Heffort & _ & Htr & _).
        rewrite Hmeta, Hmodel, Heffort, Htr. split; [|split].
        * destruct (data_enableTracing data); [reflexivity | cbn; discriminate].
        * destruct (data_model data) as [[|c t]|]; cbn; [exact Hm | discriminate | exact Hm].
        * destruct (data_reasoningEffort data) as [[|c t]|]; cbn;
            [exact Hr | discriminate | exact Hr].
      + destruct Hinit as (Hmeta & Hmodel & Heffort & _ & Htr & _).
        rewrite Hmeta, Hmodel, Heffort, Htr. auto.
    - repeat split; discriminate. }
  destruct Hinv as (Ht & Hm & Hr).
  eexists. split; [reflexivity|]. cbn [arg_prompt arg_model arg_reasoningEffort arg_enableTracing].
  split; [reflexivity|]. split; [exact Hm|]. split; [exact Hr|]. split.
  - intros Hs Ho. rewrite (Ht Hs), Ho. reflexivity.
  - intros Ho. rewrite (bool_decide_eq_false_2 _ Ho). apply andb_false_r.
Qed.

End DroidBuildProperties.

Lemma build_args_after_initialize_witness :
  ∃ self',
    initialize_all example_base_initialize example_safeParse
      [model_opus; model_empty; skip_on] example_plugin = Resolved self'
    ∧ buildArgs example_builder (js "/") (js "fix the bug") (Some tracing_options) self'
      = [js "exec"; js "--cwd"; js "/work"; js "--model"; js "opus";
         js "--reasoning-effort"; js "high"; js "--skip-permissions-unsafe";
         js "--output-format"; js "stream-json"; js "fix the bug"]
    ∧ ∃ args,
        buildArgs example_builder (js "/") (js "fix the bug") (Some tracing_options) self'
        = example_builder args
        ∧ arg_prompt args = js "fix the bug"
        ∧ arg_model args ≠ Some [] ∧ arg_reasoningEffort args ≠ Some []
        ∧ (supportsSubagentTracing (meta self') = true →
           Some tracing_options ≫= subagentTracing = Some true →
           arg_enableTracing args = true)
        ∧ (Some tracing_options ≫= subagentTracing ≠ Some true →
           arg_enableTracing args = false).
Proof.
  eexists. split; [vm_compute; reflexivity|]. split; [vm_compute; reflexivity|].
  apply (build_args_after_initialize example_base_initialize example_safeParse
           (js "droid") example_builder (js "/")
           [model_opus; model_empty; skip_on] ∅).
  vm_compute. reflexivity.
Defined.

(** * The dialogs of the interface *)

Lemma detect_operations input σ op :
  operation (detect input σ).1 = Some op →
  op ∈ [js "bash command"; js "file modification"; js "file edit"; js "operation";
        js "permission request"; js "user confirmation"; js "git operation";
        js "interactive prompt"; js "blocked operation"].
Proof.
  intros Hop.
  destruct (detect_cases input σ) as [H | [[rule [Hr [_ H]]] | [ind [_ [_ H]]]]];
    rewrite H in Hop; cbn [operation not_blocked rule_result indicator_result] in Hop.
  - discriminate.
  - inversion Hop; subst op; clear Hop. revert Hr. unfold PERMISSION_PATTERNS.
    rewrite !elem_of_cons, elem_of_nil.
    intros [-> | [-> | [-> | [-> | [-> | [-> | [-> | [-> | []]]]]]]]];
      cbn [operationName]; rewrite list_elem_of_In; simpl; tauto.
  - inversion Hop; subst op. rewrite list_elem_of_In. simpl. tauto.
Qed.

(** X18: the dialog explains every operation that [detect] can report:
    [getOperationContext] falls to its default explanation for the
    operations 'operation' and 'blocked operation' and for no other
    operation of a detection result. *)
Theorem detected_operations_have_context input σ op :
  operation (detect input σ).1 = Some op →
  (getOperationContext op = default_context
   ↔ (op = js "operation" ∨ op = js "blocked operation")).
Proof.
  intros Hop. apply detect_operations in Hop.
  rewrite list_elem_of_In in Hop. simpl in Hop.
  destruct Hop as [<- | [<- | [<- | [<- | [<- | [<- | [<- | [<- | [<- | []]]]]]]]]];
    (split; [intros H; vm_compute in H; first [discriminate | tauto]
            | intros [H | H]; first [reflexivity | vm_compute in H; discriminate]]).
Qed.

Lemma detected_operations_have_context_witness :
  operation (detect two_rules_input ∅).1 = Some (js "bash command")
  ∧ (getOperationContext (js "bash command") = default_context
     ↔ (js "bash command" = js "operation" ∨ js "bash command" = js "blocked operation")).
Proof.
  split; [vm_compute; reflexivity|].
  apply (detected_operations_have_context two_rules_input ∅).
  vm_compute. reflexivity.
Defined.

(** ** The keyboard handler *)

Lemma slice_drop_last s : slice s 0 (-1) = take (length s - 1) s.
Proof.
  unfold slice, rel_index. cbn [Z.ltb Z.compare].
  replace (Z.to_nat (Z.min 0 (Z.of_nat (length s)))) with 0%nat by lia.
  cbn [drop]. f_equal. lia.
Qed.

Lemma press_char st key :
  char_key key = true →
  press true st key
  = {| rendered := rendered st; state := state st ++ default [] (sequence key);
       called := called st |}.
Proof.
  unfold char_key. intros H. apply andb_true_iff in H as [Hn Hs].
  apply bool_decide_eq_true in Hn. rewrite !not_elem_of_cons in Hn.
  destruct Hn as (H1 & H2 & H3 & H4 & _).
  unfold press, handleKeypress. cbn [negb].
  rewrite !bool_decide_eq_false_2 by assumption. cbn [orb negb].
  destruct (sequence key) as [[|c [|c' t]]|]; try discriminate.
  cbn. rewrite app_nil_r. reflexivity.
Qed.

Lemma press_backspace st key :
  key_name key = js "backspace" →
  press true st key
  = {| rendered := rendered st; state := take (length (state st) - 1) (state st);
       called := called st |}.
Proof.
  intros H. unfold press, handleKeypress. rewrite H. cbn [negb].
  rewrite !(bool_decide_eq_false_2 (js "backspace" = _)) by discriminate.
  rewrite bool_decide_eq_true_2 by reflexivity.
  cbn [orb next_state foldl callbacks List.filter apply_update].
  rewrite slice_drop_last, app_nil_r. reflexivity.
Qed.

(** Enter reads the value of the last render, not the state. *)
Lemma press_enter st key :
  key_name key = js "return" ∨ key_name key = js "enter" →
  press true st key
  = if bool_decide (trim (rendered st) = []) then st
    else {| rendered := rendered st; state := [];
            called := called st ++ [OnSubmit (trim (rendered st))] |}.
Proof.
  intros H. unfold press, handleKeypress.
  assert (E : bool_decide (key_name key = js "escape") = false)
    by (apply bool_decide_eq_false_2; destruct H as [-> | ->]; discriminate).
  assert (E' : bool_decide (key_name key = js "return")
               || bool_decide (key_name key = js "enter") = true)
    by (destruct H as [-> | ->]; reflexivity).
  cbn [negb]. rewrite E, E'.
  destruct (trim (rendered st)) as [|c t] eqn:Et; cbn.
  - rewrite app_nil_r. destruct st; reflexivity.
  - reflexivity.
Qed.

(** Keys that type, with renders anywhere between them. *)
Lemma play_typed evs : ∀ st,
  forallb char_key (keys_of evs) = true →
  state (play true st evs) = state st ++ typed (keys_of evs)
  ∧ called (play true st evs) = called st.
Proof.
  induction evs as [|[key|] evs IH]; intros st H.
  - cbn. rewrite app_nil_r. auto.
  - cbn [keys_of omap list_omap] in H. cbn [forallb] in H.
    apply andb_true_iff in H as [Hk H].
    cbn [play foldl step]. destruct (IH (press true st key) H) as [Hs Hc].
    unfold play in Hs, Hc. rewrite Hs, Hc. rewrite (press_char _ _ Hk). cbn [state called].
    unfold typed. cbn [keys_of omap list_omap fmap list_fmap concat].
    rewrite app_assoc. auto.
  - cbn [play foldl step]. destruct (IH (render st) H) as [Hs Hc].
    unfold play in Hs, Hc. rewrite Hs, Hc. auto.
Qed.

(** Backspaces, with renders anywhere between them. *)
Lemma play_backspaces bs : key_name bs = js "backspace" →
  ∀ evs n st, keys_of evs = repeat bs n →
    state (play true st evs) = take (length (state st) - n) (state st)
    ∧ called (play true st evs) = called st.
Proof.
  intros Hb. induction evs as [|[key|] evs IH]; intros n st H.
  - destruct n; [|discriminate]. cbn. rewrite Nat.sub_0_r, firstn_all. auto.
  - cbn [keys_of omap list_omap] in H. destruct n as [|n]; [discriminate|].
    cbn [repeat] in H. inversion H as [[Hkey Hrest]]. subst key.
    cbn [play foldl step]. destruct (IH n (press true st bs) Hrest) as [Hs Hc].
    unfold play in Hs, Hc. rewrite Hs, Hc. rewrite (press_backspace _ _ Hb).
    cbn [state called]. rewrite length_take, take_take. split; [|reflexivity].
    f_equal. lia.
  - cbn [play foldl step]. destruct (IH n (render st) H) as [Hs Hc].
    unfold play in Hs, Hc. rewrite Hs, Hc. auto.
Qed.

Lemma typed_length keys :
  forallb char_key keys = true → length (typed keys) = length keys.
Proof.
  induction keys as [|key keys IH]; [reflexivity|]. intros Hk.
  cbn [forallb] in Hk. apply andb_true_iff in Hk as [Hkey Hk].
  unfold typed. cbn [fmap list_fmap concat]. rewrite length_app.
  fold (typed keys). rewrite (IH Hk).
  unfold char_key in Hkey. apply andb_true_iff in Hkey as [_ Hs].
  destruct (sequence key) as [[|c [|c' t]]|]; try discriminate. reflexivity.
Qed.

(** X19: typing and Enter: after keys that type one character each (with
    renders anywhere between them), Enter, under either of its names,
    reads the value of the last render.  After a render that shows what
    was typed it submits the input, trimmed, once, and clears it (when
    that is empty or white space only, nothing is submitted and the input
    is kept); before that render it submits what the last render showed,
    so nothing after a render of an empty input, whatever was typed
    since. *)
Theorem typing_then_enter_submits evs enter st :
  forallb char_key (keys_of evs) = true →
  key_name enter = js "return" ∨ key_name enter = js "enter" →
  let text := state st ++ typed (keys_of evs) in
  play true st (evs ++ [Render; Key enter])
  = (if bool_decide (trim text = [])
     then {| rendered := text; state := text; called := called st |}
     else {| rendered := text; state := [];
             called := called st ++ [OnSubmit (trim text)] |})
  ∧ play true st (evs ++ [Key enter])
    = (let shown := rendered (play true st evs) in
       if bool_decide (trim shown = [])
       then {| rendered := shown; state := text; called := called st |}
       else {| rendered := shown; state := [];
               called := called st ++ [OnSubmit (trim shown)] |}).
Proof.
  intros Hk He text. destruct (play_typed evs st Hk) as [Hs Hc]. fold text in Hs.
  unfold play in *. rewrite !foldl_app. cbn [foldl step]. rewrite !(press_enter _ _ He).
  unfold render. cbn [rendered state called]. rewrite Hs, Hc. split.
  - destruct (bool_decide (trim text = [])); reflexivity.
  - destruct (bool_decide (trim (rendered (foldl (step true) st evs)) = []));
      [|reflexivity].
    destruct (foldl (step true) st evs) as [r s c]. cbn [rendered state called] in *.
    subst. reflexivity.
Qed.

Lemma typing_then_enter_submits_witness :
  (play true (showing []) (typing_ls ++ [Render; Key return_key])
   = {| rendered := js " ls -a" ++ [9]; state := [];
        called := [OnSubmit (js "ls -a")] |}
   ∧ play true (showing []) (typing_ls ++ [Key return_key])
     = {| rendered := js " l"; state := [];
          called := [OnSubmit (js "l")] |})
  ∧ play true (showing []) ((Key <$> keys_ls) ++ [Key return_key])
    = {| rendered := []; state := js " ls -a" ++ [9]; called := [] |}.
Proof.
  split.
  - apply (typing_then_enter_submits typing_ls return_key (showing [])).
    + reflexivity.
    + left. reflexivity.
  - refine (proj2 (typing_then_enter_submits (Key <$> keys_ls) return_key (showing [])
                     _ _)); [reflexivity | left; reflexivity].
Defined.

(** X20: Backspace deletes from the end: after keys that type one character
    each, [n] presses of Backspace leave the input without its last [n]
    code units (empty when it had fewer), and nothing is submitted or
    cancelled, whatever renders happen in between; as many presses as keys
    typed give the input back. *)
Theorem backspaces_delete_from_the_end evs bevs bs n st :
  forallb char_key (keys_of evs) = true → key_name bs = js "backspace" →
  keys_of bevs = repeat bs n →
  let text := state st ++ typed (keys_of evs) in
  state (play true st (evs ++ bevs)) = take (length text - n) text
  ∧ called (play true st (evs ++ bevs)) = called st
  ∧ (n = length (keys_of evs) → state (play true st (evs ++ bevs)) = state st).
Proof.
  intros Hk Hb Hbevs text.
  destruct (play_typed evs st Hk) as [Hs Hc]. fold text in Hs.
  destruct (play_backspaces bs Hb bevs n (play true st evs) Hbevs) as [Hs' Hc'].
  assert (E : play true st (evs ++ bevs) = play true (play true st evs) bevs)
    by (unfold play; apply foldl_app).
  rewrite E, Hs', Hc', Hs, Hc. split; [reflexivity|]. split; [reflexivity|].
  intros ->. unfold text. rewrite length_app, (typed_length _ Hk).
  replace (length (state st) + length (keys_of evs) - length (keys_of evs))%nat
    with (length (state st)) by lia.
  apply take_app_length.
Qed.

Lemma backspaces_delete_from_the_end_witness :
  (state (play true (showing (js "rm"))
            (typing_ls ++ [Key (key_of "backspace" ""); Render;
                           Key (key_of "backspace" ""); Key (key_of "backspace" "")]))
   = js "rm ls "
   ∧ called (play true (showing (js "rm"))
               (typing_ls ++ [Key (key_of "backspace" ""); Render;
                              Key (key_of "backspace" ""); Key (key_of "backspace" "")]))
     = [])
  ∧ state (play true (showing (js "rm"))
             (typing_ls ++ (Key <$> repeat (key_of "backspace" "") 7)))
    = js "rm".
Proof.
  split.
  - destruct (backspaces_delete_from_the_end typing_ls
                [Key (key_of "backspace" ""); Render; Key (key_of "backspace" "");
                 Key (key_of "backspace" "")]
                (key_of "backspace" "") 3 (showing (js "rm")))
      as (Hs & Hc & _); [reflexivity | reflexivity | reflexivity|].
    split; [exact Hs | exact Hc].
  - destruct (backspaces_delete_from_the_end typing_ls
                (Key <$> repeat (key_of "backspace" "") 7)
                (key_of "backspace" "") 7 (showing (js "rm")))
      as (_ & _ & Hback); [reflexivity | reflexivity | reflexivity|].
    apply Hback. reflexivity.
Defined.

(** What one key press can call. *)
Lemma handleKeypress_cases visible value key :
  handleKeypress visible value key = []
  ∨ handleKeypress visible value key = [SetInputValue (SetTo []); OnCancel]
  ∨ (handleKeypress visible value key = [OnSubmit (trim value); SetInputValue (SetTo [])]
     ∧ trim value ≠ [])
  ∨ handleKeypress visible value key = [SetInputValue DropLast]
  ∨ ∃ c, handleKeypress visible value key = [SetInputValue (Append [c])].
Proof.
  unfold handleKeypress. destruct visible; cbn [negb]; [|auto].
  destruct (bool_decide (key_name key = js "escape")); [auto|].
  destruct (bool_decide (key_name key = js "return") || bool_decide (key_name key = js "enter")).
  - destruct (trim value) as [|c t]; cbn; [auto|].
    right. right. left. split; [reflexivity | discriminate].
  - destruct (bool_decide (key_name key = js "backspace")); [auto|]. cbn [negb andb].
    destruct (sequence key) as [[|c [|c' t]]|]; cbn; eauto 10.
Qed.

(** X21: what is submitted: over any keys and renders, from any rendered
    value and any state, every text given to [onSubmit] is non-empty and
    has no white space at either end, nothing but [onSubmit] and
    [onCancel] is called back, the input is empty right after a key that
    submitted or cancelled, and an invisible dialog ignores every key. *)
Theorem submissions_are_trimmed visible evs shown value :
  let st0 := {| rendered := shown; state := value; called := [] |} in
  Forall (λ c, match c with
               | OnSubmit s => s ≠ [] ∧ ink_first s ∧ ink_last s
               | OnCancel => True
               | SetInputValue _ => False
               end) (called (play visible st0 evs))
  ∧ (∀ st key, called (press visible st key) ≠ called st → state (press visible st key) = [])
  ∧ (visible = false →
     state (play visible st0 evs) = value ∧ called (play visible st0 evs) = []).
Proof.
  intros st0. split; [|split].
  - unfold play.
    assert (H : ∀ st,
      Forall (λ c, match c with
                   | OnSubmit s => s ≠ [] ∧ ink_first s ∧ ink_last s
                   | OnCancel => True
                   | SetInputValue _ => False
                   end) (called st) →
      Forall (λ c, match c with
                   | OnSubmit s => s ≠ [] ∧ ink_first s ∧ ink_last s
                   | OnCancel => True
                   | SetInputValue _ => False
                   end) (called (foldl (step visible) st evs))).
    { induction evs as [|[key|] evs IH]; intros st Hst; [exact Hst| |].
      - cbn [foldl step]. apply IH. unfold press. cbn [called].
        apply Forall_app. split; [exact Hst|].
        destruct (handleKeypress_cases visible (rendered st) key)
          as [E | [E | [[E Hne] | [E | [c E]]]]]; rewrite E; cbn; repeat constructor.
        + exact Hne.
        + destruct (trim_spec (rendered st)) as [a [b (_ & _ & _ & Hf & _)]]. exact Hf.
        + destruct (trim_spec (rendered st)) as [a [b (_ & _ & _ & _ & Hl)]]. exact Hl.
      - cbn [foldl step]. apply IH. exact Hst. }
    apply H. constructor.
  - intros st key. unfold press. cbn [state called].
    destruct (handleKeypress_cases visible (rendered st) key)
      as [E | [E | [[E Hne] | [E | [c E]]]]]; rewrite E; cbn;
      rewrite ?app_nil_r; congruence.
  - intros ->. unfold play.
    assert (H : ∀ st, state (foldl (step false) st evs) = state st
                      ∧ called (foldl (step false) st evs) = called st).
    { induction evs as [|[key|] evs IH]; intros st; [auto| |].
      - cbn [foldl step]. destruct (IH (press false st key)) as [Hs Hc].
        rewrite Hs, Hc. unfold press. cbn. rewrite app_nil_r. auto.
      - cbn [foldl step]. destruct (IH (render st)) as [Hs Hc].
        rewrite Hs, Hc. auto. }
    apply (H st0).
Qed.

(** ** The task list *)

Lemma selected_rows {T : Type} (sel : Z) (tasks : list T) : ∀ k : nat,
  List.filter snd (imap (λ index task, (task, bool_decide (Z.of_nat (k + index) = sel)))
                        tasks)
  = match (if (sel <? Z.of_nat k)%Z then None else tasks !! Z.to_nat (sel - Z.of_nat k)) with
    | Some task => [(task, true)]
    | None => []
    end.
Proof.
  induction tasks as [|task tasks IH]; intros k.
  - cbn. destruct (sel <? Z.of_nat k)%Z; reflexivity.
  - rewrite imap_cons. cbn [List.filter snd].
    rewrite (imap_ext _ (λ index task, (task, bool_decide (Z.of_nat (S k + index) = sel))))
      by (intros i x _; unfold compose;
          replace (k + S i)%nat with (S k + i)%nat by lia; reflexivity).
    rewrite IH. rewrite Nat.add_0_r.
    destruct (decide (Z.of_nat k = sel)) as [E | E].
    + rewrite (bool_decide_eq_true_2 _ E).
      replace (sel <? Z.of_nat (S k))%Z with true by (symmetry; apply Z.ltb_lt; lia).
      replace (sel <? Z.of_nat k)%Z with false by (symmetry; apply Z.ltb_ge; lia).
      replace (Z.to_nat (sel - Z.of_nat k)) with 0%nat by lia. reflexivity.
    + rewrite (bool_decide_eq_false_2 _ E).
      destruct (sel <? Z.of_nat k)%Z eqn:E1.
      * apply Z.ltb_lt in E1.
        replace (sel <? Z.of_nat (S k))%Z with true by (symmetry; apply Z.ltb_lt; lia).
        reflexivity.
      * apply Z.ltb_ge in E1.
        replace (sel <? Z.of_nat (S k))%Z with false by (symmetry; apply Z.ltb_ge; lia).
        replace (Z.to_nat (sel - Z.of_nat k)) with (S (Z.to_nat (sel - Z.of_nat (S k))))
          by lia.
        reflexivity.
Qed.

Lemma rows_tasks {T : Type} (f : nat → bool) (tasks : list T) :
  (imap (λ index task, (task, f index)) tasks).*1 = tasks.
Proof.
  revert f. induction tasks as [|x l IH]; intros f; [reflexivity|].
  rewrite imap_cons. cbn [fmap list_fmap fst]. f_equal. apply (IH (f ∘ S)).
Qed.

(** X22: the task list shows the tasks in their order, one row each, and
    highlights the row of [selectedIndex] and no other; with an index
    that is negative or not below the number of tasks no row is
    highlighted. *)
Theorem one_row_selected {T : Type} (tasks : list T) (selectedIndex : Z) :
  (panel_rows (LeftPanel tasks selectedIndex)).*1 = tasks
  ∧ List.filter snd (panel_rows (LeftPanel tasks selectedIndex))
    = match (if (selectedIndex <? 0)%Z then None
             else tasks !! Z.to_nat selectedIndex) with
      | Some task => [(task, true)]
      | None => []
      end.
Proof.
  unfold LeftPanel. destruct tasks as [|task tasks].
  - cbn. destruct (selectedIndex <? 0)%Z; split; reflexivity.
  - cbn [length Nat.eqb panel_rows]. split.
    + apply (rows_tasks (λ index, bool_decide (Z.of_nat index = selectedIndex))).
    + pose proof (selected_rows selectedIndex (task :: tasks) 0) as H.
      cbn [Nat.add Z.of_nat] in H. rewrite Z.sub_0_r in H. exact H.
Qed.
